(** * Network segment resolution (trisolaris/metadata/segment.go)

    A shallow embedding of the [Segment] engine of the controller: the
    per-network grouping [NetworkMacs], the entity indices, the transitive
    closure over pod / pod-node / VM, the build pass and the queries with
    their side effect on the set of interface ids already handed out.

    Conventions of the embedding
    - Go [int] is [Z]; the conversion [uint32(x)] is [x mod 2^32].
    - Go maps are [gmap], [mapset.Set] is [gset]; a [nil] slice and an
      empty slice are both the empty list.
    - [*models.VInterface] is an abstract reference type [vifptr] with a
      total dereference [deref]: two distinct references may point to
      rows with equal contents, exactly as two pointers may.
    - The iteration order of a Go map (and of a [mapset.Set], which is a
      map) is unspecified, and drawn afresh at every [range].  Every
      [range] over a map or a set goes through [range_order], an arbitrary
      reordering of the elements; one [RangeOrder] stands for the orders
      drawn during one call.  All results hold for every such reordering;
      the properties that compare what separate builds or calls iterate
      give each of them a [RangeOrder] of its own and conclude up to
      order. *)

From stdpp Require Import gmap strings list fin_maps.
From Stdlib Require Import ZArith.

Local Open Scope Z_scope.
Set Default Proof Using "Type".

(** ** Iteration order of maps and sets *)

Class RangeOrder := {
  range_order : ∀ A : Type, list A → list A;
  range_order_perm : ∀ (A : Type) (l : list A), range_order A l ≡ₚ l
}.
Arguments range_order {_ _} _.

(** The order in which stdpp enumerates the collection. *)
Definition listed_order : RangeOrder :=
  {| range_order := λ _ l, l; range_order_perm := λ _ l, reflexivity l |}.

(** The opposite order. *)
Definition reversed_order : RangeOrder :=
  {| range_order := λ _ l, reverse l;
     range_order_perm := λ _ l, reverse_Permutation l |}.

(** ** Data *)

(** [uint32(x)] for a Go [int] [x]. *)
Definition uint32 (x : Z) : Z := x mod 2 ^ 32.

(** Modelled from the spec: the row type [models.VInterface] is declared in
    the database package; the engine reads its fields [ID], [Mac] and
    [NetworkID] only (the spec's InterfaceRecord). *)
Record VInterface := {
  vif_ID : Z;
  vif_Mac : string;
  vif_NetworkID : Z
}.

(** Modelled from the spec: [models.PodNode]; the engine reads [ID] only. *)
Record PodNode := { pn_ID : Z }.

Record MacID := { Mac : string; ID : Z }.

Definition newMacID (vif : VInterface) : MacID :=
  {| Mac := vif_Mac vif; ID := vif_ID vif |}.

(** [trident.Segment], the wire message. *)
Record TridentSegment := {
  seg_Id : Z;
  seg_Mac : list string;
  seg_InterfaceId : list Z
}.

Abbreviation NetworkMacs := (gmap Z (list MacID)).
Abbreviation IDToNetworkMacs := (gmap Z (gmap Z (list MacID))).
Abbreviation ServerToNetworkMacs := (gmap string (gmap Z (list MacID))).

Definition newNetworkMacs : NetworkMacs := ∅.
Definition newIDToNetworkMacs : IDToNetworkMacs := ∅.
Definition newServerToNetworkMacs : ServerToNetworkMacs := ∅.

(** [NetworkMacs.add] *)
Definition NetworkMacs_add (vif : VInterface) (n : NetworkMacs) : NetworkMacs :=
  if decide (vif_Mac vif = "") then n
  else
    let macID := newMacID vif in
    let id := vif_NetworkID vif in
    match n !! id with
    | Some l => <[id := l ++ [macID]]> n
    | None => <[id := [macID]]> n
    end.

(** [NetworkMacs.get]: the zero value of a slice for a missing key. *)
Definition NetworkMacs_get (n : NetworkMacs) (id : Z) : list MacID :=
  default [] (n !! id).

(** [IDToNetworkMacs.add] and [ServerToNetworkMacs.add] *)
Definition IDToNetworkMacs_add (id : Z) (macs : NetworkMacs)
    (t : IDToNetworkMacs) : IDToNetworkMacs := <[id := macs]> t.

Definition ServerToNetworkMacs_add (server : string) (macs : NetworkMacs)
    (t : ServerToNetworkMacs) : ServerToNetworkMacs := <[server := macs]> t.

Section Engine.
Context {vifptr : Type} `{Countable vifptr}.
Context (deref : vifptr → VInterface).
Context {RO : RangeOrder}.

Abbreviation IDToVifs := (gmap Z (gset vifptr)).

Definition newIDToVifs : IDToVifs := ∅.

(** [IDToVifs.add]: union into an existing entry, a clone otherwise. *)
Definition IDToVifs_add (id : Z) (vifs : gset vifptr) (v : IDToVifs) : IDToVifs :=
  match v !! id with
  | Some old =>
      <[id := foldl (λ acc vif, {[vif]} ∪ acc) old (range_order (elements vifs))]> v
  | None => <[id := vifs]> v
  end.

(** Modelled from the spec: [PlatformRawData] is declared in another file
    of the package; these are the associations the engine reads (the
    spec's RawTopologySnapshot). *)
Record PlatformRawData := {
  serverToVmIDs : gmap string (gset Z);
  hostIDToVifs : gmap Z (gset vifptr);
  gatewayHostIDToVifs : gmap Z (gset vifptr);
  vmIDToVifs : gmap Z (gset vifptr);
  podNodeIDtoPodIDs : gmap Z (gset Z);
  podIDToVifs : gmap Z (gset vifptr);
  podNodeIDToVmID : gmap Z Z;
  podNodeIDToVifs : gmap Z (gset vifptr);
  idToPodNode : gmap Z PodNode;
  deviceVifs : list vifptr
}.

Record Segment := {
  launchServerToSegments : ServerToNetworkMacs;
  hostIDToSegments : IDToNetworkMacs;
  gatewayHostIDToSegments : IDToNetworkMacs;
  allGatewayHostSegments : list TridentSegment;
  vtapUsedVInterfaceIDs : gset Z;
  notVtapUsedSegments : list TridentSegment;
  vmIDToSegments : IDToNetworkMacs;
  bmDedicatedRemoteSegments : list TridentSegment;
  podNodeIDToSegments : IDToNetworkMacs;
  vmIDToPodNodeAllVifs : IDToVifs;
  podNodeIDToAllVifs : IDToVifs
}.

Definition newSegment : Segment := {|
  launchServerToSegments := newServerToNetworkMacs;
  hostIDToSegments := newIDToNetworkMacs;
  gatewayHostIDToSegments := newIDToNetworkMacs;
  allGatewayHostSegments := [];
  vtapUsedVInterfaceIDs := ∅;
  notVtapUsedSegments := [];
  vmIDToSegments := newIDToNetworkMacs;
  bmDedicatedRemoteSegments := [];
  podNodeIDToSegments := newIDToNetworkMacs;
  vmIDToPodNodeAllVifs := newIDToVifs;
  podNodeIDToAllVifs := newIDToVifs
|}.

(** Field assignments [s.f = v]. *)
Definition set_vtapUsedVInterfaceIDs (u : gset Z) (s : Segment) : Segment := {|
  launchServerToSegments := launchServerToSegments s;
  hostIDToSegments := hostIDToSegments s;
  gatewayHostIDToSegments := gatewayHostIDToSegments s;
  allGatewayHostSegments := allGatewayHostSegments s;
  vtapUsedVInterfaceIDs := u;
  notVtapUsedSegments := notVtapUsedSegments s;
  vmIDToSegments := vmIDToSegments s;
  bmDedicatedRemoteSegments := bmDedicatedRemoteSegments s;
  podNodeIDToSegments := podNodeIDToSegments s;
  vmIDToPodNodeAllVifs := vmIDToPodNodeAllVifs s;
  podNodeIDToAllVifs := podNodeIDToAllVifs s
|}.

Definition set_notVtapUsedSegments (l : list TridentSegment) (s : Segment) : Segment := {|
  launchServerToSegments := launchServerToSegments s;
  hostIDToSegments := hostIDToSegments s;
  gatewayHostIDToSegments := gatewayHostIDToSegments s;
  allGatewayHostSegments := allGatewayHostSegments s;
  vtapUsedVInterfaceIDs := vtapUsedVInterfaceIDs s;
  notVtapUsedSegments := l;
  vmIDToSegments := vmIDToSegments s;
  bmDedicatedRemoteSegments := bmDedicatedRemoteSegments s;
  podNodeIDToSegments := podNodeIDToSegments s;
  vmIDToPodNodeAllVifs := vmIDToPodNodeAllVifs s;
  podNodeIDToAllVifs := podNodeIDToAllVifs s
|}.

Definition set_allGatewayHostSegments (l : list TridentSegment) (s : Segment) : Segment := {|
  launchServerToSegments := launchServerToSegments s;
  hostIDToSegments := hostIDToSegments s;
  gatewayHostIDToSegments := gatewayHostIDToSegments s;
  allGatewayHostSegments := l;
  vtapUsedVInterfaceIDs := vtapUsedVInterfaceIDs s;
  notVtapUsedSegments := notVtapUsedSegments s;
  vmIDToSegments := vmIDToSegments s;
  bmDedicatedRemoteSegments := bmDedicatedRemoteSegments s;
  podNodeIDToSegments := podNodeIDToSegments s;
  vmIDToPodNodeAllVifs := vmIDToPodNodeAllVifs s;
  podNodeIDToAllVifs := podNodeIDToAllVifs s
|}.

Definition set_closures (podNodeAll vmPodNodeAll : IDToVifs) (s : Segment) : Segment := {|
  launchServerToSegments := launchServerToSegments s;
  hostIDToSegments := hostIDToSegments s;
  gatewayHostIDToSegments := gatewayHostIDToSegments s;
  allGatewayHostSegments := allGatewayHostSegments s;
  vtapUsedVInterfaceIDs := vtapUsedVInterfaceIDs s;
  notVtapUsedSegments := notVtapUsedSegments s;
  vmIDToSegments := vmIDToSegments s;
  bmDedicatedRemoteSegments := bmDedicatedRemoteSegments s;
  podNodeIDToSegments := podNodeIDToSegments s;
  vmIDToPodNodeAllVifs := vmPodNodeAll;
  podNodeIDToAllVifs := podNodeAll
|}.

Definition set_indices (ls : ServerToNetworkMacs) (h g vm pn : IDToNetworkMacs)
    (s : Segment) : Segment := {|
  launchServerToSegments := ls;
  hostIDToSegments := h;
  gatewayHostIDToSegments := g;
  allGatewayHostSegments := allGatewayHostSegments s;
  vtapUsedVInterfaceIDs := vtapUsedVInterfaceIDs s;
  notVtapUsedSegments := notVtapUsedSegments s;
  vmIDToSegments := vm;
  bmDedicatedRemoteSegments := bmDedicatedRemoteSegments s;
  podNodeIDToSegments := pn;
  vmIDToPodNodeAllVifs := vmIDToPodNodeAllVifs s;
  podNodeIDToAllVifs := podNodeIDToAllVifs s
|}.

(** ** Queries *)

(** The loop [for _, macID := range macIDs] of the claiming queries:
    append the MAC and the converted id, add the id to the used set. *)
Definition collectUsed (macIDs : list MacID)
    (acc : list string * list Z * gset Z) : list string * list Z * gset Z :=
  foldl (λ '(macs, vifIDs, used) macID,
           (macs ++ [Mac macID], vifIDs ++ [uint32 (ID macID)], {[ID macID]} ∪ used))
        acc macIDs.

(** The same loop in [generateGatewayHostSegments], without the [Add]. *)
Definition collect (macIDs : list MacID)
    (acc : list string * list Z) : list string * list Z :=
  foldl (λ '(macs, vifIDs) macID,
           (macs ++ [Mac macID], vifIDs ++ [uint32 (ID macID)]))
        acc macIDs.

(** The body shared by [getSegmentsByID] and [getSegmentsByServer] once
    the entry has been found. *)
Definition segmentsOf (networkMacs : NetworkMacs) (s : Segment)
    : list TridentSegment * Segment :=
  foldl (λ '(segments, s) '(networkID, macIDs),
           let '(macs, vifIDs, used) :=
             collectUsed macIDs ([], [], vtapUsedVInterfaceIDs s) in
           let segment :=
             {| seg_Id := uint32 networkID; seg_Mac := macs; seg_InterfaceId := vifIDs |} in
           (segments ++ [segment], set_vtapUsedVInterfaceIDs used s))
        ([], s) (range_order (map_to_list networkMacs)).

Definition getSegmentsByID (t : IDToNetworkMacs) (id : Z) (s : Segment)
    : list TridentSegment * Segment :=
  match t !! id with
  | None => ([], s)
  | Some networkMacs => segmentsOf networkMacs s
  end.

Definition getSegmentsByServer (t : ServerToNetworkMacs) (server : string) (s : Segment)
    : list TridentSegment * Segment :=
  match t !! server with
  | None => ([], s)
  | Some networkMacs => segmentsOf networkMacs s
  end.

Definition GetAllGatewayHostSegments (s : Segment) : list TridentSegment :=
  allGatewayHostSegments s.

Definition GetNotVtapUsedSegments (s : Segment) : list TridentSegment :=
  notVtapUsedSegments s.

Definition ClearVTapUsedVInterfaceIDs (s : Segment) : Segment :=
  set_vtapUsedVInterfaceIDs ∅ s.

Definition GetLaunchServerSegments (launchServer : string) (s : Segment) :=
  getSegmentsByServer (launchServerToSegments s) launchServer s.

Definition GetVMIDSegments (vmID : Z) (s : Segment) :=
  getSegmentsByID (vmIDToSegments s) vmID s.

Definition GetHostIDSegments (hostID : Z) (s : Segment) :=
  getSegmentsByID (hostIDToSegments s) hostID s.

Definition GetPodNodeSegments (podNodeID : Z) (s : Segment) :=
  getSegmentsByID (podNodeIDToSegments s) podNodeID s.

(** One of the two [if networkMacs, ok := ...; ok] blocks of
    [GetTypeVMSegments]. *)
Definition collectEntry (entry : option NetworkMacs)
    (acc : list string * list Z * gset Z) : list string * list Z * gset Z :=
  match entry with
  | Some networkMacs =>
      foldl (λ acc '(_, macIDs), collectUsed macIDs acc) acc
            (range_order (map_to_list networkMacs))
  | None => acc
  end.

Definition GetTypeVMSegments (launchServer : string) (hostID : Z) (s : Segment)
    : list TridentSegment * Segment :=
  let acc := ([], [], vtapUsedVInterfaceIDs s) in
  let acc := collectEntry (launchServerToSegments s !! launchServer) acc in
  let '(macs, vifIDs, used) := collectEntry (hostIDToSegments s !! hostID) acc in
  ([ {| seg_Id := uint32 1; seg_Mac := macs; seg_InterfaceId := vifIDs |} ],
   set_vtapUsedVInterfaceIDs used s).

Definition GenerateNoVTapUsedSegments (rawData : PlatformRawData) (s : Segment) : Segment :=
  let '(macs, vifIDs) :=
    foldl (λ '(macs, vifIDs) vif,
             if decide (vif_ID (deref vif) ∈ vtapUsedVInterfaceIDs s)
             then (macs, vifIDs)
             else (macs ++ [vif_Mac (deref vif)], vifIDs ++ [uint32 (vif_ID (deref vif))]))
          ([], []) (deviceVifs rawData) in
  let segments :=
    if decide (0 < length macs)%nat
    then [ {| seg_Id := uint32 1; seg_Mac := macs; seg_InterfaceId := vifIDs |} ]
    else [] in
  set_notVtapUsedSegments segments s.

(** ** Build *)

(** [for vif := range vifs.Iter() { netWorkMacs.add(vif) }] *)
Definition addVifs (vifs : gset vifptr) (n : NetworkMacs) : NetworkMacs :=
  foldl (λ n vif, NetworkMacs_add (deref vif) n) n (range_order (elements vifs)).

(** [if vifs, ok := m[id]; ok { for vif := range vifs.Iter() {...} }] *)
Definition addVifsOf (m : IDToVifs) (id : Z) (n : NetworkMacs) : NetworkMacs :=
  match m !! id with
  | Some vifs => addVifs vifs n
  | None => n
  end.

Definition convertDBInfo (rawData : PlatformRawData) (s : Segment) : Segment :=
  let podNodeIDToAllVifs :=
    foldl (λ (all : IDToVifs) '(_, podnode),
             let podnodeID := pn_ID podnode in
             let all :=
               match podNodeIDToVifs rawData !! podnodeID with
               | Some vifs => IDToVifs_add podnodeID vifs all
               | None => all
               end in
             match podNodeIDtoPodIDs rawData !! podnodeID with
             | Some podIDs =>
                 foldl (λ (all : IDToVifs) id,
                          match podIDToVifs rawData !! id with
                          | Some vifs => IDToVifs_add podnodeID vifs all
                          | None => all
                          end)
                       all (range_order (elements podIDs))
             | None => all
             end)
          newIDToVifs (range_order (map_to_list (idToPodNode rawData))) in
  let vmIDToPodNodeAllVifs :=
    foldl (λ (vmAll : IDToVifs) '(podnodeID, vmID),
             match podNodeIDToAllVifs !! podnodeID with
             | Some allVifs => IDToVifs_add vmID allVifs vmAll
             | None => vmAll
             end)
          newIDToVifs (range_order (map_to_list (podNodeIDToVmID rawData))) in
  set_closures podNodeIDToAllVifs vmIDToPodNodeAllVifs s.

Definition generateBaseSegmentsFromDB (rawData : PlatformRawData) (s : Segment) : Segment :=
  let launchServerToSegments :=
    foldl (λ (t : ServerToNetworkMacs) '(server, vmids),
             let netWorkMacs :=
               foldl (λ n id,
                        addVifsOf (vmIDToPodNodeAllVifs s) id
                          (addVifsOf (vmIDToVifs rawData) id n))
                     newNetworkMacs (range_order (elements vmids)) in
             <[server := netWorkMacs]> t)
          newServerToNetworkMacs (range_order (map_to_list (serverToVmIDs rawData))) in
  let hostIDToSegments :=
    foldl (λ (t : IDToNetworkMacs) '(hostID, vifs),
             <[hostID := addVifs vifs newNetworkMacs]> t)
          newIDToNetworkMacs (range_order (map_to_list (hostIDToVifs rawData))) in
  let gatewayHostIDToSegments :=
    foldl (λ (t : IDToNetworkMacs) '(hostID, vifs),
             <[hostID := addVifs vifs newNetworkMacs]> t)
          newIDToNetworkMacs (range_order (map_to_list (gatewayHostIDToVifs rawData))) in
  let vmIDToSegments :=
    foldl (λ (t : IDToNetworkMacs) '(vmID, vifs),
             <[vmID := addVifsOf (vmIDToPodNodeAllVifs s) vmID
                         (addVifs vifs newNetworkMacs)]> t)
          newIDToNetworkMacs (range_order (map_to_list (vmIDToVifs rawData))) in
  let podNodeIDToSegments :=
    foldl (λ (t : IDToNetworkMacs) '(podNodeID, vifs),
             <[podNodeID := addVifs vifs newNetworkMacs]> t)
          newIDToNetworkMacs (range_order (map_to_list (podNodeIDToAllVifs s))) in
  set_indices launchServerToSegments hostIDToSegments gatewayHostIDToSegments
              vmIDToSegments podNodeIDToSegments s.

Definition generateGatewayHostSegments (s : Segment) : Segment :=
  let segments :=
    foldl (λ segments '(_, hostSegments),
             foldl (λ segments '(_, macIDs),
                      let '(macs, vifIDs) := collect macIDs ([], []) in
                      segments ++
                        [ {| seg_Id := uint32 1; seg_Mac := macs; seg_InterfaceId := vifIDs |} ])
                   segments (range_order (map_to_list (hostSegments : NetworkMacs))))
          [] (range_order (map_to_list (gatewayHostIDToSegments s))) in
  set_allGatewayHostSegments segments s.

Definition generateBaseSegments (rawData : PlatformRawData) (s : Segment) : Segment :=
  generateGatewayHostSegments (generateBaseSegmentsFromDB rawData (convertDBInfo rawData s)).

(** ** Calls on the engine

    The operations a caller can invoke, as one type, so that properties can
    be stated over every sequence of calls. *)

Inductive Call :=
  | CallGenerateBaseSegments (rawData : PlatformRawData)
  | CallGenerateNoVTapUsedSegments (rawData : PlatformRawData)
  | CallClearVTapUsedVInterfaceIDs
  | CallGetLaunchServerSegments (launchServer : string)
  | CallGetVMIDSegments (vmID : Z)
  | CallGetHostIDSegments (hostID : Z)
  | CallGetPodNodeSegments (podNodeID : Z)
  | CallGetTypeVMSegments (launchServer : string) (hostID : Z)
  | CallGetAllGatewayHostSegments
  | CallGetNotVtapUsedSegments.

(** The value a call returns (the empty list for the procedures) and the
    engine after it. *)
Definition call (c : Call) (s : Segment) : list TridentSegment * Segment :=
  match c with
  | CallGenerateBaseSegments rawData => ([], generateBaseSegments rawData s)
  | CallGenerateNoVTapUsedSegments rawData => ([], GenerateNoVTapUsedSegments rawData s)
  | CallClearVTapUsedVInterfaceIDs => ([], ClearVTapUsedVInterfaceIDs s)
  | CallGetLaunchServerSegments launchServer => GetLaunchServerSegments launchServer s
  | CallGetVMIDSegments vmID => GetVMIDSegments vmID s
  | CallGetHostIDSegments hostID => GetHostIDSegments hostID s
  | CallGetPodNodeSegments podNodeID => GetPodNodeSegments podNodeID s
  | CallGetTypeVMSegments launchServer hostID => GetTypeVMSegments launchServer hostID s
  | CallGetAllGatewayHostSegments => (GetAllGatewayHostSegments s, s)
  | CallGetNotVtapUsedSegments => (GetNotVtapUsedSegments s, s)
  end.

Definition run (cs : list Call) (s : Segment) : Segment :=
  foldl (λ s c, (call c s).2) s cs.

(** The entity-scoped queries: the four per-entity lookups and the combined
    VM-type query. *)
Definition isEntityQuery (c : Call) : bool :=
  match c with
  | CallGetLaunchServerSegments _ | CallGetVMIDSegments _ | CallGetHostIDSegments _
  | CallGetPodNodeSegments _ | CallGetTypeVMSegments _ _ => true
  | _ => false
  end.

(** The calls whose segments carry the fixed id. *)
Definition isFixedIdQuery (c : Call) : bool :=
  match c with
  | CallGetTypeVMSegments _ _ | CallGetAllGatewayHostSegments
  | CallGetNotVtapUsedSegments => true
  | _ => false
  end.

(** The calls that answer from the indices: the entity queries and the
    gateway list. *)
Definition isIndexQuery (c : Call) : bool :=
  match c with
  | CallGetAllGatewayHostSegments => true
  | _ => isEntityQuery c
  end.

(** The four per-entity lookups. *)
Definition isPerEntityQuery (c : Call) : bool :=
  match c with
  | CallGetLaunchServerSegments _ | CallGetVMIDSegments _ | CallGetHostIDSegments _
  | CallGetPodNodeSegments _ => true
  | _ => false
  end.

(** The index entry a per-entity lookup resolves. *)
Definition entryOf (c : Call) (s : Segment) : option NetworkMacs :=
  match c with
  | CallGetLaunchServerSegments launchServer => launchServerToSegments s !! launchServer
  | CallGetVMIDSegments vmID => vmIDToSegments s !! vmID
  | CallGetHostIDSegments hostID => hostIDToSegments s !! hostID
  | CallGetPodNodeSegments podNodeID => podNodeIDToSegments s !! podNodeID
  | _ => None
  end.

(** The values returned by a sequence of calls, in order. *)
Fixpoint answers (cs : list Call) (s : Segment) : list (list TridentSegment) :=
  match cs with
  | [] => []
  | c :: cs => (call c s).1 :: answers cs (call c s).2
  end.

(** Two engines with the same indices and the same gateway cache. *)
Definition sameIndices (s s' : Segment) : Prop :=
  launchServerToSegments s = launchServerToSegments s'
  ∧ hostIDToSegments s = hostIDToSegments s'
  ∧ gatewayHostIDToSegments s = gatewayHostIDToSegments s'
  ∧ vmIDToSegments s = vmIDToSegments s'
  ∧ podNodeIDToSegments s = podNodeIDToSegments s'
  ∧ allGatewayHostSegments s = allGatewayHostSegments s'.

(** ** Vocabulary of the statements *)

(** The segment a per-entity query renders for one entry of a
    [NetworkMacs]. *)
Definition segmentOfEntry (e : Z * list MacID) : TridentSegment :=
  {| seg_Id := uint32 e.1;
     seg_Mac := Mac <$> e.2;
     seg_InterfaceId := (λ m, uint32 (ID m)) <$> e.2 |}.

(** The segment with the fixed id over a list of MacIDs. *)
Definition fixedSegment (macIDs : list MacID) : TridentSegment :=
  {| seg_Id := 1;
     seg_Mac := Mac <$> macIDs;
     seg_InterfaceId := (λ m, uint32 (ID m)) <$> macIDs |}.

(** The MacIDs of a [NetworkMacs] in the order a [range] visits them. *)
Definition walk (n : NetworkMacs) : list MacID :=
  mjoin (range_order (map_to_list n)).*2.

(** The interface ids held by a [NetworkMacs]. *)
Definition idsOf (n : NetworkMacs) : gset Z :=
  list_to_set (ID <$> mjoin (map_to_list n).*2).

Definition idsOfEntry (o : option NetworkMacs) : gset Z :=
  match o with Some n => idsOf n | None => ∅ end.

(** The index entry an entity query reads, and the ids it holds. *)
Definition claimedBy (c : Call) (s : Segment) : gset Z :=
  match c with
  | CallGetLaunchServerSegments launchServer =>
      idsOfEntry (launchServerToSegments s !! launchServer)
  | CallGetVMIDSegments vmID => idsOfEntry (vmIDToSegments s !! vmID)
  | CallGetHostIDSegments hostID => idsOfEntry (hostIDToSegments s !! hostID)
  | CallGetPodNodeSegments podNodeID => idsOfEntry (podNodeIDToSegments s !! podNodeID)
  | CallGetTypeVMSegments launchServer hostID =>
      idsOfEntry (launchServerToSegments s !! launchServer)
      ∪ idsOfEntry (hostIDToSegments s !! hostID)
  | _ => ∅
  end.

(** How an interface shows in a segment: its MAC beside its converted id. *)
Definition shown (vif : VInterface) : string * Z :=
  (vif_Mac vif, uint32 (vif_ID vif)).

(** The (MAC, id) pairs of a segment, and of a list of segments. *)
Definition pairsOf (seg : TridentSegment) : list (string * Z) :=
  zip (seg_Mac seg) (seg_InterfaceId seg).

Definition includes (segs : list TridentSegment) (vif : VInterface) : Prop :=
  ∃ seg, seg ∈ segs ∧ shown vif ∈ pairsOf seg.

(** The set stored under a key, empty when the key is missing. *)
Definition vifsAt (m : IDToVifs) (id : Z) : gset vifptr := default ∅ (m !! id).

(** [vif] is attached to pod-node [n] or to a pod that runs on it. *)
Definition onPodNode (rawData : PlatformRawData) (n : Z) (vif : vifptr) : Prop :=
  vif ∈ vifsAt (podNodeIDToVifs rawData) n
  ∨ ∃ podIDs pod, podNodeIDtoPodIDs rawData !! n = Some podIDs ∧ pod ∈ podIDs
                  ∧ vif ∈ vifsAt (podIDToVifs rawData) pod.

(** Some set of interfaces attached to pod-node [n], or to a pod that runs
    on it, satisfies [part]. *)
Definition podNodeParts (rawData : PlatformRawData) (n : Z)
    (part : gset vifptr → Prop) : Prop :=
  (∃ vifs, podNodeIDToVifs rawData !! n = Some vifs ∧ part vifs)
  ∨ ∃ podIDs pod vifs, podNodeIDtoPodIDs rawData !! n = Some podIDs ∧ pod ∈ podIDs
                       ∧ podIDToVifs rawData !! pod = Some vifs ∧ part vifs.

(** [n] is the id of a pod-node record of the snapshot. *)
Definition isPodNode (rawData : PlatformRawData) (n : Z) : Prop :=
  ∃ k podnode, idToPodNode rawData !! k = Some podnode ∧ pn_ID podnode = n.

(** [vif] reaches VM [vm]: attached to it, or on a pod-node it owns. *)
Definition onVM (rawData : PlatformRawData) (vm : Z) (vif : vifptr) : Prop :=
  vif ∈ vifsAt (vmIDToVifs rawData) vm
  ∨ ∃ n, podNodeIDToVmID rawData !! n = Some vm ∧ isPodNode rawData n
         ∧ onPodNode rawData n vif.

(** [n] groups exactly the interfaces that satisfy [S] and have a MAC, each
    under its network id. *)
Definition holds (n : NetworkMacs) (S : vifptr → Prop) : Prop :=
  ∀ k m, m ∈ NetworkMacs_get n k
         ↔ ∃ p, S p ∧ vif_Mac (deref p) ≠ "" ∧ vif_NetworkID (deref p) = k
                ∧ m = newMacID (deref p).

(** No entry of [n] has an empty MAC. *)
Definition noEmptyMac (n : NetworkMacs) : Prop :=
  ∀ k l m, n !! k = Some l → m ∈ l → Mac m ≠ "".

(** No index of the engine, and no cached gateway segment, has an empty
    MAC. *)
Definition indicesNoEmptyMac (s : Segment) : Prop :=
  (∀ k n, launchServerToSegments s !! k = Some n → noEmptyMac n)
  ∧ (∀ k n, hostIDToSegments s !! k = Some n → noEmptyMac n)
  ∧ (∀ k n, gatewayHostIDToSegments s !! k = Some n → noEmptyMac n)
  ∧ (∀ k n, vmIDToSegments s !! k = Some n → noEmptyMac n)
  ∧ (∀ k n, podNodeIDToSegments s !! k = Some n → noEmptyMac n)
  ∧ (∀ seg, seg ∈ allGatewayHostSegments s → "" ∉ seg_Mac seg).

(** The cached lists carry the fixed id. *)
Definition cachedFixedId (s : Segment) : Prop :=
  (∀ seg, seg ∈ allGatewayHostSegments s → seg_Id seg = 1)
  ∧ (∀ seg, seg ∈ notVtapUsedSegments s → seg_Id seg = 1).

(** The catch-all segment list over a list of interfaces. *)
Definition catchAll (vifs : list vifptr) : list TridentSegment :=
  match vifs with
  | [] => []
  | _ => [ {| seg_Id := 1;
              seg_Mac := (λ p, vif_Mac (deref p)) <$> vifs;
              seg_InterfaceId := (λ p, uint32 (vif_ID (deref p))) <$> vifs |} ]
  end.

(** The interfaces of the device list whose id is not in [used]. *)
Definition unclaimed (rawData : PlatformRawData) (used : gset Z) : list vifptr :=
  filter (λ p, vif_ID (deref p) ∉ used) (deviceVifs rawData).

End Engine.

Arguments convertDBInfo : simpl never.

(** ** The same up to order

    What the results of two runs under different iteration orders have in
    common. *)

(** Two groupings with the same network ids and, under each, the same
    MacIDs in some order. *)
Definition groupingUpToOrder (n n' : NetworkMacs) : Prop :=
  ∀ k, option_Forall2 (≡ₚ) (n !! k) (n' !! k).

(** Two indices with the same keys and, under each, the same grouping up
    to order. *)
Definition indexUpToOrder `{Countable K} (t t' : gmap K (gmap Z (list MacID))) : Prop :=
  ∀ k, option_Forall2 groupingUpToOrder (t !! k) (t' !! k).

(** Two segments with the same id and, up to order, the same MACs, the
    same interface ids and the same (MAC, id) pairs. *)
Definition segmentUpToOrder (seg seg' : TridentSegment) : Prop :=
  seg_Id seg = seg_Id seg'
  ∧ seg_Mac seg ≡ₚ seg_Mac seg'
  ∧ seg_InterfaceId seg ≡ₚ seg_InterfaceId seg'
  ∧ zip (seg_Mac seg) (seg_InterfaceId seg) ≡ₚ zip (seg_Mac seg') (seg_InterfaceId seg').

(** Two answers that hold the same segments up to order, in some order. *)
Definition answerUpToOrder (a a' : list TridentSegment) : Prop :=
  ∃ b, a ≡ₚ b ∧ Forall2 segmentUpToOrder b a'.

(** Two engines that agree up to order on the five indices and on the
    gateway cache, and agree on the used set and on the catch-all cache. *)
Definition engineUpToOrder {vifptr : Type} `{Countable vifptr}
    (s s' : Segment (vifptr:=vifptr)) : Prop :=
  indexUpToOrder (launchServerToSegments s) (launchServerToSegments s')
  ∧ indexUpToOrder (hostIDToSegments s) (hostIDToSegments s')
  ∧ indexUpToOrder (gatewayHostIDToSegments s) (gatewayHostIDToSegments s')
  ∧ indexUpToOrder (vmIDToSegments s) (vmIDToSegments s')
  ∧ indexUpToOrder (podNodeIDToSegments s) (podNodeIDToSegments s')
  ∧ answerUpToOrder (allGatewayHostSegments s) (allGatewayHostSegments s')
  ∧ vtapUsedVInterfaceIDs s = vtapUsedVInterfaceIDs s'
  ∧ notVtapUsedSegments s = notVtapUsedSegments s'.

(** Two engines that agree up to order on the five indices and on the
    gateway cache. *)
Definition indicesUpToOrder {vifptr : Type} `{Countable vifptr}
    (s s' : Segment (vifptr:=vifptr)) : Prop :=
  indexUpToOrder (launchServerToSegments s) (launchServerToSegments s')
  ∧ indexUpToOrder (hostIDToSegments s) (hostIDToSegments s')
  ∧ indexUpToOrder (gatewayHostIDToSegments s) (gatewayHostIDToSegments s')
  ∧ indexUpToOrder (vmIDToSegments s) (vmIDToSegments s')
  ∧ indexUpToOrder (podNodeIDToSegments s) (podNodeIDToSegments s')
  ∧ answerUpToOrder (allGatewayHostSegments s) (allGatewayHostSegments s').

(** ** Vocabulary of the further properties *)

(** A segment as the wire message expects it: as many MACs as interface
    ids, and every id within 32 bits. *)
Definition wellFormed (seg : TridentSegment) : Prop :=
  length (seg_Mac seg) = length (seg_InterfaceId seg)
  ∧ 0 ≤ seg_Id seg < 2 ^ 32
  ∧ Forall (λ x, 0 ≤ x < 2 ^ 32) (seg_InterfaceId seg).

(** No network of [n] has an empty list. *)
Definition nonEmptyGroups (n : NetworkMacs) : Prop :=
  ∀ k l, n !! k = Some l → l ≠ [].

(** The combined VM-type query. *)
Definition isCombinedQuery {vifptr : Type} `{Countable vifptr}
    (c : Call (vifptr:=vifptr)) : bool :=
  match c with
  | CallGetTypeVMSegments _ _ => true
  | _ => false
  end.

Section Reach.
Context {vifptr : Type} `{Countable vifptr}.
Context (deref : vifptr → VInterface).

(** [vif] reaches some VM of the launch server. *)
Definition onLaunchServer (rawData : PlatformRawData (vifptr:=vifptr)) (launchServer : string)
    (vif : vifptr) : Prop :=
  ∃ vmids vm, serverToVmIDs rawData !! launchServer = Some vmids ∧ vm ∈ vmids
              ∧ onVM rawData vm vif.

(** The interfaces of the snapshot a query is about.  A VM counts only
    when the snapshot lists interfaces of its own. *)
Definition reaches (rawData : PlatformRawData (vifptr:=vifptr))
    (c : Call (vifptr:=vifptr)) (vif : vifptr) : Prop :=
  match c with
  | CallGetLaunchServerSegments launchServer => onLaunchServer rawData launchServer vif
  | CallGetVMIDSegments vmID =>
      is_Some (vmIDToVifs rawData !! vmID) ∧ onVM rawData vmID vif
  | CallGetHostIDSegments hostID => vif ∈ vifsAt (hostIDToVifs rawData) hostID
  | CallGetPodNodeSegments podNodeID =>
      isPodNode rawData podNodeID ∧ onPodNode rawData podNodeID vif
  | CallGetTypeVMSegments launchServer hostID =>
      onLaunchServer rawData launchServer vif
      ∨ vif ∈ vifsAt (hostIDToVifs rawData) hostID
  | CallGetAllGatewayHostSegments =>
      ∃ hostID, vif ∈ vifsAt (gatewayHostIDToVifs rawData) hostID
  | _ => False
  end.

(** The MacIDs of the interfaces of [vifs] with a MAC on network [k], in
    the order of [vifs]. *)
Definition macIDsOn (k : Z) (vifs : list vifptr) : list MacID :=
  (λ p, newMacID (deref p))
  <$> filter (λ p, vif_Mac (deref p) ≠ "" ∧ vif_NetworkID (deref p) = k) vifs.

(** No index and no cached list of the engine stores an empty group. *)
Definition storesNoEmptyGroup (s : Segment (vifptr:=vifptr)) : Prop :=
  (∀ k n, launchServerToSegments s !! k = Some n → nonEmptyGroups n)
  ∧ (∀ k n, hostIDToSegments s !! k = Some n → nonEmptyGroups n)
  ∧ (∀ k n, gatewayHostIDToSegments s !! k = Some n → nonEmptyGroups n)
  ∧ (∀ k n, vmIDToSegments s !! k = Some n → nonEmptyGroups n)
  ∧ (∀ k n, podNodeIDToSegments s !! k = Some n → nonEmptyGroups n)
  ∧ (∀ seg, seg ∈ allGatewayHostSegments s → seg_Mac seg ≠ [])
  ∧ (∀ seg, seg ∈ notVtapUsedSegments s → seg_Mac seg ≠ []).

(** The two cached lists hold well-formed segments. *)
Definition cachesWellFormed (s : Segment (vifptr:=vifptr)) : Prop :=
  Forall wellFormed (allGatewayHostSegments s)
  ∧ Forall wellFormed (notVtapUsedSegments s).

End Reach.

(** * Sample snapshots

    Concrete snapshots on which the statements below are evaluated.
    Interfaces are referred to by number. *)

Definition sampleVif (p : nat) : VInterface :=
  match p with
  | 1%nat => {| vif_ID := 1; vif_Mac := "a1"; vif_NetworkID := 10 |}
  | 2%nat => {| vif_ID := 2; vif_Mac := "a2"; vif_NetworkID := 10 |}
  | 3%nat => {| vif_ID := 3; vif_Mac := "a3"; vif_NetworkID := 20 |}
  | 4%nat => {| vif_ID := 4; vif_Mac := "a4"; vif_NetworkID := 20 |}
  | 5%nat => {| vif_ID := 5; vif_Mac := ""; vif_NetworkID := 30 |}
  | 6%nat => {| vif_ID := 6; vif_Mac := "a6"; vif_NetworkID := 40 |}
  | 7%nat => {| vif_ID := 7; vif_Mac := "a7"; vif_NetworkID := 4294967306 |}
  | 8%nat => {| vif_ID := 8; vif_Mac := "a8"; vif_NetworkID := 50 |}
  | _ => {| vif_ID := 0; vif_Mac := ""; vif_NetworkID := 0 |}
  end.

Definition emptyRaw : PlatformRawData (vifptr:=nat) := {|
  serverToVmIDs := ∅; hostIDToVifs := ∅; gatewayHostIDToVifs := ∅;
  vmIDToVifs := ∅; podNodeIDtoPodIDs := ∅; podIDToVifs := ∅;
  podNodeIDToVmID := ∅; podNodeIDToVifs := ∅; idToPodNode := ∅;
  deviceVifs := []
|}.

(** Host 1 with interfaces 1 and 2; the device list also has interface 3. *)
Definition hostRaw : PlatformRawData (vifptr:=nat) := {|
  serverToVmIDs := ∅;
  hostIDToVifs := {[ 1 := {[ 1%nat; 2%nat ]} ]};
  gatewayHostIDToVifs := ∅;
  vmIDToVifs := ∅; podNodeIDtoPodIDs := ∅; podIDToVifs := ∅;
  podNodeIDToVmID := ∅; podNodeIDToVifs := ∅; idToPodNode := ∅;
  deviceVifs := [1; 2; 3]%nat
|}.

(** Host 1 with interface 1 and the MAC-less interface 5; VM 100 on launch
    server "srv" with interface 2; pod-node 7 owned by VM 100 with interface
    3; pod 8 on pod-node 7 with interface 4; VM 200 with interface 6;
    gateway host 9 with interface 8. *)
Definition topoRaw : PlatformRawData (vifptr:=nat) := {|
  serverToVmIDs := {[ "srv" := {[ 100 ]} ]};
  hostIDToVifs := {[ 1 := {[ 1%nat; 5%nat ]} ]};
  gatewayHostIDToVifs := {[ 9 := {[ 8%nat ]} ]};
  vmIDToVifs := {[ 100 := {[ 2%nat ]}; 200 := {[ 6%nat ]} ]};
  podNodeIDtoPodIDs := {[ 7 := {[ 8 ]} ]};
  podIDToVifs := {[ 8 := {[ 4%nat ]} ]};
  podNodeIDToVmID := {[ 7 := 100 ]};
  podNodeIDToVifs := {[ 7 := {[ 3%nat ]} ]};
  idToPodNode := {[ 7 := {| pn_ID := 7 |} ]};
  deviceVifs := [1; 2; 3; 4; 5; 6; 8]%nat
|}.

(** As [topoRaw], but VM 100 has no interface of its own in the snapshot,
    and interface 4 of pod 8 is also attached to VM 200. *)
Definition bareVmRaw : PlatformRawData (vifptr:=nat) := {|
  serverToVmIDs := {[ "srv" := {[ 100 ]} ]};
  hostIDToVifs := ∅;
  gatewayHostIDToVifs := ∅;
  vmIDToVifs := {[ 200 := {[ 4%nat ]} ]};
  podNodeIDtoPodIDs := {[ 7 := {[ 8 ]} ]};
  podIDToVifs := {[ 8 := {[ 4%nat ]} ]};
  podNodeIDToVmID := {[ 7 := 100 ]};
  podNodeIDToVifs := {[ 7 := {[ 3%nat ]} ]};
  idToPodNode := {[ 7 := {| pn_ID := 7 |} ]};
  deviceVifs := [3; 4]%nat
|}.

(** Host 1 with interface 7, whose network id does not fit 32 bits. *)
Definition wideRaw : PlatformRawData (vifptr:=nat) := {|
  serverToVmIDs := ∅;
  hostIDToVifs := {[ 1 := {[ 7%nat ]} ]};
  gatewayHostIDToVifs := ∅;
  vmIDToVifs := ∅; podNodeIDtoPodIDs := ∅; podIDToVifs := ∅;
  podNodeIDToVmID := ∅; podNodeIDToVifs := ∅; idToPodNode := ∅;
  deviceVifs := [7]%nat
|}.

(** The scenario of the specification: host 1 with interface 1; VM 100 on
    launch server "h1" with interface 2; pod-node 7 owned by VM 100 with
    interface 3; pod 8 on pod-node 7 with interface 4. *)
Definition specRaw : PlatformRawData (vifptr:=nat) := {|
  serverToVmIDs := {[ "h1" := {[ 100 ]} ]};
  hostIDToVifs := {[ 1 := {[ 1%nat ]} ]};
  gatewayHostIDToVifs := ∅;
  vmIDToVifs := {[ 100 := {[ 2%nat ]} ]};
  podNodeIDtoPodIDs := {[ 7 := {[ 8 ]} ]};
  podIDToVifs := {[ 8 := {[ 4%nat ]} ]};
  podNodeIDToVmID := {[ 7 := 100 ]};
  podNodeIDToVifs := {[ 7 := {[ 3%nat ]} ]};
  idToPodNode := {[ 7 := {| pn_ID := 7 |} ]};
  deviceVifs := [1; 2; 3; 4]%nat
|}.

(** Host 1 with the MAC-less interface 5 only. *)
Definition macLessRaw : PlatformRawData (vifptr:=nat) := {|
  serverToVmIDs := ∅;
  hostIDToVifs := {[ 1 := {[ 5%nat ]} ]};
  gatewayHostIDToVifs := ∅;
  vmIDToVifs := ∅; podNodeIDtoPodIDs := ∅; podIDToVifs := ∅;
  podNodeIDToVmID := ∅; podNodeIDToVifs := ∅; idToPodNode := ∅;
  deviceVifs := [5]%nat
|}.

(** A freshly built engine with the used set cleared. *)
Definition freshEngine (rawData : PlatformRawData (vifptr:=nat)) : Segment (vifptr:=nat) :=
  ClearVTapUsedVInterfaceIDs
    (generateBaseSegments (RO:=listed_order) sampleVif rawData newSegment).

(** * Facts *)

(** ** Iteration *)

Section Iteration.
Context {RO : RangeOrder}.

Lemma elem_of_range_order {A} (l : list A) (x : A) : x ∈ range_order l ↔ x ∈ l.
Proof. by rewrite range_order_perm. Qed.

Lemma range_order_nil {A} : range_order (@nil A) = [].
Proof. apply Permutation_nil_r, range_order_perm. Qed.

Lemma NoDup_fst_range_order `{Countable K} {V} (m : gmap K V) :
  NoDup (range_order (map_to_list m)).*1.
Proof. rewrite range_order_perm. apply NoDup_fst_map_to_list. Qed.

Lemma elem_of_range_order_map `{Countable K} {V} (m : gmap K V) k v :
  (k, v) ∈ range_order (map_to_list m) ↔ m !! k = Some v.
Proof. rewrite elem_of_range_order. apply elem_of_map_to_list. Qed.

Lemma elem_of_range_order_set `{Countable K} (X : gset K) k :
  k ∈ range_order (elements X) ↔ k ∈ X.
Proof. rewrite elem_of_range_order. apply elem_of_elements. Qed.

End Iteration.

(** A loop invariant for [foldl]: [P seen acc] relates the elements already
    visited to the accumulator. *)
Lemma foldl_invariant {A B} (P : list B → A → Prop) (f : A → B → A) (a : A) (l : list B) :
  P [] a →
  (∀ seen x acc, P seen acc → x ∈ l → P (seen ++ [x]) (f acc x)) →
  P l (foldl f a l).
Proof.
  intros Hinit Hstep.
  assert (∀ l', l' `prefix_of` l → P l' (foldl f a l')) as Hall; [|by apply Hall].
  induction l' as [|x l' IH] using rev_ind; [done|].
  intros [rest Hrest]. rewrite foldl_app. simpl. apply Hstep.
  - apply IH. exists ([x] ++ rest). by rewrite Hrest, <-(assoc_L (++)).
  - rewrite Hrest. set_solver.
Qed.

(** A loop that stores one value per key of a map computes the image of
    the map, whatever the order. *)
Lemma foldl_insert_lookup `{Countable K} {V W} (f : K → V → W)
    (l : list (K * V)) (t : gmap K W) (k : K) :
  NoDup l.*1 →
  foldl (λ t '(k, v), <[k := f k v]> t) t l !! k
  = match list_find (λ e, e.1 = k) l with
    | Some (_, e) => Some (f k e.2)
    | None => t !! k
    end.
Proof.
  revert t. induction l as [|[k' v'] l IH]; intros t Hnd; [done|].
  simpl. inversion_clear Hnd as [|?? Hk' Hnd']. rewrite IH by done.
  case_decide as Hk; simpl in Hk.
  - subst k'. destruct (list_find _ l) as [[i e]|] eqn:Hfind; simpl.
    + apply list_find_Some in Hfind as (Hi & He & _). exfalso. apply Hk'.
      rewrite <-He. apply list_elem_of_fmap. exists e. split; [done|].
      by eapply list_elem_of_lookup_2.
    + by rewrite lookup_insert_eq.
  - destruct (list_find _ l) as [[i e]|]; simpl; [done|].
    by rewrite lookup_insert_ne.
Qed.

Section IndexBuild.
Context {RO : RangeOrder}.

Lemma build_index_lookup `{Countable K} {V W} (f : K → V → W) (m : gmap K V) (k : K) :
  foldl (λ t '(k, v), <[k := f k v]> t) (∅ : gmap K W) (range_order (map_to_list m)) !! k
  = f k <$> m !! k.
Proof.
  rewrite foldl_insert_lookup by apply NoDup_fst_range_order.
  destruct (list_find _ _) as [[i [k' v]]|] eqn:Hfind; simpl.
  - apply list_find_Some in Hfind as (Hi & He & _). simpl in He. subst k'.
    apply list_elem_of_lookup_2, elem_of_range_order_map in Hi. by rewrite Hi.
  - rewrite lookup_empty. destruct (m !! k) as [v|] eqn:Hm; [|done].
    apply elem_of_range_order_map in Hm.
    eapply list_find_None, Forall_forall in Hfind; [|done]. done.
Qed.

End IndexBuild.

(** ** Queries *)

Section QueryFacts.
Context {vifptr : Type} `{Countable vifptr}.
Context (deref : vifptr → VInterface).
Context {RO : RangeOrder}.
Implicit Types (s : Segment (vifptr:=vifptr)) (n : NetworkMacs).

Lemma set_vtapUsed_same s :
  set_vtapUsedVInterfaceIDs (vtapUsedVInterfaceIDs s) s = s.
Proof. by destruct s. Qed.

Lemma set_vtapUsed_twice u u' s :
  set_vtapUsedVInterfaceIDs u (set_vtapUsedVInterfaceIDs u' s) = set_vtapUsedVInterfaceIDs u s.
Proof. done. Qed.

Lemma collectUsed_spec macIDs macs vifIDs used :
  collectUsed macIDs (macs, vifIDs, used)
  = (macs ++ (Mac <$> macIDs), vifIDs ++ ((λ m, uint32 (ID m)) <$> macIDs),
     list_to_set (ID <$> macIDs) ∪ used).
Proof.
  unfold collectUsed. revert macs vifIDs used.
  induction macIDs as [|m macIDs IH]; intros macs vifIDs used; simpl.
  - by rewrite !app_nil_r, (left_id_L ∅ (∪)).
  - rewrite IH, <-!(assoc_L (++)). simpl. f_equal. set_solver.
Qed.

Lemma collect_spec macIDs macs vifIDs :
  collect macIDs (macs, vifIDs)
  = (macs ++ (Mac <$> macIDs), vifIDs ++ ((λ m, uint32 (ID m)) <$> macIDs)).
Proof.
  unfold collect. revert macs vifIDs.
  induction macIDs as [|m macIDs IH]; intros macs vifIDs; simpl.
  - by rewrite !app_nil_r.
  - by rewrite IH, <-!(assoc_L (++)).
Qed.

Lemma elem_of_entries_ids (es : list (Z * list MacID)) (x : Z) :
  x ∈ (list_to_set (ID <$> mjoin es.*2) : gset Z)
  ↔ ∃ e m, e ∈ es ∧ m ∈ e.2 ∧ ID m = x.
Proof.
  rewrite elem_of_list_to_set, list_elem_of_fmap. split.
  - intros (m & -> & Hm). apply list_elem_of_join in Hm as (l & Hm & Hl).
    apply list_elem_of_fmap in Hl as (e & -> & He). eauto.
  - intros (e & m & He & Hm & <-). exists m. split; [done|].
    apply list_elem_of_join. exists e.2. split; [done|].
    apply list_elem_of_fmap. eauto.
Qed.

Lemma elem_of_idsOf n (x : Z) :
  x ∈ idsOf n ↔ ∃ k l m, n !! k = Some l ∧ m ∈ l ∧ ID m = x.
Proof.
  unfold idsOf. rewrite elem_of_entries_ids. split.
  - intros ([k l] & m & He & Hm & Hx). apply elem_of_map_to_list in He.
    simpl in Hm. eauto 10.
  - intros (k & l & m & Hk & Hm & Hx). exists (k, l), m.
    by rewrite elem_of_map_to_list.
Qed.

Lemma ids_range_order n :
  list_to_set (ID <$> mjoin (range_order (map_to_list n)).*2) = idsOf n.
Proof.
  apply set_eq. intros x. unfold idsOf. rewrite !elem_of_entries_ids.
  by setoid_rewrite elem_of_range_order.
Qed.

Lemma segmentsOf_fold (es : list (Z * list MacID)) segments s :
  foldl (λ '(segments, s) '(networkID, macIDs),
           let '(macs, vifIDs, used) :=
             collectUsed macIDs ([], [], vtapUsedVInterfaceIDs s) in
           let segment :=
             {| seg_Id := uint32 networkID; seg_Mac := macs; seg_InterfaceId := vifIDs |} in
           (segments ++ [segment], set_vtapUsedVInterfaceIDs used s))
        (segments, s) es
  = (segments ++ (segmentOfEntry <$> es),
     set_vtapUsedVInterfaceIDs
       (list_to_set (ID <$> mjoin es.*2) ∪ vtapUsedVInterfaceIDs s) s).
Proof.
  revert segments s. induction es as [|[k l] es IH]; intros segments s; simpl.
  - by rewrite app_nil_r, (left_id_L ∅ (∪)), set_vtapUsed_same.
  - rewrite collectUsed_spec. simpl. rewrite IH, <-(assoc_L (++)). simpl.
    rewrite set_vtapUsed_twice. f_equal. f_equal.
    rewrite fmap_app, list_to_set_app_L. set_solver.
Qed.

(** What a per-entity lookup computes once the entry is found: one segment
    per entry of the [NetworkMacs], and every id of it added to the used
    set. *)
Lemma segmentsOf_spec n s :
  segmentsOf n s
  = (segmentOfEntry <$> range_order (map_to_list n),
     set_vtapUsedVInterfaceIDs (idsOf n ∪ vtapUsedVInterfaceIDs s) s).
Proof. unfold segmentsOf. by rewrite segmentsOf_fold, ids_range_order. Qed.

Lemma getSegmentsByID_spec (t : IDToNetworkMacs) id s :
  getSegmentsByID t id s
  = (segmentOfEntry <$> range_order (map_to_list (default ∅ (t !! id))),
     set_vtapUsedVInterfaceIDs (idsOfEntry (t !! id) ∪ vtapUsedVInterfaceIDs s) s).
Proof.
  unfold getSegmentsByID. destruct (t !! id) as [n|]; simpl.
  - apply segmentsOf_spec.
  - by rewrite map_to_list_empty, range_order_nil, (left_id_L ∅ (∪)), set_vtapUsed_same.
Qed.

Lemma getSegmentsByServer_spec (t : ServerToNetworkMacs) server s :
  getSegmentsByServer t server s
  = (segmentOfEntry <$> range_order (map_to_list (default ∅ (t !! server))),
     set_vtapUsedVInterfaceIDs (idsOfEntry (t !! server) ∪ vtapUsedVInterfaceIDs s) s).
Proof.
  unfold getSegmentsByServer. destruct (t !! server) as [n|]; simpl.
  - apply segmentsOf_spec.
  - by rewrite map_to_list_empty, range_order_nil, (left_id_L ∅ (∪)), set_vtapUsed_same.
Qed.

(** The MacIDs a combined query walks through for one index entry. *)
Lemma collectEntry_spec (o : option NetworkMacs) macs vifIDs used :
  collectEntry o (macs, vifIDs, used)
  = (macs ++ (Mac <$> walk (default ∅ o)),
     vifIDs ++ ((λ m, uint32 (ID m)) <$> walk (default ∅ o)),
     idsOfEntry o ∪ used).
Proof.
  unfold walk. destruct o as [n|]; simpl.
  - rewrite <-ids_range_order. generalize (range_order (map_to_list n)).
    intros es. revert macs vifIDs used.
    induction es as [|[k l] es IH]; intros macs vifIDs used; simpl.
    + by rewrite !app_nil_r, (left_id_L ∅ (∪)).
    + rewrite collectUsed_spec, IH, !fmap_app, <-!(assoc_L (++)).
      f_equal. rewrite list_to_set_app_L. set_solver.
  - by rewrite map_to_list_empty, range_order_nil, !app_nil_r, (left_id_L ∅ (∪)).
Qed.

(** The combined query: one segment with the fixed id over the entry of the
    launch server followed by the entry of the host. *)
Lemma GetTypeVMSegments_spec launchServer hostID s :
  GetTypeVMSegments launchServer hostID s
  = ([ fixedSegment
         (walk (default ∅ (launchServerToSegments s !! launchServer))
          ++ walk (default ∅ (hostIDToSegments s !! hostID))) ],
     set_vtapUsedVInterfaceIDs
       (claimedBy (CallGetTypeVMSegments launchServer hostID) s
        ∪ vtapUsedVInterfaceIDs s) s).
Proof.
  unfold GetTypeVMSegments, fixedSegment. rewrite collectEntry_spec. simpl.
  rewrite collectEntry_spec. simpl. rewrite !fmap_app.
  f_equal. f_equal. set_solver.
Qed.

Lemma noVTapUsed_fold (used : gset Z) (l : list vifptr) macs vifIDs :
  foldl (λ '(macs, vifIDs) vif,
           if decide (vif_ID (deref vif) ∈ used)
           then (macs, vifIDs)
           else (macs ++ [vif_Mac (deref vif)], vifIDs ++ [uint32 (vif_ID (deref vif))]))
        (macs, vifIDs) l
  = let rest := filter (λ p, vif_ID (deref p) ∉ used) l in
    (macs ++ ((λ p, vif_Mac (deref p)) <$> rest),
     vifIDs ++ ((λ p, uint32 (vif_ID (deref p))) <$> rest)).
Proof.
  revert macs vifIDs. induction l as [|p l IH]; intros macs vifIDs; simpl.
  - by rewrite !app_nil_r.
  - rewrite filter_cons. destruct (decide (vif_ID (deref p) ∈ used)) as [Hin|Hout].
    + rewrite decide_False by (intros Hn; by apply Hn). apply IH.
    + rewrite decide_True by done. rewrite IH. simpl. by rewrite <-!(assoc_L (++)).
Qed.

(** The catch-all pass: the interfaces of the device list outside the used
    set, as one segment, or no segment when there is none. *)
Lemma GenerateNoVTapUsedSegments_spec rawData s :
  GenerateNoVTapUsedSegments deref rawData s
  = set_notVtapUsedSegments
      (catchAll deref (unclaimed deref rawData (vtapUsedVInterfaceIDs s))) s.
Proof.
  unfold GenerateNoVTapUsedSegments, unclaimed. rewrite noVTapUsed_fold. simpl.
  by destruct (filter _ _) as [|p rest].
Qed.

End QueryFacts.

(** ** Grouping by network *)

Section GroupFacts.
Context {vifptr : Type} `{Countable vifptr}.
Context (deref : vifptr → VInterface).
Context {RO : RangeOrder}.
Implicit Types (n : NetworkMacs) (v : VInterface) (m : MacID).

Lemma NetworkMacs_get_empty k : NetworkMacs_get ∅ k = [].
Proof. unfold NetworkMacs_get. by rewrite lookup_empty. Qed.

Lemma elem_of_NetworkMacs_get n k m :
  m ∈ NetworkMacs_get n k ↔ ∃ l, n !! k = Some l ∧ m ∈ l.
Proof.
  unfold NetworkMacs_get. destruct (n !! k) as [l|]; simpl.
  - naive_solver.
  - split; [by intros ?%elem_of_nil|naive_solver].
Qed.

Lemma NetworkMacs_add_get v n k :
  NetworkMacs_get (NetworkMacs_add v n) k
  = NetworkMacs_get n k
    ++ (if decide (vif_Mac v ≠ "" ∧ vif_NetworkID v = k) then [newMacID v] else []).
Proof.
  unfold NetworkMacs_add, NetworkMacs_get.
  destruct (decide (vif_Mac v = "")) as [Hmac|Hmac].
  { rewrite decide_False by naive_solver. by rewrite app_nil_r. }
  destruct (decide (vif_NetworkID v = k)) as [<-|Hk].
  - rewrite decide_True by done.
    destruct (n !! vif_NetworkID v) as [l|] eqn:Hl; by rewrite lookup_insert_eq.
  - rewrite decide_False by naive_solver. rewrite app_nil_r.
    destruct (n !! vif_NetworkID v); by rewrite lookup_insert_ne.
Qed.

Lemma NetworkMacs_add_elem v n k m :
  m ∈ NetworkMacs_get (NetworkMacs_add v n) k
  ↔ m ∈ NetworkMacs_get n k
    ∨ (vif_Mac v ≠ "" ∧ vif_NetworkID v = k ∧ m = newMacID v).
Proof.
  rewrite NetworkMacs_add_get, elem_of_app. case_decide.
  - rewrite list_elem_of_singleton. naive_solver.
  - rewrite elem_of_nil. naive_solver.
Qed.

Lemma holds_empty : holds deref ∅ (λ _, False).
Proof. intros k m. rewrite NetworkMacs_get_empty, elem_of_nil. naive_solver. Qed.

Lemma holds_iff n (S S' : vifptr → Prop) :
  (∀ p, S p ↔ S' p) → holds deref n S → holds deref n S'.
Proof. intros HS Hn k m. rewrite (Hn k m). naive_solver. Qed.

Lemma holds_addVifs vifs n (S : vifptr → Prop) :
  holds deref n S → holds deref (addVifs deref vifs n) (λ p, S p ∨ p ∈ vifs).
Proof.
  intros Hn. unfold addVifs.
  cut (holds deref
         (foldl (λ n vif, NetworkMacs_add (deref vif) n) n (range_order (elements vifs)))
         (λ p, S p ∨ p ∈ range_order (elements vifs))).
  { apply holds_iff. intros p. by rewrite elem_of_range_order_set. }
  apply (foldl_invariant (λ seen acc, holds deref acc (λ p, S p ∨ p ∈ seen))).
  - eapply holds_iff; [|done]. intros p. rewrite elem_of_nil. naive_solver.
  - intros seen p acc Hacc _ k m. rewrite NetworkMacs_add_elem, (Hacc k m).
    setoid_rewrite elem_of_app. setoid_rewrite list_elem_of_singleton.
    split.
    + intros [(p0 & [?|?] & ?)|?]; [exists p0|exists p0|exists p]; naive_solver.
    + intros (p0 & [?|[?| ->]] & ?); [left; exists p0|left; exists p0|right];
        naive_solver.
Qed.

Lemma addVifs_empty n : addVifs deref ∅ n = n.
Proof. unfold addVifs. by rewrite elements_empty, range_order_nil. Qed.

Lemma addVifsOf_vifsAt (t : gmap Z (gset vifptr)) id n :
  addVifsOf deref t id n = addVifs deref (vifsAt t id) n.
Proof.
  unfold addVifsOf, vifsAt. destruct (t !! id); simpl; [done|].
  by rewrite addVifs_empty.
Qed.

Lemma holds_addVifsOf (t : gmap Z (gset vifptr)) id n (S : vifptr → Prop) :
  holds deref n S → holds deref (addVifsOf deref t id n) (λ p, S p ∨ p ∈ vifsAt t id).
Proof. rewrite addVifsOf_vifsAt. apply holds_addVifs. Qed.

(** An interface held by [n] holds a MAC. *)
Lemma holds_noEmptyMac n (S : vifptr → Prop) : holds deref n S → noEmptyMac n.
Proof.
  intros Hn k l m Hk Hm.
  assert (m ∈ NetworkMacs_get n k) as Hin by (apply elem_of_NetworkMacs_get; eauto).
  apply Hn in Hin as (p & _ & Hmac & _ & ->). done.
Qed.

End GroupFacts.

(** ** Transitive closure *)

Section ClosureFacts.
Context {vifptr : Type} `{Countable vifptr}.
Context {RO : RangeOrder}.
Implicit Types (t : gmap Z (gset vifptr)) (rawData : PlatformRawData (vifptr:=vifptr)).
Implicit Types (s : Segment (vifptr:=vifptr)).

Lemma set_union_fold (old : gset vifptr) (l : list vifptr) :
  foldl (λ acc vif, {[vif]} ∪ acc) old l = list_to_set l ∪ old.
Proof.
  revert old. induction l as [|p l IH]; intros old; simpl.
  - by rewrite (left_id_L ∅ (∪)).
  - rewrite IH. set_solver.
Qed.

Lemma vifsAt_insert t id (X : gset vifptr) k :
  vifsAt (<[id := X]> t) k = if decide (k = id) then X else vifsAt t k.
Proof.
  unfold vifsAt. case_decide as Hk.
  - subst. by rewrite lookup_insert_eq.
  - by rewrite lookup_insert_ne.
Qed.

(** [IDToVifs.add] is a union into the entry: it never overwrites. *)
Lemma IDToVifs_add_elem id vifs t k p :
  p ∈ vifsAt (IDToVifs_add id vifs t) k ↔ p ∈ vifsAt t k ∨ (k = id ∧ p ∈ vifs).
Proof.
  unfold IDToVifs_add. destruct (t !! id) as [old|] eqn:Hid.
  - rewrite vifsAt_insert, set_union_fold. case_decide as Hk.
    + subst k. unfold vifsAt. rewrite Hid. simpl.
      rewrite elem_of_union, elem_of_list_to_set, elem_of_range_order_set.
      naive_solver.
    + naive_solver.
  - rewrite vifsAt_insert. case_decide as Hk.
    + subst k. unfold vifsAt. rewrite Hid. simpl. set_solver.
    + naive_solver.
Qed.

Lemma IDToVifs_add_is_Some id vifs t k :
  is_Some (IDToVifs_add id vifs t !! k) ↔ is_Some (t !! k) ∨ k = id.
Proof.
  unfold IDToVifs_add. destruct (t !! id) as [old|] eqn:Hid.
  - rewrite lookup_insert_is_Some. destruct (decide (id = k)) as [<-|]; naive_solver.
  - rewrite lookup_insert_is_Some. destruct (decide (id = k)) as [<-|]; naive_solver.
Qed.

Lemma elem_of_vifsAt t k p : p ∈ vifsAt t k ↔ ∃ X, t !! k = Some X ∧ p ∈ X.
Proof.
  unfold vifsAt. destruct (t !! k); simpl; [naive_solver|].
  split; [set_solver|naive_solver].
Qed.

Lemma onPodNode_parts rawData n p :
  onPodNode rawData n p ↔ podNodeParts rawData n (λ vifs, p ∈ vifs).
Proof.
  unfold onPodNode, podNodeParts. rewrite elem_of_vifsAt.
  setoid_rewrite elem_of_vifsAt. naive_solver.
Qed.

(** The two loops of [convertDBInfo], for any observation [seen] of a
    closure map that an [add] changes at its key only, and there by the
    [part] of the set added: membership of a given interface, or the mere
    presence of the key. *)
Section Observed.
Context (seen : gmap Z (gset vifptr) → Z → Prop) (part : gset vifptr → Prop).
Hypothesis seen_empty : ∀ k, ¬ seen ∅ k.
Hypothesis seen_add : ∀ id vifs t k,
  seen (IDToVifs_add id vifs t) k ↔ seen t k ∨ (k = id ∧ part vifs).

Lemma podNodeStep_seen rawData (all : gmap Z (gset vifptr)) id n :
  seen
    (match podNodeIDtoPodIDs rawData !! id with
     | Some podIDs =>
         foldl (λ (all : gmap Z (gset vifptr)) pod,
                  match podIDToVifs rawData !! pod with
                  | Some vifs => IDToVifs_add id vifs all
                  | None => all
                  end)
               (match podNodeIDToVifs rawData !! id with
                | Some vifs => IDToVifs_add id vifs all
                | None => all
                end)
               (range_order (elements podIDs))
     | None =>
         match podNodeIDToVifs rawData !! id with
         | Some vifs => IDToVifs_add id vifs all
         | None => all
         end
     end) n
  ↔ seen all n ∨ (n = id ∧ podNodeParts rawData n part).
Proof using seen_add.
  assert (seen (match podNodeIDToVifs rawData !! id with
                | Some vifs => IDToVifs_add id vifs all
                | None => all
                end) n
          ↔ seen all n
            ∨ (n = id ∧ ∃ vifs, podNodeIDToVifs rawData !! n = Some vifs ∧ part vifs))
    as Hown.
  { destruct (podNodeIDToVifs rawData !! id) as [vifs|] eqn:Hvifs.
    - rewrite seen_add. split.
      + intros [?|[-> ?]]; eauto.
      + intros [?|[-> (vifs' & Hv & ?)]]; [eauto|]. right. split; [done|]. congruence.
    - split; [eauto|]. intros [?|[-> (vifs' & Hv & ?)]]; [done|congruence]. }
  unfold podNodeParts. destruct (podNodeIDtoPodIDs rawData !! id) as [podIDs|] eqn:Hpods.
  - cut (seen
           (foldl (λ (all : gmap Z (gset vifptr)) pod,
                     match podIDToVifs rawData !! pod with
                     | Some vifs => IDToVifs_add id vifs all
                     | None => all
                     end)
                  (match podNodeIDToVifs rawData !! id with
                   | Some vifs => IDToVifs_add id vifs all
                   | None => all
                   end)
                  (range_order (elements podIDs))) n
         ↔ (seen all n
            ∨ (n = id ∧ ∃ vifs, podNodeIDToVifs rawData !! n = Some vifs ∧ part vifs))
           ∨ (n = id ∧ ∃ pod vifs, pod ∈ range_order (elements podIDs)
                                   ∧ podIDToVifs rawData !! pod = Some vifs
                                   ∧ part vifs)).
    { intros ->. setoid_rewrite elem_of_range_order_set. split.
      - intros [[?|[-> ?]]|[-> (pod & vifs & ? & ? & ?)]]; [eauto|eauto|].
        right. split; [done|]. right. exists podIDs, pod, vifs. eauto.
      - intros [?|[-> [?|(podIDs' & pod & vifs & ? & ? & ? & ?)]]]; [eauto|eauto|].
        right. split; [done|]. exists pod, vifs. split; [congruence|done]. }
    rewrite <-Hown.
    apply (foldl_invariant (λ visited acc,
             seen acc n
             ↔ seen (match podNodeIDToVifs rawData !! id with
                     | Some vifs => IDToVifs_add id vifs all
                     | None => all
                     end) n
               ∨ (n = id ∧ ∃ pod vifs, pod ∈ visited
                                       ∧ podIDToVifs rawData !! pod = Some vifs
                                       ∧ part vifs))).
    + split; [eauto|]. intros [?|[_ (pod & vifs & Hpod & _)]]; [done|].
      by apply elem_of_nil in Hpod.
    + intros visited pod acc Hacc _.
      setoid_rewrite elem_of_app. setoid_rewrite list_elem_of_singleton.
      destruct (podIDToVifs rawData !! pod) as [vifs|] eqn:Hvifs.
      * rewrite seen_add, Hacc. split.
        -- intros [[?|[-> (pod' & vifs' & ? & ? & ?)]]|[-> ?]]; [eauto|..].
           ++ right. split; [done|]. exists pod', vifs'. eauto.
           ++ right. split; [done|]. exists pod, vifs. eauto.
        -- intros [?|[-> (pod' & vifs' & [?| ->] & Hp & ?)]]; [eauto|..].
           ++ left. right. split; [done|]. eauto.
           ++ right. split; [done|]. congruence.
      * rewrite Hacc. split.
        -- intros [?|[-> (pod' & vifs' & ? & ? & ?)]]; [eauto|].
           right. split; [done|]. exists pod', vifs'. eauto.
        -- intros [?|[-> (pod' & vifs' & [?| ->] & Hp & ?)]]; [eauto|..].
           ++ right. split; [done|]. eauto.
           ++ congruence.
  - rewrite Hown. split.
    + intros [?|[-> ?]]; eauto.
    + intros [?|[-> [?|(podIDs' & pod & vifs & ? & _)]]]; [eauto|eauto|congruence].
Qed.

Lemma podNodeIDToAllVifs_seen rawData s n :
  seen (podNodeIDToAllVifs (convertDBInfo rawData s)) n
  ↔ isPodNode rawData n ∧ podNodeParts rawData n part.
Proof using seen_empty seen_add.
  unfold convertDBInfo. simpl.
  cut (∀ l (all : gmap Z (gset vifptr)),
         all = foldl (λ (all : gmap Z (gset vifptr)) '(_, podnode),
               let podnodeID := pn_ID podnode in
               let all :=
                 match podNodeIDToVifs rawData !! podnodeID with
                 | Some vifs => IDToVifs_add podnodeID vifs all
                 | None => all
                 end in
               match podNodeIDtoPodIDs rawData !! podnodeID with
               | Some podIDs =>
                   foldl (λ (all : gmap Z (gset vifptr)) id,
                            match podIDToVifs rawData !! id with
                            | Some vifs => IDToVifs_add podnodeID vifs all
                            | None => all
                            end)
                         all (range_order (elements podIDs))
               | None => all
               end) newIDToVifs l →
         seen all n
         ↔ (∃ e : Z * PodNode, e ∈ l ∧ pn_ID e.2 = n) ∧ podNodeParts rawData n part).
  { intros Hcut. rewrite (Hcut _ _ eq_refl). unfold isPodNode. split.
    - intros [([k pn] & He & Hn) ?]. apply elem_of_range_order_map in He. eauto.
    - intros [(k & pn & He & Hn) ?]. split; [|done]. exists (k, pn).
      by rewrite elem_of_range_order_map. }
  intros l all ->.
  apply (foldl_invariant (λ visited acc,
           seen acc n
           ↔ (∃ e : Z * PodNode, e ∈ visited ∧ pn_ID e.2 = n)
             ∧ podNodeParts rawData n part)).
  - split; [by intros ?%seen_empty|].
    intros [(e & He & _) _]. by apply elem_of_nil in He.
  - intros visited [k pn] acc Hacc _. cbv zeta.
    etrans; [apply podNodeStep_seen|]. rewrite Hacc.
    setoid_rewrite elem_of_app. setoid_rewrite list_elem_of_singleton. split.
    + intros [[(e & ? & ?) ?]|[-> ?]]; [eauto|]. split; [|done].
      exists (k, pn). eauto.
    + intros [(e & [?| ->] & <-) ?]; [left|right]; eauto.
Qed.

(** The second loop of [convertDBInfo], over any pod-node closure. *)
Lemma vmClosure_seen rawData (podAll : gmap Z (gset vifptr)) vm :
  seen
    (foldl (λ (vmAll : gmap Z (gset vifptr)) '(podnodeID, vmID),
              match podAll !! podnodeID with
              | Some allVifs => IDToVifs_add vmID allVifs vmAll
              | None => vmAll
              end)
           newIDToVifs (range_order (map_to_list (podNodeIDToVmID rawData)))) vm
  ↔ ∃ n allVifs, podNodeIDToVmID rawData !! n = Some vm
                 ∧ podAll !! n = Some allVifs ∧ part allVifs.
Proof using seen_empty seen_add.
  setoid_rewrite <-(elem_of_range_order_map (podNodeIDToVmID rawData)).
  apply (foldl_invariant (λ visited acc,
           seen acc vm
           ↔ ∃ n allVifs, (n, vm) ∈ visited ∧ podAll !! n = Some allVifs
                          ∧ part allVifs)).
  - split; [by intros ?%seen_empty|].
    intros (n & allVifs & Hn & _). by apply elem_of_nil in Hn.
  - intros visited [n vm'] acc Hacc _.
    setoid_rewrite elem_of_app. setoid_rewrite list_elem_of_singleton.
    destruct (podAll !! n) as [allVifs|] eqn:Hn.
    + rewrite seen_add, Hacc. split.
      * intros [(n' & X & ? & ? & ?)|[-> ?]]; [eauto 10|]. exists n, allVifs. eauto.
      * intros (n' & X & [?|Heq] & Hp & ?); [eauto 10|]. injection Heq as -> ->.
        right. split; [done|]. congruence.
    + rewrite Hacc. split.
      * intros (n' & X & ? & ? & ?); eauto 10.
      * intros (n' & X & [?|Heq] & Hp & ?); [eauto 10|]. injection Heq as -> ->.
        congruence.
Qed.

End Observed.

(** The pod-node closure computed by [convertDBInfo]. *)
Lemma podNodeIDToAllVifs_spec rawData s n p :
  p ∈ vifsAt (podNodeIDToAllVifs (convertDBInfo rawData s)) n
  ↔ isPodNode rawData n ∧ onPodNode rawData n p.
Proof.
  rewrite onPodNode_parts.
  apply (podNodeIDToAllVifs_seen (λ t k, p ∈ vifsAt t k) (λ vifs, p ∈ vifs)).
  - intros k. unfold vifsAt. rewrite lookup_empty. set_solver.
  - intros id vifs t k. apply IDToVifs_add_elem.
Qed.

(** Its keys. *)
Lemma podNodeIDToAllVifs_is_Some rawData s n :
  is_Some (podNodeIDToAllVifs (convertDBInfo rawData s) !! n)
  ↔ isPodNode rawData n ∧ podNodeParts rawData n (λ _, True).
Proof.
  apply (podNodeIDToAllVifs_seen (λ t k, is_Some (t !! k)) (λ _, True)).
  - intros k. rewrite lookup_empty. by intros [? ?].
  - intros id vifs t k. rewrite IDToVifs_add_is_Some. naive_solver.
Qed.

(** The VM closure computed by [convertDBInfo]: the union of the closures
    of the pod-nodes the VM owns. *)
Lemma vmIDToPodNodeAllVifs_spec rawData s vm p :
  p ∈ vifsAt (vmIDToPodNodeAllVifs (convertDBInfo rawData s)) vm
  ↔ ∃ n, podNodeIDToVmID rawData !! n = Some vm ∧ isPodNode rawData n
         ∧ onPodNode rawData n p.
Proof.
  assert (∀ k, p ∉ vifsAt (∅ : gmap Z (gset vifptr)) k) as Hempty.
  { intros k. unfold vifsAt. rewrite lookup_empty. set_solver. }
  etrans.
  { apply (vmClosure_seen (λ t k, p ∈ vifsAt t k) (λ vifs, p ∈ vifs) Hempty
             (λ id vifs t k, IDToVifs_add_elem id vifs t k p)
             rawData (podNodeIDToAllVifs (convertDBInfo rawData s))). }
  setoid_rewrite <-(podNodeIDToAllVifs_spec rawData s).
  setoid_rewrite elem_of_vifsAt. naive_solver.
Qed.

(** Its keys. *)
Lemma vmIDToPodNodeAllVifs_is_Some rawData s vm :
  is_Some (vmIDToPodNodeAllVifs (convertDBInfo rawData s) !! vm)
  ↔ ∃ n, podNodeIDToVmID rawData !! n = Some vm ∧ isPodNode rawData n
         ∧ podNodeParts rawData n (λ _, True).
Proof.
  assert (∀ k, ¬ is_Some ((∅ : gmap Z (gset vifptr)) !! k)) as Hempty.
  { intros k. rewrite lookup_empty. by intros [? ?]. }
  assert (∀ id vifs t k,
            is_Some (IDToVifs_add id vifs t !! k) ↔ is_Some (t !! k) ∨ (k = id ∧ True))
    as Hadd.
  { intros id vifs t k. rewrite IDToVifs_add_is_Some. naive_solver. }
  etrans.
  { apply (vmClosure_seen (λ t k, is_Some (t !! k)) (λ _, True) Hempty Hadd
             rawData (podNodeIDToAllVifs (convertDBInfo rawData s))). }
  setoid_rewrite <-(podNodeIDToAllVifs_is_Some rawData s).
  unfold is_Some. naive_solver.
Qed.

End ClosureFacts.

(** ** The build pass *)

Section BuildFacts.
Context {vifptr : Type} `{Countable vifptr}.
Context (deref : vifptr → VInterface).
Context {RO : RangeOrder}.
Implicit Types (rawData : PlatformRawData (vifptr:=vifptr)).
Implicit Types (s : Segment (vifptr:=vifptr)) (n : NetworkMacs).

Lemma hostIDToSegments_build rawData s h :
  hostIDToSegments (generateBaseSegments deref rawData s) !! h
  = (λ vifs, addVifs deref vifs newNetworkMacs) <$> hostIDToVifs rawData !! h.
Proof. apply (build_index_lookup (λ _ vifs, addVifs deref vifs newNetworkMacs)). Qed.

Lemma gatewayHostIDToSegments_build rawData s h :
  gatewayHostIDToSegments (generateBaseSegments deref rawData s) !! h
  = (λ vifs, addVifs deref vifs newNetworkMacs) <$> gatewayHostIDToVifs rawData !! h.
Proof. apply (build_index_lookup (λ _ vifs, addVifs deref vifs newNetworkMacs)). Qed.

Lemma vmIDToSegments_build rawData s vm :
  vmIDToSegments (generateBaseSegments deref rawData s) !! vm
  = (λ vifs, addVifsOf deref (vmIDToPodNodeAllVifs (convertDBInfo rawData s)) vm
               (addVifs deref vifs newNetworkMacs))
    <$> vmIDToVifs rawData !! vm.
Proof.
  apply (build_index_lookup
           (λ vm vifs, addVifsOf deref (vmIDToPodNodeAllVifs (convertDBInfo rawData s)) vm
                         (addVifs deref vifs newNetworkMacs))).
Qed.

Lemma podNodeIDToSegments_build rawData s k :
  podNodeIDToSegments (generateBaseSegments deref rawData s) !! k
  = (λ vifs, addVifs deref vifs newNetworkMacs)
    <$> podNodeIDToAllVifs (convertDBInfo rawData s) !! k.
Proof. apply (build_index_lookup (λ _ vifs, addVifs deref vifs newNetworkMacs)). Qed.

Lemma launchServerToSegments_build rawData s server :
  launchServerToSegments (generateBaseSegments deref rawData s) !! server
  = (λ vmids,
       foldl (λ n id,
                addVifsOf deref (vmIDToPodNodeAllVifs (convertDBInfo rawData s)) id
                  (addVifsOf deref (vmIDToVifs rawData) id n))
             newNetworkMacs (range_order (elements vmids)))
    <$> serverToVmIDs rawData !! server.
Proof.
  apply (build_index_lookup
           (λ (_ : string) (vmids : gset Z),
              foldl (λ n id,
                       addVifsOf deref (vmIDToPodNodeAllVifs (convertDBInfo rawData s)) id
                         (addVifsOf deref (vmIDToVifs rawData) id n))
                    newNetworkMacs (range_order (elements vmids)))).
Qed.

(** What each index holds after a build, in terms of the snapshot. *)
Lemma host_holds rawData s h n :
  hostIDToSegments (generateBaseSegments deref rawData s) !! h = Some n →
  holds deref n (λ p, p ∈ vifsAt (hostIDToVifs rawData) h).
Proof.
  rewrite hostIDToSegments_build, fmap_Some. intros (vifs & Hh & ->).
  eapply holds_iff; [|apply holds_addVifs, holds_empty].
  intros p. unfold vifsAt. rewrite Hh. naive_solver.
Qed.

Lemma gateway_holds rawData s h n :
  gatewayHostIDToSegments (generateBaseSegments deref rawData s) !! h = Some n →
  holds deref n (λ p, p ∈ vifsAt (gatewayHostIDToVifs rawData) h).
Proof.
  rewrite gatewayHostIDToSegments_build, fmap_Some. intros (vifs & Hh & ->).
  eapply holds_iff; [|apply holds_addVifs, holds_empty].
  intros p. unfold vifsAt. rewrite Hh. naive_solver.
Qed.

Lemma vm_holds rawData s vm n :
  vmIDToSegments (generateBaseSegments deref rawData s) !! vm = Some n →
  holds deref n (onVM rawData vm).
Proof.
  rewrite vmIDToSegments_build, fmap_Some. intros (vifs & Hvm & ->).
  eapply holds_iff; [|apply holds_addVifsOf, holds_addVifs, holds_empty].
  intros p. cbv beta. unfold onVM. rewrite vmIDToPodNodeAllVifs_spec.
  unfold vifsAt at 1. rewrite Hvm. naive_solver.
Qed.

Lemma podNode_holds rawData s k n :
  podNodeIDToSegments (generateBaseSegments deref rawData s) !! k = Some n →
  holds deref n (λ p, isPodNode rawData k ∧ onPodNode rawData k p).
Proof.
  rewrite podNodeIDToSegments_build, fmap_Some. intros (vifs & Hk & ->).
  eapply holds_iff; [|apply holds_addVifs, holds_empty].
  intros p. cbv beta. rewrite <-(podNodeIDToAllVifs_spec rawData s).
  unfold vifsAt. rewrite Hk. naive_solver.
Qed.

Lemma launchServer_holds rawData s server n :
  launchServerToSegments (generateBaseSegments deref rawData s) !! server = Some n →
  holds deref n (λ p, ∃ vmids vm, serverToVmIDs rawData !! server = Some vmids
                                  ∧ vm ∈ vmids ∧ onVM rawData vm p).
Proof.
  rewrite launchServerToSegments_build, fmap_Some. intros (vmids & Hsrv & ->).
  cut (holds deref
         (foldl (λ n id,
                   addVifsOf deref (vmIDToPodNodeAllVifs (convertDBInfo rawData s)) id
                     (addVifsOf deref (vmIDToVifs rawData) id n))
                newNetworkMacs (range_order (elements vmids)))
         (λ p, ∃ vm, vm ∈ range_order (elements vmids) ∧ onVM rawData vm p)).
  { apply holds_iff. intros p. setoid_rewrite elem_of_range_order_set.
    rewrite Hsrv.
    split; [intros (vm & ? & ?); eauto|intros (? & vm & [= <-] & ? & ?); eauto]. }
  apply (foldl_invariant (λ seen acc,
           holds deref acc (λ p, ∃ vm, vm ∈ seen ∧ onVM rawData vm p))).
  - eapply holds_iff; [|apply holds_empty]. intros p. split; [done|].
    intros (vm & Hvm & _). by apply elem_of_nil in Hvm.
  - intros seen vm acc Hacc _.
    eapply holds_iff; [|apply holds_addVifsOf, holds_addVifsOf, Hacc].
    intros p. cbv beta. unfold onVM. rewrite vmIDToPodNodeAllVifs_spec.
    setoid_rewrite elem_of_app. setoid_rewrite list_elem_of_singleton. split.
    + intros [[(vm' & ? & ?)|?]|?]; [exists vm'|exists vm|exists vm]; eauto.
    + intros (vm' & [?| ->] & [?|?]); eauto 10.
Qed.

(** The flattening of the gateway index. *)
Lemma gatewayInner_fold (es : list (Z * list MacID)) segments :
  foldl (λ segments '(_, macIDs),
           let '(macs, vifIDs) := collect macIDs ([], []) in
           segments ++
             [ {| seg_Id := uint32 1; seg_Mac := macs; seg_InterfaceId := vifIDs |} ])
        segments es
  = segments ++ (fixedSegment <$> es.*2).
Proof.
  revert segments. induction es as [|[k l] es IH]; intros segments; simpl.
  - by rewrite app_nil_r.
  - rewrite collect_spec. simpl. by rewrite IH, <-(assoc_L (++)).
Qed.

Lemma allGatewayHostSegments_spec s :
  allGatewayHostSegments (generateGatewayHostSegments s)
  = mjoin ((λ hostSegments, fixedSegment <$> (range_order (map_to_list hostSegments)).*2)
           <$> (range_order (map_to_list (gatewayHostIDToSegments s))).*2).
Proof.
  unfold generateGatewayHostSegments.
  cbn [allGatewayHostSegments set_allGatewayHostSegments].
  apply (foldl_invariant (λ seen acc,
           acc = mjoin ((λ hostSegments : NetworkMacs,
                           fixedSegment <$> (range_order (map_to_list hostSegments)).*2)
                        <$> seen.*2))).
  - done.
  - intros seen [h hostSegments] acc -> _.
    etrans; [apply gatewayInner_fold|].
    rewrite !fmap_app, join_app. simpl. by rewrite app_nil_r.
Qed.

Lemma elem_of_allGatewayHostSegments s seg :
  seg ∈ allGatewayHostSegments (generateGatewayHostSegments s)
  ↔ ∃ h n k l, gatewayHostIDToSegments s !! h = Some n ∧ n !! k = Some l
               ∧ seg = fixedSegment l.
Proof.
  rewrite allGatewayHostSegments_spec, list_elem_of_join. split.
  - intros (segs & Hseg & Hsegs).
    apply list_elem_of_fmap in Hsegs as (n & -> & Hn).
    apply list_elem_of_fmap in Hn as ([h n'] & -> & Hn).
    apply elem_of_range_order_map in Hn.
    apply list_elem_of_fmap in Hseg as (l & -> & Hl).
    apply list_elem_of_fmap in Hl as ([k l'] & -> & Hl).
    apply elem_of_range_order_map in Hl. simpl. eauto 10.
  - intros (h & n & k & l & Hh & Hk & ->).
    exists (fixedSegment <$> (range_order (map_to_list n)).*2). split.
    + apply list_elem_of_fmap. exists l. split; [done|].
      apply list_elem_of_fmap. exists (k, l). by rewrite elem_of_range_order_map.
    + apply list_elem_of_fmap. exists n. split; [done|].
      apply list_elem_of_fmap. exists (h, n). by rewrite elem_of_range_order_map.
Qed.

End BuildFacts.

(** ** Calls and what they preserve *)

Section CallFacts.
Context {vifptr : Type} `{Countable vifptr}.
Context (deref : vifptr → VInterface).
Context {RO : RangeOrder}.
Implicit Types (rawData : PlatformRawData (vifptr:=vifptr)).
Implicit Types (s : Segment (vifptr:=vifptr)) (n : NetworkMacs).
Implicit Types (c : Call (vifptr:=vifptr)).

Lemma sameIndices_refl s : sameIndices s s.
Proof. by repeat split. Qed.

Lemma sameIndices_trans s1 s2 s3 :
  sameIndices s1 s2 → sameIndices s2 s3 → sameIndices s1 s3.
Proof.
  intros (?&?&?&?&?&?) (?&?&?&?&?&?). repeat split; by etrans.
Qed.

Lemma claimedBy_sameIndices c s s' :
  sameIndices s s' → claimedBy c s = claimedBy c s'.
Proof. intros (Hl&Hh&_&Hv&Hp&_). destruct c; simpl; congruence. Qed.

(** What every call other than a build does to the engine: it replaces
    the used set, or the catch-all cache, and nothing else. *)
Lemma call_entity_state c s :
  isEntityQuery c = true →
  (call deref c s).2
  = set_vtapUsedVInterfaceIDs (claimedBy c s ∪ vtapUsedVInterfaceIDs s) s.
Proof.
  destruct c; try done; intros _; simpl.
  - unfold GetLaunchServerSegments. by rewrite getSegmentsByServer_spec.
  - unfold GetVMIDSegments. by rewrite getSegmentsByID_spec.
  - unfold GetHostIDSegments. by rewrite getSegmentsByID_spec.
  - unfold GetPodNodeSegments. by rewrite getSegmentsByID_spec.
  - by rewrite GetTypeVMSegments_spec.
Qed.

Lemma call_perEntity_answer c s :
  isPerEntityQuery c = true →
  (call deref c s).1
  = segmentOfEntry <$> range_order (map_to_list (default ∅ (entryOf c s))).
Proof.
  destruct c; try done; intros _; simpl.
  - unfold GetLaunchServerSegments. by rewrite getSegmentsByServer_spec.
  - unfold GetVMIDSegments. by rewrite getSegmentsByID_spec.
  - unfold GetHostIDSegments. by rewrite getSegmentsByID_spec.
  - unfold GetPodNodeSegments. by rewrite getSegmentsByID_spec.
Qed.

Lemma call_sameIndices c s :
  (∀ rawData, c ≠ CallGenerateBaseSegments rawData) →
  sameIndices s (call deref c s).2.
Proof.
  intros Hc. destruct (isEntityQuery c) eqn:Hq.
  { rewrite call_entity_state by done. by repeat split. }
  destruct c; try done; try by repeat split.
  - by destruct (Hc rawData).
  - simpl. rewrite GenerateNoVTapUsedSegments_spec. by repeat split.
Qed.

Lemma run_app cs cs' s : run deref (cs ++ cs') s = run deref cs' (run deref cs s).
Proof. unfold run. by rewrite foldl_app. Qed.

Lemma run_snoc cs c s : run deref (cs ++ [c]) s = (call deref c (run deref cs s)).2.
Proof. by rewrite run_app. Qed.

(** A pass of entity queries adds to the used set exactly the ids held by
    the entries it resolves, and leaves the indices alone. *)
Lemma run_entity_queries (qs : list Call) s :
  Forall (λ c, isEntityQuery c = true) qs →
  sameIndices s (run deref qs s)
  ∧ vtapUsedVInterfaceIDs (run deref qs s)
    = ⋃ ((λ c, claimedBy c s) <$> qs) ∪ vtapUsedVInterfaceIDs s.
Proof.
  induction qs as [|c qs IH] using rev_ind; intros Hqs.
  - split; [apply sameIndices_refl|]. simpl. by rewrite (left_id_L ∅ (∪)).
  - apply Forall_app in Hqs as [Hqs Hc]. rewrite Forall_singleton in Hc.
    destruct (IH Hqs) as [Hsame Hused]. rewrite run_snoc. split.
    + eapply sameIndices_trans; [done|]. apply call_sameIndices.
      intros rawData ->. done.
    + rewrite call_entity_state by done. simpl. rewrite Hused.
      rewrite <-(claimedBy_sameIndices c _ _ Hsame).
      rewrite fmap_app, union_list_app_L. simpl. set_solver.
Qed.

End CallFacts.

(** ** What the answers contain *)

Section AnswerFacts.
Context {vifptr : Type} `{Countable vifptr}.
Context (deref : vifptr → VInterface).
Context {RO : RangeOrder}.
Implicit Types (rawData : PlatformRawData (vifptr:=vifptr)).
Implicit Types (s : Segment (vifptr:=vifptr)) (n : NetworkMacs).
Implicit Types (c : Call (vifptr:=vifptr)) (vif : VInterface).

Lemma zip_fmap_same {A B C} (f : A → B) (g : A → C) (l : list A) :
  zip (f <$> l) (g <$> l) = (λ x, (f x, g x)) <$> l.
Proof. induction l as [|x l IH]; simpl; [done|]. f_equal. exact IH. Qed.

Lemma pairsOf_segmentOfEntry (e : Z * list MacID) :
  pairsOf (segmentOfEntry e) = (λ m, (Mac m, uint32 (ID m))) <$> e.2.
Proof. apply zip_fmap_same. Qed.

Lemma elem_of_walk n m : m ∈ walk n ↔ ∃ k l, n !! k = Some l ∧ m ∈ l.
Proof.
  unfold walk. rewrite list_elem_of_join. split.
  - intros (l & Hm & Hl). apply list_elem_of_fmap in Hl as ([k l'] & -> & Hl).
    apply elem_of_range_order_map in Hl. eauto.
  - intros (k & l & Hk & Hm). exists l. split; [done|].
    apply list_elem_of_fmap. exists (k, l). by rewrite elem_of_range_order_map.
Qed.

(** A per-entity answer includes exactly the MacIDs of the entry. *)
Lemma includes_entries n vif :
  includes (segmentOfEntry <$> range_order (map_to_list n)) vif
  ↔ ∃ k m, m ∈ NetworkMacs_get n k ∧ (Mac m, uint32 (ID m)) = shown vif.
Proof.
  unfold includes. split.
  - intros (seg & Hseg & Hin). apply list_elem_of_fmap in Hseg as ([k l] & -> & Hkl).
    apply elem_of_range_order_map in Hkl. rewrite pairsOf_segmentOfEntry in Hin.
    apply list_elem_of_fmap in Hin as (m & Hm & Hin). exists k, m.
    split; [|done]. apply elem_of_NetworkMacs_get. eauto.
  - intros (k & m & Hm & Hshown). apply elem_of_NetworkMacs_get in Hm as (l & Hl & Hm).
    exists (segmentOfEntry (k, l)). split.
    + apply list_elem_of_fmap. exists (k, l). by rewrite elem_of_range_order_map.
    + rewrite pairsOf_segmentOfEntry. apply list_elem_of_fmap. eauto.
Qed.

Lemma includes_holds n (S : vifptr → Prop) vif :
  holds deref n S →
  includes (segmentOfEntry <$> range_order (map_to_list n)) vif
  ↔ ∃ p, S p ∧ vif_Mac (deref p) ≠ "" ∧ shown (deref p) = shown vif.
Proof.
  intros Hn. rewrite includes_entries. split.
  - intros (k & m & Hm & Hshown). apply Hn in Hm as (p & ? & ? & ? & ->). eauto.
  - intros (p & HS & Hmac & Hshown).
    exists (vif_NetworkID (deref p)), (newMacID (deref p)). split; [|done].
    apply Hn. eauto.
Qed.

Lemma idsOf_holds n (S : vifptr → Prop) (x : Z) :
  holds deref n S →
  x ∈ idsOf n ↔ ∃ p, S p ∧ vif_Mac (deref p) ≠ "" ∧ vif_ID (deref p) = x.
Proof.
  intros Hn. rewrite elem_of_idsOf. split.
  - intros (k & l & m & Hk & Hm & <-).
    assert (m ∈ NetworkMacs_get n k) as Hin by (apply elem_of_NetworkMacs_get; eauto).
    apply Hn in Hin as (p & ? & ? & ? & ->). eauto.
  - intros (p & HS & Hmac & <-).
    assert (newMacID (deref p) ∈ NetworkMacs_get n (vif_NetworkID (deref p))) as Hin.
    { apply Hn. eauto. }
    apply elem_of_NetworkMacs_get in Hin as (l & Hl & Hin). eauto 10.
Qed.

Lemma noEmptyMac_fmap n k l : noEmptyMac n → n !! k = Some l → "" ∉ Mac <$> l.
Proof.
  intros Hn Hk Hin. apply list_elem_of_fmap in Hin as (m & Hm & Hin).
  by eapply Hn.
Qed.

Lemma noEmptyMac_walk (o : option NetworkMacs) m :
  (∀ n, o = Some n → noEmptyMac n) → m ∈ walk (default ∅ o) → Mac m ≠ "".
Proof.
  intros Ho Hm. apply elem_of_walk in Hm as (k & l & Hk & Hm).
  destruct o as [n|]; simpl in Hk; [by eapply Ho|]. by rewrite lookup_empty in Hk.
Qed.

(** An invariant of every call is an invariant of every run. *)
Lemma run_invariant (P : Segment (vifptr:=vifptr) → Prop) cs s :
  P s → (∀ c s, P s → P (call deref c s).2) → P (run deref cs s).
Proof.
  intros Hs Hstep. revert s Hs. induction cs as [|c cs IH]; intros s Hs; [done|].
  apply IH, Hstep, Hs.
Qed.

Lemma indicesNoEmptyMac_sameIndices s s' :
  sameIndices s s' → indicesNoEmptyMac s → indicesNoEmptyMac s'.
Proof.
  intros (Hl&Hh&Hg&Hv&Hp&Ha). unfold indicesNoEmptyMac.
  by rewrite Hl, Hh, Hg, Hv, Hp, Ha.
Qed.

Lemma indicesNoEmptyMac_new : indicesNoEmptyMac (newSegment (vifptr:=vifptr)).
Proof.
  unfold indicesNoEmptyMac, newSegment. simpl.
  unfold newServerToNetworkMacs, newIDToNetworkMacs.
  repeat split; [intros ? ?; by rewrite lookup_empty..|].
  intros seg Hseg. by apply elem_of_nil in Hseg.
Qed.

Lemma indicesNoEmptyMac_build rawData s :
  indicesNoEmptyMac (generateBaseSegments deref rawData s).
Proof.
  assert (∀ h n, gatewayHostIDToSegments (generateBaseSegments deref rawData s) !! h
                 = Some n → noEmptyMac n) as Hgw.
  { intros h n Hh. eapply holds_noEmptyMac, gateway_holds, Hh. }
  repeat split.
  - intros k n Hk. eapply holds_noEmptyMac, launchServer_holds, Hk.
  - intros k n Hk. eapply holds_noEmptyMac, host_holds, Hk.
  - done.
  - intros k n Hk. eapply holds_noEmptyMac, vm_holds, Hk.
  - intros k n Hk. eapply holds_noEmptyMac, podNode_holds, Hk.
  - intros seg Hseg.
    change (seg ∈ allGatewayHostSegments
                    (generateGatewayHostSegments
                       (generateBaseSegmentsFromDB deref rawData
                          (convertDBInfo rawData s)))) in Hseg.
    apply elem_of_allGatewayHostSegments in Hseg as (h & n & k & l & Hh & Hk & ->).
    eapply noEmptyMac_fmap; [|done]. by eapply Hgw.
Qed.

(** No call brings an empty MAC into an index or into the gateway cache. *)
Lemma indicesNoEmptyMac_call c s :
  indicesNoEmptyMac s → indicesNoEmptyMac (call deref c s).2.
Proof.
  intros Hs. destruct c;
    try (eapply indicesNoEmptyMac_sameIndices; [|done];
         by apply call_sameIndices).
  apply indicesNoEmptyMac_build.
Qed.

Lemma indicesNoEmptyMac_entryOf c s n :
  indicesNoEmptyMac s → entryOf c s = Some n → noEmptyMac n.
Proof. intros (Hl&Hh&_&Hv&Hp&_). destruct c; simpl; try done; eauto. Qed.

(** The answers that come from the indices carry no empty MAC. *)
Lemma indexQuery_noEmptyMac c s seg :
  indicesNoEmptyMac s → isIndexQuery c = true →
  seg ∈ (call deref c s).1 → "" ∉ seg_Mac seg.
Proof.
  intros Hs Hc Hseg. destruct (isPerEntityQuery c) eqn:Hper.
  - rewrite call_perEntity_answer in Hseg by done.
    apply list_elem_of_fmap in Hseg as ([k l] & -> & Hkl).
    apply elem_of_range_order_map in Hkl. simpl.
    destruct (entryOf c s) as [n|] eqn:Hn; simpl in Hkl.
    + eapply noEmptyMac_fmap; [|done]. by eapply indicesNoEmptyMac_entryOf.
    + by rewrite lookup_empty in Hkl.
  - destruct c; try done; simpl in Hseg.
    + rewrite GetTypeVMSegments_spec in Hseg. simpl in Hseg.
      apply list_elem_of_singleton in Hseg as ->. simpl.
      destruct Hs as (Hl&Hh&_). intros Hin.
      apply list_elem_of_fmap in Hin as (m & Hm & Hin). symmetry in Hm. revert Hm.
      apply elem_of_app in Hin as [Hin|Hin]; eapply noEmptyMac_walk; try done; eauto.
    + destruct Hs as (_&_&_&_&_&Ha). by apply Ha.
Qed.

Lemma cachedFixedId_new : cachedFixedId (newSegment (vifptr:=vifptr)).
Proof. split; intros seg Hseg; by apply elem_of_nil in Hseg. Qed.

(** Every call keeps the fixed id on the two cached lists. *)
Lemma cachedFixedId_call c s : cachedFixedId s → cachedFixedId (call deref c s).2.
Proof.
  intros [Hgw Hnot]. destruct (isEntityQuery c) eqn:Hq.
  { rewrite call_entity_state by done. by split. }
  destruct c; try done; simpl.
  - split; [|done]. intros seg Hseg.
    change (seg ∈ allGatewayHostSegments
                    (generateGatewayHostSegments
                       (generateBaseSegmentsFromDB deref rawData
                          (convertDBInfo rawData s)))) in Hseg.
    by apply elem_of_allGatewayHostSegments in Hseg as (h & n & k & l & _ & _ & ->).
  - rewrite GenerateNoVTapUsedSegments_spec. split; [done|]. simpl.
    intros seg Hseg. unfold catchAll in Hseg.
    destruct (unclaimed _ _ _); [by apply elem_of_nil in Hseg|].
    by apply list_elem_of_singleton in Hseg as ->.
Qed.

Lemma fixedIdQuery_id c s seg :
  cachedFixedId s → isFixedIdQuery c = true →
  seg ∈ (call deref c s).1 → seg_Id seg = 1.
Proof.
  intros [Hgw Hnot] Hc Hseg. destruct c; try done; simpl in Hseg.
  - rewrite GetTypeVMSegments_spec in Hseg. simpl in Hseg.
    by apply list_elem_of_singleton in Hseg as ->.
  - by apply Hgw.
  - by apply Hnot.
Qed.

End AnswerFacts.

(** ** Independence of the iteration order *)

Section OrderFacts.
Context {vifptr : Type} `{Countable vifptr}.
Context (deref : vifptr → VInterface).
Implicit Types (rawData : PlatformRawData (vifptr:=vifptr)).
Implicit Types (s : Segment (vifptr:=vifptr)) (n : NetworkMacs).
Implicit Types (RO : RangeOrder).

Lemma groupingUpToOrder_get n n' :
  groupingUpToOrder n n'
  ↔ ∀ k, (is_Some (n !! k) ↔ is_Some (n' !! k))
         ∧ NetworkMacs_get n k ≡ₚ NetworkMacs_get n' k.
Proof.
  unfold groupingUpToOrder, NetworkMacs_get. split; intros Hn k; specialize (Hn k).
  - destruct Hn as [l l' Hl|]; simpl; [|done].
    split; [|done]. split; intros _; by eexists.
  - destruct Hn as [Hsome Hperm].
    destruct (n !! k) as [l|], (n' !! k) as [l'|]; simpl in *.
    + by constructor.
    + destruct Hsome as [Hs _]. destruct Hs as [? [=]]. by eexists.
    + destruct Hsome as [_ Hs]. destruct Hs as [? [=]]. by eexists.
    + constructor.
Qed.

Lemma groupingUpToOrder_refl n : groupingUpToOrder n n.
Proof. intros k. by destruct (n !! k); constructor. Qed.

Lemma fold_add_get (l : list VInterface) n k :
  NetworkMacs_get (foldl (λ n v, NetworkMacs_add v n) n l) k
  = NetworkMacs_get n k
    ++ (newMacID <$> filter (λ v, vif_Mac v ≠ "" ∧ vif_NetworkID v = k) l).
Proof.
  revert n. induction l as [|v l IH]; intros n.
  - by rewrite app_nil_r.
  - cbn [foldl]. rewrite IH, NetworkMacs_add_get, filter_cons.
    case_decide; by rewrite <-(assoc_L (++)).
Qed.

Lemma NetworkMacs_add_is_Some (v : VInterface) n k :
  is_Some (NetworkMacs_add v n !! k)
  ↔ is_Some (n !! k) ∨ (vif_Mac v ≠ "" ∧ vif_NetworkID v = k).
Proof.
  unfold NetworkMacs_add. destruct (decide (vif_Mac v = "")) as [Hmac|Hmac].
  { naive_solver. }
  destruct (n !! vif_NetworkID v) as [l|] eqn:Hl; rewrite lookup_insert_is_Some;
    destruct (decide (vif_NetworkID v = k)) as [<-|]; naive_solver.
Qed.

Lemma fold_add_is_Some (l : list VInterface) n k :
  is_Some (foldl (λ n v, NetworkMacs_add v n) n l !! k)
  ↔ is_Some (n !! k) ∨ ∃ v, v ∈ l ∧ vif_Mac v ≠ "" ∧ vif_NetworkID v = k.
Proof.
  apply (foldl_invariant (λ visited acc,
           is_Some (acc !! k)
           ↔ is_Some (n !! k)
             ∨ ∃ v, v ∈ visited ∧ vif_Mac v ≠ "" ∧ vif_NetworkID v = k)).
  - split; [eauto|]. intros [?|(v & Hv & _)]; [done|]. by apply elem_of_nil in Hv.
  - intros visited v acc Hacc _. rewrite NetworkMacs_add_is_Some, Hacc.
    setoid_rewrite elem_of_app. setoid_rewrite list_elem_of_singleton. split.
    + intros [[?|(v' & ? & ?)]|?]; [eauto|right; exists v'|right; exists v]; eauto.
    + intros [?|(v' & [?| ->] & ?)]; eauto 10.
Qed.

(** A sequence of [add]s gives the same grouping up to order, in whatever
    order the interfaces come. *)
Lemma fold_add_perm (l l' : list VInterface) n n' :
  l ≡ₚ l' → groupingUpToOrder n n' →
  groupingUpToOrder (foldl (λ n v, NetworkMacs_add v n) n l)
                    (foldl (λ n v, NetworkMacs_add v n) n' l').
Proof.
  rewrite !groupingUpToOrder_get. intros Hl Hn k. destruct (Hn k) as [Hsome Hget].
  split.
  - rewrite !fold_add_is_Some, Hsome. by setoid_rewrite Hl.
  - rewrite !fold_add_get. by rewrite Hget, Hl.
Qed.

Lemma addVifs_fold RO (vifs : gset vifptr) n :
  addVifs (RO:=RO) deref vifs n
  = foldl (λ n v, NetworkMacs_add v n) n (deref <$> range_order (elements vifs)).
Proof. unfold addVifs. by rewrite foldl_fmap. Qed.

Lemma addVifs_order RO RO' (vifs : gset vifptr) n n' :
  groupingUpToOrder n n' →
  groupingUpToOrder (addVifs (RO:=RO) deref vifs n) (addVifs (RO:=RO') deref vifs n').
Proof.
  rewrite !addVifs_fold. apply fold_add_perm. by rewrite !range_order_perm.
Qed.

Lemma lookup_eq_vifsAt (t t' : gmap Z (gset vifptr)) k :
  (is_Some (t !! k) ↔ is_Some (t' !! k)) → vifsAt t k = vifsAt t' k →
  t !! k = t' !! k.
Proof.
  unfold vifsAt. intros Hsome Hat.
  destruct (t !! k) as [X|], (t' !! k) as [X'|]; simpl in *.
  - by rewrite Hat.
  - destruct Hsome as [Hs _]. destruct Hs as [? [=]]. by eexists.
  - destruct Hsome as [_ Hs]. destruct Hs as [? [=]]. by eexists.
  - done.
Qed.

(** The two closures do not depend on the iteration order, nor on the
    engine before the build. *)
Lemma convertDBInfo_order RO RO' rawData s s' :
  podNodeIDToAllVifs (convertDBInfo (RO:=RO) rawData s)
  = podNodeIDToAllVifs (convertDBInfo (RO:=RO') rawData s')
  ∧ vmIDToPodNodeAllVifs (convertDBInfo (RO:=RO) rawData s)
    = vmIDToPodNodeAllVifs (convertDBInfo (RO:=RO') rawData s').
Proof.
  split; apply map_eq; intros k; apply lookup_eq_vifsAt.
  - by rewrite !podNodeIDToAllVifs_is_Some.
  - apply set_eq. intros p. by rewrite !podNodeIDToAllVifs_spec.
  - by rewrite !vmIDToPodNodeAllVifs_is_Some.
  - apply set_eq. intros p. by rewrite !vmIDToPodNodeAllVifs_spec.
Qed.

Lemma bind_perm_ext {A B} (f g : A → list B) (l l' : list A) :
  l ≡ₚ l' → (∀ x, f x ≡ₚ g x) → l ≫= f ≡ₚ l' ≫= g.
Proof.
  intros -> Hfg. induction l' as [|x l' IH]; [done|].
  rewrite !bind_cons. by rewrite Hfg, IH.
Qed.

(** The loop over the VMs of a launch server is one sequence of [add]s. *)
Lemma launch_fold RO (c d : gmap Z (gset vifptr)) (l : list Z) n :
  foldl (λ n id, addVifsOf (RO:=RO) deref c id (addVifsOf (RO:=RO) deref d id n)) n l
  = foldl (λ n v, NetworkMacs_add v n) n
      (l ≫= λ id, (deref <$> range_order (RangeOrder:=RO) (elements (vifsAt d id)))
                  ++ (deref <$> range_order (RangeOrder:=RO) (elements (vifsAt c id)))).
Proof.
  revert n. induction l as [|id l IH]; intros n; [done|].
  cbn [foldl]. rewrite IH, bind_cons, !foldl_app.
  by rewrite !addVifsOf_vifsAt, !addVifs_fold.
Qed.

Lemma launch_order RO RO' (c d : gmap Z (gset vifptr)) (vmids : gset Z) :
  groupingUpToOrder
    (foldl (λ n id, addVifsOf (RO:=RO) deref c id (addVifsOf (RO:=RO) deref d id n))
           newNetworkMacs (range_order (RangeOrder:=RO) (elements vmids)))
    (foldl (λ n id, addVifsOf (RO:=RO') deref c id (addVifsOf (RO:=RO') deref d id n))
           newNetworkMacs (range_order (RangeOrder:=RO') (elements vmids))).
Proof.
  rewrite !launch_fold. apply fold_add_perm; [|apply groupingUpToOrder_refl].
  apply bind_perm_ext; [by rewrite !range_order_perm|].
  intros id. by rewrite !range_order_perm.
Qed.

Lemma option_Forall2_fmap_same {A B} (R : B → B → Prop) (f g : A → B) (o : option A) :
  (∀ x, R (f x) (g x)) → option_Forall2 R (f <$> o) (g <$> o).
Proof. intros Hfg. destruct o; simpl; by constructor. Qed.

(** Two maps related key by key list their entries alike, up to order. *)
Lemma map_to_list_related `{Countable K} {V} (R : V → V → Prop) (m m' : gmap K V)
    (es es' : list (K * V)) :
  (∀ k, option_Forall2 R (m !! k) (m' !! k)) →
  es ≡ₚ map_to_list m → es' ≡ₚ map_to_list m' →
  ∃ es'', es ≡ₚ es'' ∧ Forall2 (λ e e', e.1 = e'.1 ∧ R e.2 e'.2) es'' es'.
Proof.
  intros Hrel Hes Hes'.
  exists ((λ e' : K * V, (e'.1, default e'.2 (m !! e'.1))) <$> es'). split.
  - apply NoDup_Permutation.
    + rewrite Hes. apply NoDup_map_to_list.
    + apply (NoDup_fmap_1 fst). rewrite <-list_fmap_compose.
      change (NoDup es'.*1). rewrite Hes'. apply NoDup_fst_map_to_list.
    + intros [k v]. rewrite Hes, elem_of_map_to_list, list_elem_of_fmap. split.
      * intros Hk. specialize (Hrel k). rewrite Hk in Hrel.
        inversion Hrel as [v1 v' _ Heq1 Hk'|]; subst.
        exists (k, v'). simpl. rewrite Hk. split; [done|].
        rewrite Hes'. by apply elem_of_map_to_list.
      * intros ([k' v'] & [= -> ->] & He'). simpl in *.
        rewrite Hes' in He'. apply elem_of_map_to_list in He'.
        specialize (Hrel k'). rewrite He' in Hrel.
        by inversion Hrel as [v1 v2 _ Heq1 Heq2|].
  - apply Forall2_fmap_l, Forall_Forall2_diag, Forall_forall.
    intros [k' v'] He'. simpl. split; [done|].
    rewrite Hes' in He'. apply elem_of_map_to_list in He'.
    specialize (Hrel k'). rewrite He' in Hrel.
    by inversion Hrel as [v1 v2 HR Heq1 Heq2|].
Qed.

Lemma segmentUpToOrder_entry (k : Z) (l l' : list MacID) :
  l ≡ₚ l' → segmentUpToOrder (segmentOfEntry (k, l)) (segmentOfEntry (k, l')).
Proof.
  intros Hl. unfold segmentUpToOrder. simpl. rewrite !zip_fmap_same.
  by rewrite Hl.
Qed.

Lemma segmentUpToOrder_fixed (l l' : list MacID) :
  l ≡ₚ l' → segmentUpToOrder (fixedSegment l) (fixedSegment l').
Proof.
  intros Hl. unfold segmentUpToOrder. simpl. rewrite !zip_fmap_same.
  by rewrite Hl.
Qed.

Lemma answerUpToOrder_refl a : answerUpToOrder a a.
Proof.
  exists a. split; [done|]. apply Forall_Forall2_diag, Forall_forall.
  intros seg _. by repeat split.
Qed.

Lemma answerUpToOrder_nil : answerUpToOrder [] [].
Proof. exists []. by split. Qed.

Lemma answerUpToOrder_perm_l a a2 a' :
  a ≡ₚ a2 → answerUpToOrder a2 a' → answerUpToOrder a a'.
Proof. intros Ha (b & Hb & Hall). exists b. split; [by etrans|done]. Qed.

Lemma answerUpToOrder_app a a' b b' :
  answerUpToOrder a a' → answerUpToOrder b b' → answerUpToOrder (a ++ b) (a' ++ b').
Proof.
  intros (a2 & Ha & Halla) (b2 & Hb & Hallb). exists (a2 ++ b2).
  split; [by rewrite Ha, Hb|by apply Forall2_app].
Qed.

Lemma answerUpToOrder_join {A} (f f' : A → list TridentSegment) (l l' : list A) :
  Forall2 (λ x x', answerUpToOrder (f x) (f' x')) l l' →
  answerUpToOrder (mjoin (f <$> l)) (mjoin (f' <$> l')).
Proof.
  induction 1 as [|x x' l l' Hx _ IH]; [apply answerUpToOrder_nil|].
  rewrite !fmap_cons. simpl. by apply answerUpToOrder_app.
Qed.

Lemma answerUpToOrder_Forall2 a a' :
  Forall2 segmentUpToOrder a a' → answerUpToOrder a a'.
Proof. intros Ha. by exists a. Qed.

(** The answer of a per-entity lookup over two groupings that agree up to
    order. *)
Lemma perEntity_answer_order RO RO' n n' :
  groupingUpToOrder n n' →
  answerUpToOrder (segmentOfEntry <$> range_order (RangeOrder:=RO) (map_to_list n))
                  (segmentOfEntry <$> range_order (RangeOrder:=RO') (map_to_list n')).
Proof.
  intros Hn.
  destruct (map_to_list_related (≡ₚ) n n'
              (range_order (RangeOrder:=RO) (map_to_list n))
              (range_order (RangeOrder:=RO') (map_to_list n')))
    as (es'' & Hperm & Hall); [done|apply range_order_perm..|].
  exists (segmentOfEntry <$> es''). split; [by rewrite Hperm|].
  apply Forall2_fmap. eapply Forall2_impl; [done|].
  intros [k l] [k' l'] [Hk Hl]. simpl in *. subst k'. by apply segmentUpToOrder_entry.
Qed.

Lemma fixed_answer_order RO RO' n n' :
  groupingUpToOrder n n' →
  answerUpToOrder (fixedSegment <$> (range_order (RangeOrder:=RO) (map_to_list n)).*2)
                  (fixedSegment <$> (range_order (RangeOrder:=RO') (map_to_list n')).*2).
Proof.
  intros Hn.
  destruct (map_to_list_related (≡ₚ) n n'
              (range_order (RangeOrder:=RO) (map_to_list n))
              (range_order (RangeOrder:=RO') (map_to_list n')))
    as (es'' & Hperm & Hall); [done|apply range_order_perm..|].
  exists (fixedSegment <$> es''.*2). split; [by rewrite Hperm|].
  apply Forall2_fmap, Forall2_fmap. eapply Forall2_impl; [done|].
  intros [k l] [k' l'] [Hk Hl]. simpl in *. by apply segmentUpToOrder_fixed.
Qed.

Lemma walk_order RO RO' n n' :
  groupingUpToOrder n n' → walk (RO:=RO) n ≡ₚ walk (RO:=RO') n'.
Proof.
  intros Hn. unfold walk.
  destruct (map_to_list_related (≡ₚ) n n'
              (range_order (RangeOrder:=RO) (map_to_list n))
              (range_order (RangeOrder:=RO') (map_to_list n')))
    as (es'' & Hperm & Hall); [done|apply range_order_perm..|].
  rewrite Hperm. clear Hperm.
  induction Hall as [|[k l] [k' l'] es1 es2 [_ Hl] _ IH]; [done|].
  rewrite !fmap_cons. simpl in *. by rewrite Hl, IH.
Qed.

Lemma idsOf_order n n' : groupingUpToOrder n n' → idsOf n = idsOf n'.
Proof.
  intros Hn. apply set_eq. intros x. rewrite !elem_of_idsOf. split.
  - intros (k & l & m & Hk & Hm & Hx). specialize (Hn k). rewrite Hk in Hn.
    inversion Hn as [l1 l' Hl Heq1 Hk'|]; subst. exists k, l', m.
    split; [done|]. split; [by rewrite <-Hl|done].
  - intros (k & l' & m & Hk & Hm & Hx). specialize (Hn k). rewrite Hk in Hn.
    inversion Hn as [l l1 Hl Hk' Heq1|]; subst. exists k, l, m.
    split; [done|]. split; [by rewrite Hl|done].
Qed.

Lemma idsOfEntry_order (o o' : option NetworkMacs) :
  option_Forall2 groupingUpToOrder o o' → idsOfEntry o = idsOfEntry o'.
Proof. intros [n n' Hn|]; simpl; [by apply idsOf_order|done]. Qed.

Lemma entry_answer_order RO RO' (o o' : option NetworkMacs) :
  option_Forall2 groupingUpToOrder o o' →
  answerUpToOrder
    (segmentOfEntry <$> range_order (RangeOrder:=RO) (map_to_list (default ∅ o)))
    (segmentOfEntry <$> range_order (RangeOrder:=RO') (map_to_list (default ∅ o'))).
Proof.
  intros [n n' Hn|]; simpl; [by apply perEntity_answer_order|].
  rewrite map_to_list_empty, !range_order_nil. apply answerUpToOrder_nil.
Qed.

Lemma entry_walk_order RO RO' (o o' : option NetworkMacs) :
  option_Forall2 groupingUpToOrder o o' →
  walk (RO:=RO) (default ∅ o) ≡ₚ walk (RO:=RO') (default ∅ o').
Proof.
  intros [n n' Hn|]; simpl; [by apply walk_order|].
  apply walk_order, groupingUpToOrder_refl.
Qed.

(** The flattening of two gateway indices that agree up to order. *)
Lemma gateway_answer_order RO RO' s s' :
  indexUpToOrder (gatewayHostIDToSegments s) (gatewayHostIDToSegments s') →
  answerUpToOrder (allGatewayHostSegments (generateGatewayHostSegments (RO:=RO) s))
                  (allGatewayHostSegments (generateGatewayHostSegments (RO:=RO') s')).
Proof.
  intros Hgw. rewrite !allGatewayHostSegments_spec.
  destruct (map_to_list_related groupingUpToOrder
              (gatewayHostIDToSegments s) (gatewayHostIDToSegments s')
              (range_order (RangeOrder:=RO) (map_to_list (gatewayHostIDToSegments s)))
              (range_order (RangeOrder:=RO') (map_to_list (gatewayHostIDToSegments s'))))
    as (es'' & Hperm & Hall); [done|apply range_order_perm..|].
  eapply answerUpToOrder_perm_l.
  { rewrite Hperm. reflexivity. }
  apply answerUpToOrder_join, Forall2_fmap. eapply Forall2_impl; [done|].
  intros [k n] [k' n'] [_ Hn]. simpl in *. by apply fixed_answer_order.
Qed.

(** Two builds from one snapshot, under any two iteration orders and from
    any two engines with the same used set and catch-all cache, agree up to
    order. *)
Lemma build_order RO RO' rawData s s' :
  vtapUsedVInterfaceIDs s = vtapUsedVInterfaceIDs s' →
  notVtapUsedSegments s = notVtapUsedSegments s' →
  engineUpToOrder (generateBaseSegments (RO:=RO) deref rawData s)
                  (generateBaseSegments (RO:=RO') deref rawData s').
Proof.
  intros Hused Hnot.
  destruct (convertDBInfo_order RO RO' rawData s s') as [Hpn Hvm].
  assert (indexUpToOrder
            (gatewayHostIDToSegments (generateBaseSegments (RO:=RO) deref rawData s))
            (gatewayHostIDToSegments (generateBaseSegments (RO:=RO') deref rawData s')))
    as Hgw.
  { intros k. rewrite !gatewayHostIDToSegments_build.
    apply option_Forall2_fmap_same. intros vifs.
    apply addVifs_order, groupingUpToOrder_refl. }
  repeat split; try done.
  - intros k. rewrite !launchServerToSegments_build, Hvm.
    apply option_Forall2_fmap_same. intros vmids. apply launch_order.
  - intros k. rewrite !hostIDToSegments_build.
    apply option_Forall2_fmap_same. intros vifs.
    apply addVifs_order, groupingUpToOrder_refl.
  - intros k. rewrite !vmIDToSegments_build, Hvm.
    apply option_Forall2_fmap_same. intros vifs.
    rewrite !addVifsOf_vifsAt. apply addVifs_order, addVifs_order, groupingUpToOrder_refl.
  - intros k. rewrite !podNodeIDToSegments_build, Hpn.
    apply option_Forall2_fmap_same. intros vifs.
    apply addVifs_order, groupingUpToOrder_refl.
  - by apply (gateway_answer_order RO RO'
                (generateBaseSegmentsFromDB (RO:=RO) deref rawData
                   (convertDBInfo (RO:=RO) rawData s))
                (generateBaseSegmentsFromDB (RO:=RO') deref rawData
                   (convertDBInfo (RO:=RO') rawData s'))).
Qed.

(** One call under two iteration orders, on two engines that agree up to
    order: the answers agree up to order, and so do the engines after. *)
Lemma call_order RO RO' (c : Call) s s' :
  engineUpToOrder s s' →
  answerUpToOrder (call (RO:=RO) deref c s).1 (call (RO:=RO') deref c s').1
  ∧ engineUpToOrder (call (RO:=RO) deref c s).2 (call (RO:=RO') deref c s').2.
Proof.
  intros (Hl & Hh & Hg & Hv & Hp & Ha & Hused & Hnot).
  assert (∀ (o o' : option NetworkMacs),
            option_Forall2 groupingUpToOrder o o' →
            engineUpToOrder
              (set_vtapUsedVInterfaceIDs (idsOfEntry o ∪ vtapUsedVInterfaceIDs s) s)
              (set_vtapUsedVInterfaceIDs (idsOfEntry o' ∪ vtapUsedVInterfaceIDs s') s'))
    as Hclaim.
  { intros o o' Ho. repeat split; try done. simpl.
    by rewrite (idsOfEntry_order o o' Ho), Hused. }
  destruct c; simpl.
  - split; [apply answerUpToOrder_nil|by apply build_order].
  - rewrite !GenerateNoVTapUsedSegments_spec. split; [apply answerUpToOrder_nil|].
    repeat split; try done. simpl. by rewrite Hused.
  - split; [apply answerUpToOrder_nil|]. by repeat split.
  - unfold GetLaunchServerSegments. rewrite !getSegmentsByServer_spec. simpl.
    split; [apply entry_answer_order, Hl|apply Hclaim, Hl].
  - unfold GetVMIDSegments. rewrite !getSegmentsByID_spec. simpl.
    split; [apply entry_answer_order, Hv|apply Hclaim, Hv].
  - unfold GetHostIDSegments. rewrite !getSegmentsByID_spec. simpl.
    split; [apply entry_answer_order, Hh|apply Hclaim, Hh].
  - unfold GetPodNodeSegments. rewrite !getSegmentsByID_spec. simpl.
    split; [apply entry_answer_order, Hp|apply Hclaim, Hp].
  - rewrite !GetTypeVMSegments_spec. simpl. split.
    + apply answerUpToOrder_Forall2. constructor; [|constructor].
      apply segmentUpToOrder_fixed.
      by rewrite (entry_walk_order RO RO' _ _ (Hl launchServer)),
                 (entry_walk_order RO RO' _ _ (Hh hostID)).
    + repeat split; try done. simpl.
      by rewrite (idsOfEntry_order _ _ (Hl launchServer)),
                 (idsOfEntry_order _ _ (Hh hostID)), Hused.
  - split; [done|by repeat split].
  - unfold GetNotVtapUsedSegments. rewrite Hnot.
    split; [apply answerUpToOrder_refl|by repeat split].
Qed.

(** Every sequence of calls is answered alike up to order under any two
    iteration orders. *)
Lemma answers_order RO RO' (cs : list Call) s s' :
  engineUpToOrder s s' →
  Forall2 answerUpToOrder (answers (RO:=RO) deref cs s) (answers (RO:=RO') deref cs s').
Proof.
  revert s s'. induction cs as [|c cs IH]; intros s s' Hs; [constructor|].
  destruct (call_order RO RO' c s s' Hs) as [Hanswer Hnext].
  cbn [answers]. constructor; [done|by apply IH].
Qed.

Lemma indexUpToOrder_refl `{Countable K} (t : gmap K (gmap Z (list MacID))) :
  indexUpToOrder t t.
Proof.
  intros k. destruct (t !! k); constructor. apply groupingUpToOrder_refl.
Qed.

Lemma engineUpToOrder_refl s : engineUpToOrder s s.
Proof.
  repeat split; try apply indexUpToOrder_refl. apply answerUpToOrder_refl.
Qed.

(** Every run leaves engines that agree up to order under any two
    iteration orders. *)
Lemma run_order RO RO' (cs : list Call) s s' :
  engineUpToOrder s s' →
  engineUpToOrder (run (RO:=RO) deref cs s) (run (RO:=RO') deref cs s').
Proof.
  revert s s'. induction cs as [|c cs IH]; intros s s' Hs; [done|].
  unfold run. simpl. apply IH. by apply call_order.
Qed.

(** The indices and the gateway cache of two builds from one snapshot, on
    any two engines. *)
Lemma build_indices_order RO RO' rawData s s' :
  indicesUpToOrder (generateBaseSegments (RO:=RO) deref rawData s)
                   (generateBaseSegments (RO:=RO') deref rawData s').
Proof.
  destruct (build_order RO RO' rawData s
              (set_vtapUsedVInterfaceIDs (vtapUsedVInterfaceIDs s)
                 (set_notVtapUsedSegments (notVtapUsedSegments s) s')))
    as (Hl & Hh & Hg & Hv & Hp & Ha & _); [done..|].
  by repeat split.
Qed.

Lemma claimedBy_order (c : Call) s s' :
  indicesUpToOrder s s' → claimedBy c s = claimedBy c s'.
Proof.
  intros (Hl & Hh & _ & Hv & Hp & _). destruct c; simpl; try done.
  - apply idsOfEntry_order, Hl.
  - apply idsOfEntry_order, Hv.
  - apply idsOfEntry_order, Hh.
  - apply idsOfEntry_order, Hp.
  - by rewrite (idsOfEntry_order _ _ (Hl launchServer)),
               (idsOfEntry_order _ _ (Hh hostID)).
Qed.

End OrderFacts.

(** * The claims *)

Section Claims.
Context {vifptr : Type} `{Countable vifptr}.
Context (deref : vifptr → VInterface).
Context {RO : RangeOrder}.
Implicit Types (rawData : PlatformRawData (vifptr:=vifptr)).
Implicit Types (s : Segment (vifptr:=vifptr)) (n : NetworkMacs).
Implicit Types (c : Call (vifptr:=vifptr)) (vif : VInterface).

(** C1. On an engine built from the snapshot and with the used set cleared,
    after any pass of entity queries the used set is exactly the set of ids
    held by the entries those queries resolved, and the catch-all pass over
    the snapshot's device list returns exactly the interfaces whose id is
    not in it: one segment when there is such an interface, no segment
    otherwise.  In particular the lookup of a host whose interfaces are A
    and B (both with a MAC) claims exactly A and B; and after a host lookup
    that claimed exactly A and B, over a device list made of A, B and C the
    result is the one segment that contains C only. *)
Theorem notYetClaimed_exact rawData s0 :
  let built := ClearVTapUsedVInterfaceIDs (generateBaseSegments deref rawData s0) in
  (∀ qs, Forall (λ c, isEntityQuery c = true) qs →
     let s := run deref qs built in
     vtapUsedVInterfaceIDs s = ⋃ ((λ c, claimedBy c built) <$> qs)
     ∧ GetNotVtapUsedSegments (GenerateNoVTapUsedSegments deref rawData s)
       = catchAll deref (unclaimed deref rawData (vtapUsedVInterfaceIDs s)))
  ∧ (∀ h A B,
       hostIDToVifs rawData !! h = Some {[A; B]} →
       vif_Mac (deref A) ≠ "" → vif_Mac (deref B) ≠ "" →
       vtapUsedVInterfaceIDs (GetHostIDSegments h built).2
       = {[vif_ID (deref A); vif_ID (deref B)]})
  ∧ (∀ h A B C,
       vtapUsedVInterfaceIDs (GetHostIDSegments h built).2
       = {[vif_ID (deref A); vif_ID (deref B)]} →
       deviceVifs rawData ≡ₚ [A; B; C] →
       vif_ID (deref C) ≠ vif_ID (deref A) → vif_ID (deref C) ≠ vif_ID (deref B) →
       GetNotVtapUsedSegments
         (GenerateNoVTapUsedSegments deref rawData (GetHostIDSegments h built).2)
       = [ {| seg_Id := 1;
              seg_Mac := [vif_Mac (deref C)];
              seg_InterfaceId := [uint32 (vif_ID (deref C))] |} ]).
Proof.
  intros built. split; [|split].
  - intros qs Hqs s. subst s. split.
    + destruct (run_entity_queries deref qs built Hqs) as [_ ->].
      subst built. simpl. by rewrite (right_id_L ∅ (∪)).
    + by rewrite GenerateNoVTapUsedSegments_spec.
  - intros h A B Hh HA HB.
    change (GetHostIDSegments h built) with (call deref (CallGetHostIDSegments h) built).
    rewrite call_entity_state by done.
    cbn [vtapUsedVInterfaceIDs set_vtapUsedVInterfaceIDs claimedBy].
    subst built.
    cbn [vtapUsedVInterfaceIDs ClearVTapUsedVInterfaceIDs set_vtapUsedVInterfaceIDs].
    rewrite (right_id_L ∅ (∪)).
    change (hostIDToSegments (ClearVTapUsedVInterfaceIDs ?s)) with (hostIDToSegments s).
    apply set_eq. intros x.
    destruct (hostIDToSegments (generateBaseSegments deref rawData s0) !! h)
      as [n|] eqn:Hn.
    + simpl. rewrite (idsOf_holds deref n _ x (host_holds deref _ _ _ _ Hn)).
      unfold vifsAt. rewrite Hh. simpl.
      rewrite elem_of_union, !elem_of_singleton. split.
      * intros (p & [->%elem_of_singleton| ->%elem_of_singleton]%elem_of_union & _ & <-);
          eauto.
      * intros [-> | ->]; [exists A|exists B]; (split; [set_solver|done]).
    + rewrite hostIDToSegments_build, Hh in Hn. done.
  - intros h A B C Hused Hdev HCA HCB.
    rewrite GenerateNoVTapUsedSegments_spec.
    cbn [GetNotVtapUsedSegments notVtapUsedSegments set_notVtapUsedSegments].
    rewrite Hused.
    assert (unclaimed deref rawData {[vif_ID (deref A); vif_ID (deref B)]} = [C]) as ->;
      [|done].
    apply Permutation_singleton_r. unfold unclaimed. rewrite Hdev.
    rewrite filter_cons_False by (intros Hn; apply Hn; set_solver).
    rewrite filter_cons_False by (intros Hn; apply Hn; set_solver).
    rewrite filter_cons_True by set_solver.
    by rewrite filter_nil.
Qed.

(** C2 (as amended). For each of the four per-entity lookups and every key
    known to its index, the answer has exactly one segment per network id of
    the entry, and the id of each segment is that network id converted to
    [uint32]: the network id itself whenever it lies in [0, 2^32). *)
Theorem perEntity_one_segment_per_network c s n :
  isPerEntityQuery c = true →
  entryOf c s = Some n →
  ∃ entries : list (Z * list MacID),
    entries ≡ₚ map_to_list n
    ∧ NoDup entries.*1
    ∧ (call deref c s).1 = segmentOfEntry <$> entries
    ∧ seg_Id <$> (call deref c s).1 = uint32 <$> entries.*1
    ∧ (Forall (λ k, 0 ≤ k < 2 ^ 32) entries.*1 →
       seg_Id <$> (call deref c s).1 = entries.*1).
Proof.
  intros Hc Hn. exists (range_order (map_to_list n)).
  rewrite call_perEntity_answer, Hn by done. simpl.
  assert (seg_Id <$> (segmentOfEntry <$> range_order (map_to_list n))
          = uint32 <$> (range_order (map_to_list n)).*1) as Hids.
  { rewrite <-!list_fmap_compose. by apply list_fmap_ext. }
  repeat split.
  - apply range_order_perm.
  - apply NoDup_fst_range_order.
  - done.
  - intros Hrange. rewrite Hids. clear Hids.
    induction Hrange as [|k ks Hk _ IH]; [done|].
    rewrite fmap_cons, IH. f_equal. unfold uint32. by apply Z.mod_small.
Qed.

(** C3. Whatever calls came before, every segment returned by the combined
    VM-type query, by the gateway list and by the catch-all list has id 1. *)
Theorem fixed_id_convention (cs : list Call) c :
  isFixedIdQuery c = true →
  Forall (λ seg, seg_Id seg = 1) (call deref c (run deref cs newSegment)).1.
Proof.
  intros Hc. apply Forall_forall. intros seg Hseg.
  eapply fixedIdQuery_id; [|done..].
  apply run_invariant; [apply cachedFixedId_new|apply cachedFixedId_call].
Qed.

(** C4 (as amended). Let pod P run on pod-node N, owned by VM V, with
    interface I1 on P and I2 on N, both with a MAC.  After a build the
    lookup of N includes both; the lookup of V includes both when V has an
    entry in the snapshot's VM-to-interfaces association; and whatever the
    lookup of a VM includes shows as an interface with a MAC that is
    attached to that VM, or to a pod-node owned by it, or to a pod on such
    a pod-node: so a VM that reaches no interface showing as I includes no
    I, and a pod-node without owning VM brings nothing to any VM. *)
Theorem closure_completeness rawData s0 N V P I1 I2 podIDs :
  isPodNode rawData N →
  podNodeIDtoPodIDs rawData !! N = Some podIDs → P ∈ podIDs →
  I1 ∈ vifsAt (podIDToVifs rawData) P →
  I2 ∈ vifsAt (podNodeIDToVifs rawData) N →
  vif_Mac (deref I1) ≠ "" → vif_Mac (deref I2) ≠ "" →
  podNodeIDToVmID rawData !! N = Some V →
  let s := generateBaseSegments deref rawData s0 in
  (includes (GetPodNodeSegments N s).1 (deref I1)
   ∧ includes (GetPodNodeSegments N s).1 (deref I2))
  ∧ (is_Some (vmIDToVifs rawData !! V) →
     includes (GetVMIDSegments V s).1 (deref I1)
     ∧ includes (GetVMIDSegments V s).1 (deref I2))
  ∧ (∀ V2 vif, includes (GetVMIDSegments V2 s).1 vif →
       ∃ p, onVM rawData V2 p ∧ vif_Mac (deref p) ≠ ""
            ∧ shown (deref p) = shown vif)
  ∧ (∀ V2 vif, (∀ p, onVM rawData V2 p → shown (deref p) ≠ shown vif) →
       ¬ includes (GetVMIDSegments V2 s).1 vif).
Proof.
  intros HN Hpods HP HI1 HI2 Hmac1 Hmac2 HV s.
  assert (onPodNode rawData N I1) as Hon1 by (right; eauto).
  assert (onPodNode rawData N I2) as Hon2 by (by left).
  assert (∀ vm n, vmIDToSegments s !! vm = Some n → holds deref n (onVM rawData vm))
    as Hvm by (intros vm n; apply vm_holds).
  assert (∀ k n, podNodeIDToSegments s !! k = Some n →
            holds deref n (λ p, isPodNode rawData k ∧ onPodNode rawData k p))
    as Hpn by (intros k n; apply podNode_holds).
  assert (is_Some (vmIDToVifs rawData !! V) → is_Some (vmIDToSegments s !! V)) as HkeyV.
  { intros [vifs Hvifs]. subst s. rewrite vmIDToSegments_build, Hvifs. by eexists. }
  assert (is_Some (podNodeIDToSegments s !! N)) as [nN HnN].
  { subst s. rewrite podNodeIDToSegments_build.
    assert (I1 ∈ vifsAt (podNodeIDToAllVifs (convertDBInfo rawData s0)) N) as Hin.
    { by apply podNodeIDToAllVifs_spec. }
    apply elem_of_vifsAt in Hin as (X & -> & _). by eexists. }
  clearbody s.
  assert (∀ V2 vif, includes (GetVMIDSegments V2 s).1 vif →
            ∃ p, onVM rawData V2 p ∧ vif_Mac (deref p) ≠ ""
                 ∧ shown (deref p) = shown vif) as Honly.
  { intros V2 vif Hin. unfold GetVMIDSegments in Hin.
    rewrite getSegmentsByID_spec in Hin. simpl in Hin.
    destruct (vmIDToSegments s !! V2) as [n|] eqn:Hn; simpl in Hin.
    - by apply (includes_holds deref n _ vif (Hvm _ _ Hn)) in Hin.
    - rewrite map_to_list_empty, range_order_nil in Hin.
      destruct Hin as (seg & Hseg & _). by apply elem_of_nil in Hseg. }
  split; [|split; [|split]].
  - unfold GetPodNodeSegments. rewrite getSegmentsByID_spec, HnN. simpl.
    split; apply (includes_holds deref nN _ _ (Hpn _ _ HnN)); eauto.
  - intros [n Hn]%HkeyV.
    unfold GetVMIDSegments. rewrite getSegmentsByID_spec, Hn. simpl.
    split; apply (includes_holds deref n _ _ (Hvm _ _ Hn)).
    + exists I1. split; [|done]. right. eauto.
    + exists I2. split; [|done]. right. eauto.
  - done.
  - intros V2 vif Hnone Hin. apply Honly in Hin as (p & Hp & _ & Hshown).
    by eapply Hnone.
Qed.

(** C5 (as amended). [add] leaves the grouping untouched for an interface
    without MAC; hence, whatever calls came before, no segment returned by
    an entity query or by the gateway list holds an empty MAC, and no such
    answer includes an interface without MAC. *)
Theorem empty_mac_never_indexed (cs : list Call) c :
  isIndexQuery c = true →
  (∀ vif n, vif_Mac vif = "" → NetworkMacs_add vif n = n)
  ∧ Forall (λ seg, "" ∉ seg_Mac seg) (call deref c (run deref cs newSegment)).1
  ∧ (∀ vif, vif_Mac vif = "" →
       ¬ includes (call deref c (run deref cs newSegment)).1 vif).
Proof.
  intros Hc.
  assert (∀ seg, seg ∈ (call deref c (run deref cs newSegment)).1 → "" ∉ seg_Mac seg)
    as Hsegs.
  { intros seg Hseg. eapply indexQuery_noEmptyMac; [|done..].
    apply run_invariant; [apply indicesNoEmptyMac_new|apply indicesNoEmptyMac_call]. }
  split; [|split].
  - intros vif n Hmac. unfold NetworkMacs_add. by rewrite decide_True.
  - by apply Forall_forall.
  - intros vif Hmac (seg & Hseg & Hin). apply (Hsegs seg Hseg).
    unfold pairsOf, shown in Hin. rewrite Hmac in Hin.
    by apply elem_of_zip_l in Hin.
Qed.

(** C6. Reading the gateway list, flattening the gateway index, and the
    whole build pass leave the used set as it is; so the catch-all pass
    gives the same result after them as before, whatever the device list
    holds. *)
Theorem gateway_outside_claim_accounting rawData rawData' s :
  (call deref CallGetAllGatewayHostSegments s).2 = s
  ∧ GetAllGatewayHostSegments (generateGatewayHostSegments s)
    = allGatewayHostSegments (generateGatewayHostSegments s)
  ∧ vtapUsedVInterfaceIDs (generateGatewayHostSegments s) = vtapUsedVInterfaceIDs s
  ∧ vtapUsedVInterfaceIDs (generateBaseSegments deref rawData' s)
    = vtapUsedVInterfaceIDs s
  ∧ GetNotVtapUsedSegments
      (GenerateNoVTapUsedSegments deref rawData
         (call deref CallGetAllGatewayHostSegments s).2)
    = GetNotVtapUsedSegments (GenerateNoVTapUsedSegments deref rawData s)
  ∧ GetNotVtapUsedSegments
      (GenerateNoVTapUsedSegments deref rawData (generateGatewayHostSegments s))
    = GetNotVtapUsedSegments (GenerateNoVTapUsedSegments deref rawData s)
  ∧ GetNotVtapUsedSegments
      (GenerateNoVTapUsedSegments deref rawData
         (generateBaseSegments deref rawData' s))
    = GetNotVtapUsedSegments (GenerateNoVTapUsedSegments deref rawData s).
Proof.
  repeat split; try done; by rewrite !GenerateNoVTapUsedSegments_spec.
Qed.

(** C7 (as amended). Building twice from the same snapshot leaves, with the
    used set cleared, an engine that agrees with the engine built once on
    the two closures and, up to the order of the entries, on every index
    and on the gateway list; so every sequence of calls gets the same
    answers after two builds as after one, up to the order of the segments
    and the order within each segment, and leaves the same used set and the
    same catch-all list.  Each build and each pass of calls ranges over its
    maps and sets in an order of its own. *)
Theorem rebuild_idempotent rawData s (cs : list Call)
    (RO1 RO2 RO3 RO4 RO5 : RangeOrder) :
  let twice :=
    ClearVTapUsedVInterfaceIDs
      (generateBaseSegments (RO:=RO2) deref rawData
         (generateBaseSegments (RO:=RO1) deref rawData s)) in
  let once :=
    ClearVTapUsedVInterfaceIDs (generateBaseSegments (RO:=RO3) deref rawData s) in
  engineUpToOrder twice once
  ∧ podNodeIDToAllVifs twice = podNodeIDToAllVifs once
  ∧ vmIDToPodNodeAllVifs twice = vmIDToPodNodeAllVifs once
  ∧ Forall2 answerUpToOrder (answers (RO:=RO4) deref cs twice)
                            (answers (RO:=RO5) deref cs once)
  ∧ vtapUsedVInterfaceIDs (run (RO:=RO4) deref cs twice)
    = vtapUsedVInterfaceIDs (run (RO:=RO5) deref cs once)
  ∧ GetNotVtapUsedSegments (run (RO:=RO4) deref cs twice)
    = GetNotVtapUsedSegments (run (RO:=RO5) deref cs once).
Proof.
  intros twice once.
  assert (engineUpToOrder twice once) as Hsame.
  { destruct (build_order deref RO2 RO3 rawData
                (generateBaseSegments (RO:=RO1) deref rawData s) s)
      as (Hl & Hh & Hg & Hv & Hp & Ha & _ & Hnot); [done..|].
    by repeat split. }
  destruct (convertDBInfo_order RO2 RO3 rawData
              (generateBaseSegments (RO:=RO1) deref rawData s) s) as [Hpn Hvm].
  destruct (run_order deref RO4 RO5 cs twice once Hsame)
    as (_ & _ & _ & _ & _ & _ & Hused & Hnot).
  split; [done|]. split; [exact Hpn|]. split; [exact Hvm|].
  split; [by apply answers_order|]. by split.
Qed.

(** C8. A per-entity lookup of a key unknown to its index returns the empty
    list and leaves the engine, hence the used set, as it is. *)
Theorem unknown_key_empty c s :
  isPerEntityQuery c = true →
  entryOf c s = None →
  call deref c s = ([], s).
Proof.
  destruct c; try done; intros _ Hn; simpl in *.
  - unfold GetLaunchServerSegments, getSegmentsByServer. by rewrite Hn.
  - unfold GetVMIDSegments, getSegmentsByID. by rewrite Hn.
  - unfold GetHostIDSegments, getSegmentsByID. by rewrite Hn.
  - unfold GetPodNodeSegments, getSegmentsByID. by rewrite Hn.
Qed.

(** C9. Every call other than [ClearVTapUsedVInterfaceIDs] keeps every id
    of the used set, so the set only grows along any sequence of calls
    without it; [ClearVTapUsedVInterfaceIDs] empties it. *)
Theorem claimed_set_monotone (cs : list Call) s :
  CallClearVTapUsedVInterfaceIDs ∉ cs →
  vtapUsedVInterfaceIDs s ⊆ vtapUsedVInterfaceIDs (run deref cs s)
  ∧ vtapUsedVInterfaceIDs (ClearVTapUsedVInterfaceIDs (run deref cs s)) = ∅.
Proof.
  intros Hcs. split; [|done].
  induction cs as [|c cs IH] using rev_ind; [done|].
  rewrite run_snoc. etrans; [apply IH; set_solver|].
  destruct (isEntityQuery c) eqn:Hq.
  { rewrite call_entity_state by done. simpl. set_solver. }
  destruct c; try done; simpl.
  - by rewrite GenerateNoVTapUsedSegments_spec.
  - set_solver.
Qed.

(** C10. The combined VM-type query always returns exactly one segment,
    with id 1; when neither key is known to its index that segment is empty
    and the engine is left as it is.  The catch-all pass, by contrast,
    returns no segment when every interface of the device list is in the
    used set. *)
Theorem typeVM_always_one_segment launchServer hostID s rawData :
  (∃ seg, (GetTypeVMSegments launchServer hostID s).1 = [seg] ∧ seg_Id seg = 1)
  ∧ (launchServerToSegments s !! launchServer = None →
     hostIDToSegments s !! hostID = None →
     GetTypeVMSegments launchServer hostID s
     = ([ {| seg_Id := 1; seg_Mac := []; seg_InterfaceId := [] |} ], s))
  ∧ (Forall (λ p, vif_ID (deref p) ∈ vtapUsedVInterfaceIDs s) (deviceVifs rawData) →
     GetNotVtapUsedSegments (GenerateNoVTapUsedSegments deref rawData s) = []).
Proof.
  split; [|split].
  - rewrite GetTypeVMSegments_spec. simpl. eauto.
  - intros Hl Hh. rewrite GetTypeVMSegments_spec. simpl. rewrite Hl, Hh. simpl.
    unfold walk. rewrite map_to_list_empty, range_order_nil. simpl.
    by rewrite !(left_id_L ∅ (∪)), set_vtapUsed_same.
  - intros Hall. rewrite GenerateNoVTapUsedSegments_spec. simpl.
    unfold unclaimed. induction Hall as [|p l Hp _ IH]; [done|].
    by rewrite filter_cons_False by (intros Hn; by apply Hn).
Qed.

End Claims.

(** * The claims on the sample snapshots *)

(** The scenario of the specification, under two iteration orders: the
    lookup of VM 100 gives one segment per network, in an order and with an
    inner order that follow the iteration; the catch-all pass that follows
    gives the interface of host 1 either way. *)
Example spec_scenario_listed :
  (GetVMIDSegments (RO:=listed_order) 100 (freshEngine specRaw)).1
  = [ {| seg_Id := 10; seg_Mac := ["a2"]; seg_InterfaceId := [2] |};
      {| seg_Id := 20; seg_Mac := ["a4"; "a3"]; seg_InterfaceId := [4; 3] |} ]
  ∧ GetNotVtapUsedSegments
      (GenerateNoVTapUsedSegments sampleVif specRaw
         (GetVMIDSegments (RO:=listed_order) 100 (freshEngine specRaw)).2)
    = [ {| seg_Id := 1; seg_Mac := ["a1"]; seg_InterfaceId := [1] |} ].
Proof. split; vm_compute; reflexivity. Qed.

Example spec_scenario_reversed :
  (GetVMIDSegments (RO:=reversed_order) 100
     (ClearVTapUsedVInterfaceIDs
        (generateBaseSegments (RO:=reversed_order) sampleVif specRaw newSegment))).1
  = [ {| seg_Id := 20; seg_Mac := ["a3"; "a4"]; seg_InterfaceId := [3; 4] |};
      {| seg_Id := 10; seg_Mac := ["a2"]; seg_InterfaceId := [2] |} ]
  ∧ GetNotVtapUsedSegments
      (GenerateNoVTapUsedSegments sampleVif specRaw
         (GetVMIDSegments (RO:=reversed_order) 100
            (ClearVTapUsedVInterfaceIDs
               (generateBaseSegments (RO:=reversed_order) sampleVif specRaw
                  newSegment))).2)
    = [ {| seg_Id := 1; seg_Mac := ["a1"]; seg_InterfaceId := [1] |} ].
Proof. split; vm_compute; reflexivity. Qed.

(** C1 on [hostRaw]: host 1 claims interfaces 1 and 2, interface 3 is left. *)
Lemma notYetClaimed_exact_witness :
  GetNotVtapUsedSegments
    (GenerateNoVTapUsedSegments sampleVif hostRaw
       (GetHostIDSegments (RO:=listed_order) 1 (freshEngine hostRaw)).2)
  = [ {| seg_Id := 1; seg_Mac := ["a3"]; seg_InterfaceId := [3] |} ].
Proof.
  destruct (notYetClaimed_exact (RO:=listed_order) sampleVif hostRaw newSegment)
    as (_ & Hclaims & Hrest).
  apply (Hrest 1 1%nat 2%nat 3%nat).
  - apply (Hclaims 1 1%nat 2%nat); [reflexivity|discriminate..].
  - reflexivity.
  - discriminate.
  - discriminate.
Defined.

(** C2 fails as stated on [wideRaw]: the entry of host 1 has the one network
    id 4294967306, and the one segment returned has id 10. *)
Lemma network_id_truncated :
  map_to_list (default ∅ (entryOf (CallGetHostIDSegments 1) (freshEngine wideRaw)))
  = [ (4294967306, [ {| Mac := "a7"; ID := 7 |} ]) ]
  ∧ (call (RO:=listed_order) sampleVif (CallGetHostIDSegments 1) (freshEngine wideRaw)).1
    = [ {| seg_Id := 10; seg_Mac := ["a7"]; seg_InterfaceId := [7] |} ].
Proof. split; vm_compute; reflexivity. Qed.

(** C2 as amended, on host 1 of [hostRaw]. *)
Lemma perEntity_one_segment_per_network_witness :
  ∃ entries : list (Z * list MacID),
    entries ≡ₚ map_to_list
                 (default ∅ (entryOf (CallGetHostIDSegments 1) (freshEngine hostRaw)))
    ∧ NoDup entries.*1
    ∧ (call (RO:=listed_order) sampleVif (CallGetHostIDSegments 1)
         (freshEngine hostRaw)).1
      = segmentOfEntry <$> entries
    ∧ seg_Id <$> (call (RO:=listed_order) sampleVif (CallGetHostIDSegments 1)
                    (freshEngine hostRaw)).1
      = uint32 <$> entries.*1
    ∧ (Forall (λ k, 0 ≤ k < 2 ^ 32) entries.*1 →
       seg_Id <$> (call (RO:=listed_order) sampleVif (CallGetHostIDSegments 1)
                     (freshEngine hostRaw)).1
       = entries.*1).
Proof.
  apply (perEntity_one_segment_per_network (RO:=listed_order) sampleVif
           (CallGetHostIDSegments 1) (freshEngine hostRaw)); reflexivity.
Defined.

(** C3 on [topoRaw]: the combined query over two networks. *)
Lemma fixed_id_convention_witness :
  Forall (λ seg, seg_Id seg = 1)
    (call (RO:=listed_order) sampleVif (CallGetTypeVMSegments "srv" 1)
       (run (RO:=listed_order) sampleVif [CallGenerateBaseSegments topoRaw]
          newSegment)).1.
Proof.
  apply (fixed_id_convention (RO:=listed_order) sampleVif
           [CallGenerateBaseSegments topoRaw] (CallGetTypeVMSegments "srv" 1)).
  reflexivity.
Defined.

(** C4 fails as stated on [bareVmRaw]: pod 8 (interface 4) runs on pod-node 7
    (interface 3) owned by VM 100, yet the lookup of VM 100, which has no
    interface of its own in the snapshot, returns nothing, while its launch
    server does get both interfaces; and the lookup of VM 200, which does
    not own pod-node 7 but has interface 4 attached, returns interface 4. *)
Lemma closure_misses_bare_vm :
  podNodeIDToVmID bareVmRaw !! 7 = Some 100
  ∧ vmIDToVifs bareVmRaw !! 100 = None
  ∧ (GetPodNodeSegments (RO:=listed_order) 7 (freshEngine bareVmRaw)).1
  = [ {| seg_Id := 20; seg_Mac := ["a4"; "a3"]; seg_InterfaceId := [4; 3] |} ]
  ∧ (GetVMIDSegments (RO:=listed_order) 100 (freshEngine bareVmRaw)).1 = []
  ∧ (GetLaunchServerSegments (RO:=listed_order) "srv" (freshEngine bareVmRaw)).1
    = [ {| seg_Id := 20; seg_Mac := ["a4"; "a3"]; seg_InterfaceId := [4; 3] |} ]
  ∧ (GetVMIDSegments (RO:=listed_order) 200 (freshEngine bareVmRaw)).1
    = [ {| seg_Id := 20; seg_Mac := ["a4"]; seg_InterfaceId := [4] |} ].
Proof. repeat split; vm_compute; reflexivity. Qed.

(** C4 as amended, on [topoRaw]: pod 8 (interface 4) on pod-node 7
    (interface 3) owned by VM 100; VM 200 reaches neither. *)
Lemma closure_completeness_witness :
  (includes (GetPodNodeSegments (RO:=listed_order) 7
               (generateBaseSegments (RO:=listed_order) sampleVif topoRaw newSegment)).1
     (sampleVif 4)
   ∧ includes (GetPodNodeSegments (RO:=listed_order) 7
                 (generateBaseSegments (RO:=listed_order) sampleVif topoRaw newSegment)).1
       (sampleVif 3))
  ∧ (includes (GetVMIDSegments (RO:=listed_order) 100
                 (generateBaseSegments (RO:=listed_order) sampleVif topoRaw newSegment)).1
       (sampleVif 4)
     ∧ includes (GetVMIDSegments (RO:=listed_order) 100
                   (generateBaseSegments (RO:=listed_order) sampleVif topoRaw newSegment)).1
         (sampleVif 3))
  ∧ (¬ includes (GetVMIDSegments (RO:=listed_order) 200
                   (generateBaseSegments (RO:=listed_order) sampleVif topoRaw newSegment)).1
         (sampleVif 4)
     ∧ ¬ includes (GetVMIDSegments (RO:=listed_order) 200
                     (generateBaseSegments (RO:=listed_order) sampleVif topoRaw newSegment)).1
           (sampleVif 3)).
Proof.
  destruct (closure_completeness (RO:=listed_order) sampleVif topoRaw newSegment
              7 100 8 4%nat 3%nat {[8]}) as (Hpn & Hvm & _ & Hnot).
  - exists 7, {| pn_ID := 7 |}. split; reflexivity.
  - reflexivity.
  - by apply elem_of_singleton.
  - change (4%nat ∈ ({[4%nat]} : gset nat)). by apply elem_of_singleton.
  - change (3%nat ∈ ({[3%nat]} : gset nat)). by apply elem_of_singleton.
  - discriminate.
  - discriminate.
  - reflexivity.
  - assert (∀ p, onVM topoRaw 200 p → p = 6%nat) as Honly.
    { intros p [Hp|(n & Hn & _)].
      - change (p ∈ ({[6%nat]} : gset nat)) in Hp. by apply elem_of_singleton in Hp.
      - change (({[7 := 100]} : gmap Z Z) !! n = Some 200) in Hn.
        apply lookup_singleton_Some in Hn as [_ Hn]. discriminate Hn. }
    split; [exact Hpn|]. split; [apply Hvm; by eexists|].
    split; apply Hnot; intros p ->%Honly; discriminate.
Defined.

(** C5 fails as stated on [topoRaw]: interface 5 of host 1 has no MAC; the
    lookup of host 1 leaves it out, and the catch-all pass that follows
    returns it, with its empty MAC. *)
Lemma notYetClaimed_returns_empty_mac :
  (GetHostIDSegments (RO:=listed_order) 1 (freshEngine topoRaw)).1
  = [ {| seg_Id := 10; seg_Mac := ["a1"]; seg_InterfaceId := [1] |} ]
  ∧ GetNotVtapUsedSegments
      (GenerateNoVTapUsedSegments sampleVif topoRaw
         (GetHostIDSegments (RO:=listed_order) 1 (freshEngine topoRaw)).2)
    = [ {| seg_Id := 1;
           seg_Mac := ["a2"; "a3"; "a4"; ""; "a6"; "a8"];
           seg_InterfaceId := [2; 3; 4; 5; 6; 8] |} ].
Proof. split; vm_compute; reflexivity. Qed.

(** C5 as amended, on the lookup of host 1 of [topoRaw]. *)
Lemma empty_mac_never_indexed_witness :
  (∀ vif (n : NetworkMacs), vif_Mac vif = "" → NetworkMacs_add vif n = n)
  ∧ Forall (λ seg, "" ∉ seg_Mac seg)
      (call (RO:=listed_order) sampleVif (CallGetHostIDSegments 1)
         (run (RO:=listed_order) sampleVif [CallGenerateBaseSegments topoRaw]
            newSegment)).1
  ∧ (∀ vif, vif_Mac vif = "" →
       ¬ includes
           (call (RO:=listed_order) sampleVif (CallGetHostIDSegments 1)
              (run (RO:=listed_order) sampleVif [CallGenerateBaseSegments topoRaw]
                 newSegment)).1 vif).
Proof.
  apply (empty_mac_never_indexed (RO:=listed_order) sampleVif
           [CallGenerateBaseSegments topoRaw] (CallGetHostIDSegments 1)).
  reflexivity.
Defined.

(** C6 on [topoRaw]: the gateway list holds interface 8 of gateway host 9;
    reading it claims nothing, and the catch-all pass after the lookup of
    VM 100 returns interface 8 with the rest. *)
Example gateway_list_claims_nothing :
  GetAllGatewayHostSegments (freshEngine topoRaw)
  = [ {| seg_Id := 1; seg_Mac := ["a8"]; seg_InterfaceId := [8] |} ]
  ∧ GetNotVtapUsedSegments
      (GenerateNoVTapUsedSegments sampleVif topoRaw
         (call (RO:=listed_order) sampleVif CallGetAllGatewayHostSegments
            (GetVMIDSegments (RO:=listed_order) 100 (freshEngine topoRaw)).2).2)
    = [ {| seg_Id := 1;
           seg_Mac := ["a1"; ""; "a6"; "a8"];
           seg_InterfaceId := [1; 5; 6; 8] |} ].
Proof. split; vm_compute; reflexivity. Qed.

(** C7 fails as stated on the scenario of the specification: with the
    closure of VM 100 iterated in one order by the first build and in the
    other order by the second, the lookup of VM 100 lists the interfaces of
    network 20 as 4, 3 after one build and as 3, 4 after two. *)
Lemma rebuild_reorders :
  (GetVMIDSegments (RO:=listed_order) 100
     (ClearVTapUsedVInterfaceIDs
        (generateBaseSegments (RO:=listed_order) sampleVif specRaw newSegment))).1
  = [ {| seg_Id := 10; seg_Mac := ["a2"]; seg_InterfaceId := [2] |};
      {| seg_Id := 20; seg_Mac := ["a4"; "a3"]; seg_InterfaceId := [4; 3] |} ]
  ∧ (GetVMIDSegments (RO:=listed_order) 100
       (ClearVTapUsedVInterfaceIDs
          (generateBaseSegments (RO:=reversed_order) sampleVif specRaw
             (generateBaseSegments (RO:=listed_order) sampleVif specRaw newSegment)))).1
    = [ {| seg_Id := 10; seg_Mac := ["a2"]; seg_InterfaceId := [2] |};
        {| seg_Id := 20; seg_Mac := ["a3"; "a4"]; seg_InterfaceId := [3; 4] |} ].
Proof. split; vm_compute; reflexivity. Qed.

(** C8 on [topoRaw]: host 77 is unknown. *)
Lemma unknown_key_empty_witness :
  call (RO:=listed_order) sampleVif (CallGetHostIDSegments 77) (freshEngine topoRaw)
  = ([], freshEngine topoRaw).
Proof.
  apply (unknown_key_empty (RO:=listed_order) sampleVif
           (CallGetHostIDSegments 77) (freshEngine topoRaw)); reflexivity.
Defined.

(** C9 on [topoRaw]: a build, three queries and a catch-all pass. *)
Lemma claimed_set_monotone_witness :
  vtapUsedVInterfaceIDs (freshEngine topoRaw)
  ⊆ vtapUsedVInterfaceIDs
      (run (RO:=listed_order) sampleVif
         [CallGetHostIDSegments 1; CallGenerateBaseSegments topoRaw;
          CallGetVMIDSegments 100; CallGetTypeVMSegments "srv" 1;
          CallGenerateNoVTapUsedSegments topoRaw]
         (freshEngine topoRaw))
  ∧ vtapUsedVInterfaceIDs
      (ClearVTapUsedVInterfaceIDs
         (run (RO:=listed_order) sampleVif
            [CallGetHostIDSegments 1; CallGenerateBaseSegments topoRaw;
             CallGetVMIDSegments 100; CallGetTypeVMSegments "srv" 1;
             CallGenerateNoVTapUsedSegments topoRaw]
            (freshEngine topoRaw)))
    = ∅.
Proof.
  apply (claimed_set_monotone (RO:=listed_order) sampleVif).
  intros Hin. repeat (apply elem_of_cons in Hin as [Hin|Hin]; [discriminate Hin|]).
  by apply elem_of_nil in Hin.
Defined.

(** C10 on [topoRaw]: neither key is known; and the catch-all pass over an
    empty device list. *)
Lemma typeVM_always_one_segment_witness :
  GetTypeVMSegments (RO:=listed_order) "nosuch" 77 (freshEngine topoRaw)
  = ([ {| seg_Id := 1; seg_Mac := []; seg_InterfaceId := [] |} ], freshEngine topoRaw)
  ∧ GetNotVtapUsedSegments
      (GenerateNoVTapUsedSegments sampleVif emptyRaw (freshEngine topoRaw)) = [].
Proof.
  destruct (typeVM_always_one_segment (RO:=listed_order) sampleVif "nosuch" 77
              (freshEngine topoRaw) emptyRaw) as (_ & Hnone & Hall).
  split; [apply Hnone; reflexivity|apply Hall; constructor].
Defined.

(** * Further properties of the engine *)

(** ** Supporting facts *)

Section MoreFacts.
Context {vifptr : Type} `{Countable vifptr}.
Context (deref : vifptr → VInterface).
Context {RO : RangeOrder}.
Implicit Types (rawData : PlatformRawData (vifptr:=vifptr)).
Implicit Types (s : Segment (vifptr:=vifptr)) (n : NetworkMacs).
Implicit Types (c : Call (vifptr:=vifptr)) (vif : VInterface).

Lemma uint32_range x : 0 ≤ uint32 x < 2 ^ 32.
Proof. unfold uint32. by apply Z.mod_pos_bound. Qed.

(** Calls other than a build leave the indices alone, along any run. *)
Lemma sameIndices_run (cs : list Call) s :
  (∀ rawData, CallGenerateBaseSegments rawData ∉ cs) →
  sameIndices s (run deref cs s).
Proof.
  intros Hcs. induction cs as [|c cs IH] using rev_ind; [apply sameIndices_refl|].
  rewrite run_snoc. eapply sameIndices_trans.
  - apply IH. intros rawData Hin. apply (Hcs rawData). set_solver.
  - apply call_sameIndices. intros rawData ->. apply (Hcs rawData). set_solver.
Qed.

Lemma entryOf_sameIndices c s s' : sameIndices s s' → entryOf c s = entryOf c s'.
Proof. intros (Hl&Hh&_&Hv&Hp&_). destruct c; simpl; congruence. Qed.

(** The answer of an index query is a function of the indices. *)
Lemma call_answer_sameIndices c s s' :
  sameIndices s s' → isIndexQuery c = true →
  (call deref c s).1 = (call deref c s').1.
Proof.
  intros Hs Hc. destruct (isPerEntityQuery c) eqn:Hper.
  - rewrite !call_perEntity_answer by done. by rewrite (entryOf_sameIndices c s s' Hs).
  - destruct Hs as (Hl&Hh&_&_&_&Ha). destruct c; try done; simpl.
    rewrite !GetTypeVMSegments_spec. simpl. by rewrite Hl, Hh.
Qed.

(** *** Well-formed segments *)

Lemma wellFormed_segmentOfEntry (e : Z * list MacID) : wellFormed (segmentOfEntry e).
Proof.
  split; [|split]; simpl.
  - by rewrite !length_fmap.
  - apply uint32_range.
  - apply Forall_fmap, Forall_forall. intros m _. apply uint32_range.
Qed.

Lemma wellFormed_fixedSegment (l : list MacID) : wellFormed (fixedSegment l).
Proof.
  split; [|split]; simpl.
  - by rewrite !length_fmap.
  - done.
  - apply Forall_fmap, Forall_forall. intros m _. apply uint32_range.
Qed.

Lemma wellFormed_catchAll (vifs : list vifptr) : Forall wellFormed (catchAll deref vifs).
Proof.
  unfold catchAll. destruct vifs as [|p vifs]; [constructor|].
  apply Forall_singleton. split; [|split]; cbn [seg_Mac seg_InterfaceId seg_Id].
  - by rewrite !length_fmap.
  - done.
  - apply Forall_fmap, Forall_forall. intros q _. apply uint32_range.
Qed.

Lemma cachesWellFormed_new : cachesWellFormed (newSegment (vifptr:=vifptr)).
Proof. split; constructor. Qed.

Lemma cachesWellFormed_call c s :
  cachesWellFormed s → cachesWellFormed (call deref c s).2.
Proof.
  intros [Hgw Hnot]. destruct (isEntityQuery c) eqn:Hq.
  { rewrite call_entity_state by done. by split. }
  destruct c; try done; simpl.
  - split; [|done]. apply Forall_forall. intros seg Hseg.
    change (seg ∈ allGatewayHostSegments
                    (generateGatewayHostSegments
                       (generateBaseSegmentsFromDB deref rawData
                          (convertDBInfo rawData s)))) in Hseg.
    apply elem_of_allGatewayHostSegments in Hseg as (h & n & k & l & _ & _ & ->).
    apply wellFormed_fixedSegment.
  - rewrite GenerateNoVTapUsedSegments_spec. split; [done|]. apply wellFormed_catchAll.
Qed.

Lemma call_wellFormed c s :
  cachesWellFormed s → Forall wellFormed (call deref c s).1.
Proof.
  intros [Hgw Hnot]. destruct (isPerEntityQuery c) eqn:Hper.
  { rewrite call_perEntity_answer by done. apply Forall_fmap, Forall_forall.
    intros e _. apply wellFormed_segmentOfEntry. }
  destruct c; try done; simpl; try by constructor.
  rewrite GetTypeVMSegments_spec. simpl.
  apply Forall_singleton, wellFormed_fixedSegment.
Qed.

(** *** Groups are never empty *)

Lemma nonEmptyGroups_empty : nonEmptyGroups ∅.
Proof. intros k l. by rewrite lookup_empty. Qed.

Lemma nonEmptyGroups_add (v : VInterface) n :
  nonEmptyGroups n → nonEmptyGroups (NetworkMacs_add v n).
Proof.
  intros Hn. unfold NetworkMacs_add. case_decide; [done|].
  destruct (n !! vif_NetworkID v) as [l0|]; intros k l;
    rewrite lookup_insert_Some; (intros [[_ <-]|[_ Hk]]; [|by eapply Hn]).
  - by destruct l0.
  - done.
Qed.

Lemma nonEmptyGroups_fold (l : list VInterface) n :
  nonEmptyGroups n → nonEmptyGroups (foldl (λ n v, NetworkMacs_add v n) n l).
Proof.
  revert n. induction l as [|v l IH]; intros n Hn; [done|].
  simpl. by apply IH, nonEmptyGroups_add.
Qed.

Lemma nonEmptyGroups_addVifs (vifs : gset vifptr) n :
  nonEmptyGroups n → nonEmptyGroups (addVifs deref vifs n).
Proof. rewrite (addVifs_fold deref). apply nonEmptyGroups_fold. Qed.

Lemma nonEmptyGroups_addVifsOf (t : gmap Z (gset vifptr)) id n :
  nonEmptyGroups n → nonEmptyGroups (addVifsOf deref t id n).
Proof. rewrite addVifsOf_vifsAt. apply nonEmptyGroups_addVifs. Qed.

Lemma nonEmptyGroups_launch (t d : gmap Z (gset vifptr)) (l : list Z) :
  nonEmptyGroups
    (foldl (λ n id, addVifsOf deref t id (addVifsOf deref d id n)) newNetworkMacs l).
Proof. rewrite (launch_fold deref). apply nonEmptyGroups_fold, nonEmptyGroups_empty. Qed.

(** The entries of the four per-entity indices after a build. *)
Lemma build_entry_nonEmpty rawData s c n :
  entryOf c (generateBaseSegments deref rawData s) = Some n → nonEmptyGroups n.
Proof.
  destruct c; cbn [entryOf]; try done.
  - rewrite launchServerToSegments_build, fmap_Some. intros (vmids & _ & ->).
    apply nonEmptyGroups_launch.
  - rewrite vmIDToSegments_build, fmap_Some. intros (vifs & _ & ->).
    apply nonEmptyGroups_addVifsOf, nonEmptyGroups_addVifs, nonEmptyGroups_empty.
  - rewrite hostIDToSegments_build, fmap_Some. intros (vifs & _ & ->).
    apply nonEmptyGroups_addVifs, nonEmptyGroups_empty.
  - rewrite podNodeIDToSegments_build, fmap_Some. intros (vifs & _ & ->).
    apply nonEmptyGroups_addVifs, nonEmptyGroups_empty.
Qed.

Lemma build_gateway_nonEmpty rawData s h n :
  gatewayHostIDToSegments (generateBaseSegments deref rawData s) !! h = Some n →
  nonEmptyGroups n.
Proof.
  rewrite gatewayHostIDToSegments_build, fmap_Some. intros (vifs & _ & ->).
  apply nonEmptyGroups_addVifs, nonEmptyGroups_empty.
Qed.

Lemma storesNoEmptyGroup_new : storesNoEmptyGroup (newSegment (vifptr:=vifptr)).
Proof.
  unfold storesNoEmptyGroup, newSegment. simpl.
  unfold newServerToNetworkMacs, newIDToNetworkMacs.
  repeat split; try (intros ? ?; by rewrite lookup_empty);
    intros seg Hseg; by apply elem_of_nil in Hseg.
Qed.

Lemma storesNoEmptyGroup_build rawData s :
  (∀ seg, seg ∈ notVtapUsedSegments s → seg_Mac seg ≠ []) →
  storesNoEmptyGroup (generateBaseSegments deref rawData s).
Proof.
  intros Hnot. split; [|split; [|split; [|split; [|split; [|split]]]]].
  - intros k n. apply (build_entry_nonEmpty rawData s (CallGetLaunchServerSegments k)).
  - intros k n. apply (build_entry_nonEmpty rawData s (CallGetHostIDSegments k)).
  - intros k n. apply build_gateway_nonEmpty.
  - intros k n. apply (build_entry_nonEmpty rawData s (CallGetVMIDSegments k)).
  - intros k n. apply (build_entry_nonEmpty rawData s (CallGetPodNodeSegments k)).
  - intros seg Hseg.
    change (seg ∈ allGatewayHostSegments
                    (generateGatewayHostSegments
                       (generateBaseSegmentsFromDB deref rawData
                          (convertDBInfo rawData s)))) in Hseg.
    apply elem_of_allGatewayHostSegments in Hseg as (h & n & k & l & Hh & Hk & ->).
    simpl. intros Hnil%fmap_nil_inv.
    by eapply (build_gateway_nonEmpty rawData s h n).
  - exact Hnot.
Qed.

Lemma storesNoEmptyGroup_call c s :
  storesNoEmptyGroup s → storesNoEmptyGroup (call deref c s).2.
Proof.
  intros Hs. destruct (isEntityQuery c) eqn:Hq.
  { rewrite call_entity_state by done. exact Hs. }
  destruct c; try done; simpl.
  - apply storesNoEmptyGroup_build. apply Hs.
  - rewrite GenerateNoVTapUsedSegments_spec.
    destruct Hs as (Hl&Hh&Hg&Hv&Hp&Ha&_).
    split; [|split; [|split; [|split; [|split; [|split]]]]]; try done.
    simpl. intros seg Hseg. unfold catchAll in Hseg.
    destruct (unclaimed _ _ _); [by apply elem_of_nil in Hseg|].
    by apply list_elem_of_singleton in Hseg as ->.
Qed.

Lemma call_nonEmpty c s seg :
  storesNoEmptyGroup s → isCombinedQuery c = false →
  seg ∈ (call deref c s).1 → seg_Mac seg ≠ [].
Proof.
  intros Hs Hc Hseg. destruct (isPerEntityQuery c) eqn:Hper.
  - rewrite call_perEntity_answer in Hseg by done.
    apply list_elem_of_fmap in Hseg as ([k l] & -> & Hkl).
    apply elem_of_range_order_map in Hkl. simpl.
    destruct (entryOf c s) as [n|] eqn:Hn; simpl in Hkl;
      [|by rewrite lookup_empty in Hkl].
    assert (nonEmptyGroups n) as Hne.
    { destruct Hs as (Hl&Hh&_&Hv&Hp&_). destruct c; simpl in Hn; try done; eauto. }
    intros Hnil%fmap_nil_inv. by eapply Hne.
  - destruct Hs as (_&_&_&_&_&Hgw&Hnot).
    destruct c; try done; simpl in Hseg; try (by apply elem_of_nil in Hseg).
    + by apply Hgw.
    + by apply Hnot.
Qed.

(** *** The catch-all cache *)

Lemma call_notVtap c s :
  (∀ rawData, c ≠ CallGenerateNoVTapUsedSegments rawData) →
  notVtapUsedSegments (call deref c s).2 = notVtapUsedSegments s.
Proof.
  intros Hc. destruct (isEntityQuery c) eqn:Hq.
  { by rewrite call_entity_state. }
  destruct c; try done. by destruct (Hc rawData).
Qed.

Lemma filter_sublist_impl {A} (P Q : A → Prop)
    `{∀ x, Decision (P x)} `{∀ x, Decision (Q x)} (l : list A) :
  (∀ x, P x → Q x) → filter P l `sublist_of` filter Q l.
Proof.
  intros HPQ. induction l as [|x l IH]; [done|].
  rewrite !filter_cons. destruct (decide (P x)) as [HP|HP].
  - rewrite decide_True by auto. by constructor.
  - destruct (decide (Q x)); [by apply sublist_cons|done].
Qed.

Lemma catchAll_macs (vifs : list vifptr) :
  mjoin (seg_Mac <$> catchAll deref vifs) = (λ p, vif_Mac (deref p)) <$> vifs.
Proof. destruct vifs; simpl; [done|]. by rewrite app_nil_r. Qed.

Lemma catchAll_ids (vifs : list vifptr) :
  mjoin (seg_InterfaceId <$> catchAll deref vifs)
  = (λ p, uint32 (vif_ID (deref p))) <$> vifs.
Proof. destruct vifs; simpl; [done|]. by rewrite app_nil_r. Qed.

Lemma unclaimed_empty rawData : unclaimed deref rawData ∅ = deviceVifs rawData.
Proof.
  unfold unclaimed. induction (deviceVifs rawData) as [|p l IH]; [done|].
  rewrite filter_cons_True by set_solver. by rewrite IH.
Qed.

(** *** The combined query against the two lookups *)

Lemma join_pairsOf (es : list (Z * list MacID)) :
  mjoin (pairsOf <$> (segmentOfEntry <$> es))
  = (λ m, (Mac m, uint32 (ID m))) <$> mjoin es.*2.
Proof.
  induction es as [|[k l] es IH]; [done|].
  rewrite !fmap_cons. simpl. by rewrite fmap_app, IH, pairsOf_segmentOfEntry.
Qed.

Lemma join_seg_Mac (es : list (Z * list MacID)) :
  mjoin (seg_Mac <$> (segmentOfEntry <$> es)) = Mac <$> mjoin es.*2.
Proof.
  induction es as [|[k l] es IH]; [done|].
  rewrite !fmap_cons. simpl. by rewrite fmap_app, IH.
Qed.

Lemma join_seg_InterfaceId (es : list (Z * list MacID)) :
  mjoin (seg_InterfaceId <$> (segmentOfEntry <$> es))
  = (λ m, uint32 (ID m)) <$> mjoin es.*2.
Proof.
  induction es as [|[k l] es IH]; [done|].
  rewrite !fmap_cons. simpl. by rewrite fmap_app, IH.
Qed.

End MoreFacts.

(** *** Answers under two iteration orders *)

Section MoreOrderFacts.
Context {vifptr : Type} `{Countable vifptr}.
Context (deref : vifptr → VInterface).
Implicit Types (s : Segment (vifptr:=vifptr)) (c : Call (vifptr:=vifptr)).

(** The answer of an index query on two engines whose indices agree up to
    order, under any two iteration orders. *)
Lemma index_answer_order (RO1 RO2 : RangeOrder) c s s' :
  indicesUpToOrder s s' → isIndexQuery c = true →
  answerUpToOrder (call (RO:=RO1) deref c s).1 (call (RO:=RO2) deref c s').1.
Proof.
  intros (Hl & Hh & Hg & Hv & Hp & Ha) Hc.
  destruct (call_order deref RO1 RO2 c s
              (set_vtapUsedVInterfaceIDs (vtapUsedVInterfaceIDs s)
                 (set_notVtapUsedSegments (notVtapUsedSegments s) s')))
    as [Hanswer _]; [by repeat split|].
  rewrite (call_answer_sameIndices (RO:=RO2) deref c s'
             (set_vtapUsedVInterfaceIDs (vtapUsedVInterfaceIDs s)
                (set_notVtapUsedSegments (notVtapUsedSegments s) s')));
    [done|by repeat split|done].
Qed.

End MoreOrderFacts.

(** *** What the built indices hold, by query *)

Section ReachFacts.
Context {vifptr : Type} `{Countable vifptr}.
Context (deref : vifptr → VInterface).
Context {RO : RangeOrder}.
Implicit Types (rawData : PlatformRawData (vifptr:=vifptr)).
Implicit Types (s : Segment (vifptr:=vifptr)) (n : NetworkMacs).
Implicit Types (c : Call (vifptr:=vifptr)) (vif : VInterface).

Lemma holds_none (S : vifptr → Prop) : (∀ p, ¬ S p) → holds deref ∅ S.
Proof.
  intros HS. eapply holds_iff; [|apply holds_empty]. intros p. split; [done|apply HS].
Qed.

(** The entry a per-entity lookup resolves after a build holds exactly the
    interfaces the query reaches; a missing entry stands for none. *)
Lemma entry_holds rawData s0 c :
  isPerEntityQuery c = true →
  holds deref (default ∅ (entryOf c (generateBaseSegments deref rawData s0)))
        (reaches rawData c).
Proof.
  destruct c; try done; intros _; cbn [entryOf reaches].
  - destruct (launchServerToSegments _ !! launchServer) as [n|] eqn:Hn; cbn [default].
    + apply (launchServer_holds deref _ _ _ _ Hn).
    + apply holds_none. intros p (vmids & vm & Hsrv & _).
      rewrite launchServerToSegments_build, Hsrv in Hn. done.
  - destruct (vmIDToSegments _ !! vmID) as [n|] eqn:Hn; cbn [default].
    + eapply holds_iff; [|apply (vm_holds deref _ _ _ _ Hn)].
      intros p. split; [|by intros [_ ?]]. intros Hp. split; [|done].
      rewrite vmIDToSegments_build, fmap_Some in Hn.
      destruct Hn as (vifs & -> & _). by eexists.
    + apply holds_none. intros p [[vifs Hvifs] _].
      rewrite vmIDToSegments_build, Hvifs in Hn. done.
  - destruct (hostIDToSegments _ !! hostID) as [n|] eqn:Hn; cbn [default].
    + apply (host_holds deref _ _ _ _ Hn).
    + apply holds_none. intros p Hp. apply elem_of_vifsAt in Hp as (X & HX & _).
      rewrite hostIDToSegments_build, HX in Hn. done.
  - destruct (podNodeIDToSegments _ !! podNodeID) as [n|] eqn:Hn; cbn [default].
    + apply (podNode_holds deref _ _ _ _ Hn).
    + apply holds_none. intros p Hp.
      apply (podNodeIDToAllVifs_spec rawData s0) in Hp.
      apply elem_of_vifsAt in Hp as (X & HX & _).
      rewrite podNodeIDToSegments_build, HX in Hn. done.
Qed.

Lemma idsOf_empty : idsOf ∅ = ∅.
Proof. unfold idsOf. by rewrite map_to_list_empty. Qed.

Lemma idsOfEntry_default (o : option NetworkMacs) : idsOfEntry o = idsOf (default ∅ o).
Proof. destruct o; simpl; [done|]. by rewrite idsOf_empty. Qed.

Lemma claimedBy_entryOf c s :
  isPerEntityQuery c = true → claimedBy c s = idsOfEntry (entryOf c s).
Proof. by destruct c. Qed.

Lemma entry_ids rawData s0 c (x : Z) :
  isPerEntityQuery c = true →
  x ∈ idsOfEntry (entryOf c (generateBaseSegments deref rawData s0))
  ↔ ∃ p, reaches rawData c p ∧ vif_Mac (deref p) ≠ "" ∧ vif_ID (deref p) = x.
Proof.
  intros Hc. rewrite idsOfEntry_default.
  apply (idsOf_holds deref), entry_holds, Hc.
Qed.

(** The ids an entity query claims on a built engine. *)
Lemma claimedBy_reaches rawData s0 c (x : Z) :
  isEntityQuery c = true →
  x ∈ claimedBy c (generateBaseSegments deref rawData s0)
  ↔ ∃ p, reaches rawData c p ∧ vif_Mac (deref p) ≠ "" ∧ vif_ID (deref p) = x.
Proof.
  intros Hc. destruct (isPerEntityQuery c) eqn:Hper.
  { rewrite claimedBy_entryOf by done. by apply entry_ids. }
  destruct c; try done. cbn [claimedBy reaches]. rewrite elem_of_union.
  rewrite (entry_ids rawData s0 (CallGetLaunchServerSegments launchServer) x eq_refl).
  rewrite (entry_ids rawData s0 (CallGetHostIDSegments hostID) x eq_refl).
  cbn [reaches]. naive_solver.
Qed.

Lemma pairsOf_fixedSegment (l : list MacID) :
  pairsOf (fixedSegment l) = (λ m, (Mac m, uint32 (ID m))) <$> l.
Proof. apply zip_fmap_same. Qed.

Lemma walk_holds (o : option NetworkMacs) (S : vifptr → Prop) (m : MacID) :
  holds deref (default ∅ o) S →
  m ∈ walk (default ∅ o)
  ↔ ∃ p, S p ∧ vif_Mac (deref p) ≠ "" ∧ m = newMacID (deref p).
Proof.
  intros Ho. rewrite elem_of_walk. split.
  - intros (k & l & Hk & Hm).
    assert (m ∈ NetworkMacs_get (default ∅ o) k) as Hin.
    { apply elem_of_NetworkMacs_get. eauto. }
    apply Ho in Hin as (p & ? & ? & ? & ?). eauto.
  - intros (p & HS & Hmac & ->).
    assert (newMacID (deref p)
              ∈ NetworkMacs_get (default ∅ o) (vif_NetworkID (deref p))) as Hin.
    { apply Ho. eauto. }
    apply elem_of_NetworkMacs_get in Hin as (l & Hl & Hin). eauto.
Qed.

(** What the answer of an index query includes on a built engine. *)
Lemma includes_reaches rawData s0 c vif :
  isIndexQuery c = true →
  includes (call deref c (generateBaseSegments deref rawData s0)).1 vif
  ↔ ∃ p, reaches rawData c p ∧ vif_Mac (deref p) ≠ "" ∧ shown (deref p) = shown vif.
Proof.
  intros Hc. destruct (isPerEntityQuery c) eqn:Hper.
  { rewrite call_perEntity_answer by done.
    apply (includes_holds deref), entry_holds, Hper. }
  destruct c; try done.
  - cbn [call]. rewrite GetTypeVMSegments_spec. cbn [fst reaches].
    pose proof (entry_holds rawData s0 (CallGetLaunchServerSegments launchServer) eq_refl)
      as Hl.
    pose proof (entry_holds rawData s0 (CallGetHostIDSegments hostID) eq_refl) as Hh.
    cbn [entryOf reaches] in Hl, Hh. unfold includes. split.
    + intros (seg & ->%list_elem_of_singleton & Hin).
      rewrite pairsOf_fixedSegment in Hin.
      apply list_elem_of_fmap in Hin as (m & Hm & Hin).
      apply elem_of_app in Hin as [Hin|Hin].
      * apply (walk_holds _ _ _ Hl) in Hin as (p & ? & ? & ->). exists p. eauto.
      * apply (walk_holds _ _ _ Hh) in Hin as (p & ? & ? & ->). exists p. eauto.
    + intros (p & Hp & Hmac & Hshown). eexists. split; [by apply list_elem_of_singleton|].
      rewrite pairsOf_fixedSegment. apply list_elem_of_fmap.
      exists (newMacID (deref p)). split; [done|]. apply elem_of_app.
      destruct Hp as [Hp|Hp]; [left; apply (walk_holds _ _ _ Hl)
                              |right; apply (walk_holds _ _ _ Hh)]; eauto.
  - cbn [call fst reaches]. unfold GetAllGatewayHostSegments, includes. split.
    + intros (seg & Hseg & Hin).
      change (seg ∈ allGatewayHostSegments
                      (generateGatewayHostSegments
                         (generateBaseSegmentsFromDB deref rawData
                            (convertDBInfo rawData s0)))) in Hseg.
      apply elem_of_allGatewayHostSegments in Hseg as (h & n & k & l & Hh & Hk & ->).
      rewrite pairsOf_fixedSegment in Hin.
      apply list_elem_of_fmap in Hin as (m & Hm & Hin).
      assert (m ∈ NetworkMacs_get n k) as Hget.
      { apply elem_of_NetworkMacs_get. eauto. }
      apply (gateway_holds deref rawData s0 h n Hh) in Hget as (p & ? & ? & ? & ->).
      exists p. eauto.
    + intros (p & [h Hp] & Hmac & Hshown).
      apply elem_of_vifsAt in Hp as (X & HX & Hp).
      pose proof (gatewayHostIDToSegments_build deref rawData s0 h) as Hn.
      rewrite HX in Hn. cbn [fmap option_fmap option_map] in Hn.
      assert (newMacID (deref p)
                ∈ NetworkMacs_get (addVifs deref X newNetworkMacs)
                    (vif_NetworkID (deref p))) as Hget.
      { apply (gateway_holds deref rawData s0 h _ Hn). exists p.
        split; [|done]. apply elem_of_vifsAt. eauto. }
      apply elem_of_NetworkMacs_get in Hget as (l & Hl & Hget).
      exists (fixedSegment l). split.
      * change (fixedSegment l
                  ∈ allGatewayHostSegments
                      (generateGatewayHostSegments
                         (generateBaseSegmentsFromDB deref rawData
                            (convertDBInfo rawData s0)))).
        apply elem_of_allGatewayHostSegments. eauto 10.
      * rewrite pairsOf_fixedSegment. apply list_elem_of_fmap.
        exists (newMacID (deref p)). by split.
Qed.

(** *** Multiplicities *)

Lemma macIDsOn_nil k : macIDsOn deref k [] = [].
Proof. done. Qed.

Lemma macIDsOn_perm k (l l' : list vifptr) :
  l ≡ₚ l' → macIDsOn deref k l ≡ₚ macIDsOn deref k l'.
Proof. intros Hl. unfold macIDsOn. by rewrite Hl. Qed.

Lemma macIDsOn_fmap k (l : list vifptr) :
  newMacID <$> filter (λ v, vif_Mac v ≠ "" ∧ vif_NetworkID v = k) (deref <$> l)
  = macIDsOn deref k l.
Proof.
  unfold macIDsOn. induction l as [|p l IH]; [done|].
  rewrite fmap_cons, !filter_cons. simpl.
  destruct (decide (vif_Mac (deref p) ≠ "" ∧ vif_NetworkID (deref p) = k)).
  - rewrite !fmap_cons. by f_equal.
  - done.
Qed.

Lemma addVifs_get (vifs : gset vifptr) n k :
  NetworkMacs_get (addVifs deref vifs n) k
  ≡ₚ NetworkMacs_get n k ++ macIDsOn deref k (elements vifs).
Proof.
  rewrite (addVifs_fold deref), fold_add_get, macIDsOn_fmap.
  apply Permutation_app; [done|]. apply macIDsOn_perm, range_order_perm.
Qed.

Lemma bind_fmap_out {A B C} (f : B → C) (g h : A → list B) (l : list A) :
  l ≫= (λ x, (f <$> g x) ++ (f <$> h x)) = f <$> (l ≫= λ x, g x ++ h x).
Proof.
  induction l as [|x l IH]; [done|]. by rewrite !bind_cons, !fmap_app, IH.
Qed.

Lemma launch_get (t d : gmap Z (gset vifptr)) (vmids : gset Z) k :
  NetworkMacs_get
    (foldl (λ n id, addVifsOf deref t id (addVifsOf deref d id n))
           newNetworkMacs (range_order (elements vmids))) k
  ≡ₚ macIDsOn deref k
       (elements vmids ≫= λ vm, elements (vifsAt d vm) ++ elements (vifsAt t vm)).
Proof.
  rewrite (launch_fold deref), fold_add_get, NetworkMacs_get_empty. simpl.
  rewrite bind_fmap_out, macIDsOn_fmap. apply macIDsOn_perm.
  apply bind_perm_ext; [apply range_order_perm|]. intros vm.
  by rewrite !range_order_perm.
Qed.

End ReachFacts.

(** ** The properties *)

Section GroupingProperties.
Context {vifptr : Type} `{Countable vifptr}.
Context {RO : RangeOrder}.
Implicit Types (rawData : PlatformRawData (vifptr:=vifptr)).
Implicit Types (s : Segment (vifptr:=vifptr)).

(** X1. A sequence of [add]s appends to the list of each network, in the
    order of arrival, the MacIDs of the interfaces that have a MAC and lie
    on that network: interfaces without MAC are skipped, nothing is
    de-duplicated, a network gets a key only when such an interface comes,
    and no key ever holds an empty list.  [get] of a network never added to
    is the empty list. *)
Theorem adds_append_in_order (l : list VInterface) (n : NetworkMacs) (k : Z) :
  let n' := foldl (λ n v, NetworkMacs_add v n) n l in
  NetworkMacs_get n' k
  = NetworkMacs_get n k
    ++ (newMacID <$> filter (λ v, vif_Mac v ≠ "" ∧ vif_NetworkID v = k) l)
  ∧ (is_Some (n' !! k)
     ↔ is_Some (n !! k) ∨ ∃ v, v ∈ l ∧ vif_Mac v ≠ "" ∧ vif_NetworkID v = k)
  ∧ (nonEmptyGroups n → nonEmptyGroups n')
  ∧ NetworkMacs_get newNetworkMacs k = [].
Proof.
  intros n'. subst n'. split; [apply fold_add_get|].
  split; [apply fold_add_is_Some|].
  split; [apply nonEmptyGroups_fold|apply NetworkMacs_get_empty].
Qed.

(** X2. [IDToVifs.add] stores under the key the union of what was there
    and the set added, and touches no other key; so adding the same set
    twice is adding it once, two [add]s commute, and the result does not
    depend on the order in which the set is iterated. *)
Theorem IDToVifs_add_is_union (id id' : Z) (vifs vifs' : gset vifptr)
    (t : gmap Z (gset vifptr)) :
  IDToVifs_add id vifs t = <[id := vifsAt t id ∪ vifs]> t
  ∧ IDToVifs_add id vifs (IDToVifs_add id vifs t) = IDToVifs_add id vifs t
  ∧ IDToVifs_add id vifs (IDToVifs_add id' vifs' t)
    = IDToVifs_add id' vifs' (IDToVifs_add id vifs t)
  ∧ ∀ RO' : RangeOrder, IDToVifs_add (RO:=RO') id vifs t = IDToVifs_add id vifs t.
Proof.
  assert (∀ (RO1 : RangeOrder) i (X : gset vifptr) (u : gmap Z (gset vifptr)),
            IDToVifs_add (RO:=RO1) i X u = <[i := vifsAt u i ∪ X]> u) as Hadd.
  { intros RO1 i X u. apply map_eq. intros k. apply lookup_eq_vifsAt.
    - rewrite IDToVifs_add_is_Some, lookup_insert_is_Some.
      destruct (decide (i = k)); naive_solver.
    - apply set_eq. intros p. rewrite IDToVifs_add_elem, vifsAt_insert.
      case_decide; set_solver. }
  split; [apply Hadd|]. split; [|split].
  - apply map_eq. intros k. apply lookup_eq_vifsAt.
    + rewrite !IDToVifs_add_is_Some. naive_solver.
    + apply set_eq. intros p. rewrite !IDToVifs_add_elem. naive_solver.
  - apply map_eq. intros k. apply lookup_eq_vifsAt.
    + rewrite !IDToVifs_add_is_Some. naive_solver.
    + apply set_eq. intros p. rewrite !IDToVifs_add_elem. naive_solver.
  - intros RO'. by rewrite !Hadd.
Qed.

(** X3. [convertDBInfo] computes the two closures from the snapshot alone.
    The closure of a pod-node exists when the pod-node is a record of the
    snapshot and it, or one of its pods, has an interface entry; it holds
    the interfaces of the pod-node and of its pods.  The closure of a VM
    exists when a pod-node it owns has a closure, and is the union of the
    closures of the pod-nodes it owns.  Nothing else of the engine
    changes. *)
Theorem convertDBInfo_closures rawData s :
  let s' := convertDBInfo rawData s in
  (∀ n p, p ∈ vifsAt (podNodeIDToAllVifs s') n
          ↔ isPodNode rawData n ∧ onPodNode rawData n p)
  ∧ (∀ n, is_Some (podNodeIDToAllVifs s' !! n)
          ↔ isPodNode rawData n ∧ podNodeParts rawData n (λ _, True))
  ∧ (∀ vm p, p ∈ vifsAt (vmIDToPodNodeAllVifs s') vm
             ↔ ∃ n, podNodeIDToVmID rawData !! n = Some vm
                    ∧ p ∈ vifsAt (podNodeIDToAllVifs s') n)
  ∧ (∀ vm, is_Some (vmIDToPodNodeAllVifs s' !! vm)
           ↔ ∃ n, podNodeIDToVmID rawData !! n = Some vm
                  ∧ is_Some (podNodeIDToAllVifs s' !! n))
  ∧ sameIndices s s'
  ∧ vtapUsedVInterfaceIDs s' = vtapUsedVInterfaceIDs s
  ∧ notVtapUsedSegments s' = notVtapUsedSegments s
  ∧ bmDedicatedRemoteSegments s' = bmDedicatedRemoteSegments s.
Proof.
  intros s'. subst s'.
  split; [intros n p; apply podNodeIDToAllVifs_spec|].
  split; [intros n; apply podNodeIDToAllVifs_is_Some|].
  split; [|split].
  - intros vm p. rewrite vmIDToPodNodeAllVifs_spec.
    setoid_rewrite (podNodeIDToAllVifs_spec rawData s). naive_solver.
  - intros vm. rewrite vmIDToPodNodeAllVifs_is_Some.
    setoid_rewrite (podNodeIDToAllVifs_is_Some rawData s). naive_solver.
  - by repeat split.
Qed.

End GroupingProperties.

Section Properties.
Context {vifptr : Type} `{Countable vifptr}.
Context (deref : vifptr → VInterface).
Context {RO : RangeOrder}.
Implicit Types (rawData : PlatformRawData (vifptr:=vifptr)).
Implicit Types (s : Segment (vifptr:=vifptr)) (n : NetworkMacs).
Implicit Types (c : Call (vifptr:=vifptr)) (vif : VInterface).

(** X4. After a build the keys of the host, gateway-host, VM and launch
    server indices are exactly the keys of the snapshot's host, gateway
    host, VM and launch-server associations, and the keys of the pod-node
    index are exactly the keys of the pod-node closure: whatever the engine
    held before, a key the snapshot does not have is unknown. *)
Theorem index_keys rawData s :
  let built := generateBaseSegments deref rawData s in
  dom (hostIDToSegments built) = dom (hostIDToVifs rawData)
  ∧ dom (gatewayHostIDToSegments built) = dom (gatewayHostIDToVifs rawData)
  ∧ dom (vmIDToSegments built) = dom (vmIDToVifs rawData)
  ∧ dom (launchServerToSegments built) = dom (serverToVmIDs rawData)
  ∧ dom (podNodeIDToSegments built) = dom (podNodeIDToAllVifs built)
  ∧ (∀ k, k ∈ dom (podNodeIDToSegments built)
          ↔ isPodNode rawData k ∧ podNodeParts rawData k (λ _, True)).
Proof.
  intros built. subst built.
  change (podNodeIDToAllVifs (generateBaseSegments deref rawData s))
    with (podNodeIDToAllVifs (convertDBInfo rawData s)).
  split; [|split; [|split; [|split; [|split]]]].
  - apply set_eq. intros k.
    by rewrite !elem_of_dom, hostIDToSegments_build, fmap_is_Some.
  - apply set_eq. intros k.
    by rewrite !elem_of_dom, gatewayHostIDToSegments_build, fmap_is_Some.
  - apply set_eq. intros k.
    by rewrite !elem_of_dom, vmIDToSegments_build, fmap_is_Some.
  - apply set_eq. intros k.
    by rewrite !elem_of_dom, launchServerToSegments_build, fmap_is_Some.
  - apply set_eq. intros k.
    by rewrite !elem_of_dom, podNodeIDToSegments_build, fmap_is_Some.
  - intros k. rewrite elem_of_dom, podNodeIDToSegments_build, fmap_is_Some.
    apply podNodeIDToAllVifs_is_Some.
Qed.

(** X5. The contents of the built indices, with multiplicity.  Under each
    network the entry of a host, of a gateway host and of a pod-node lists
    once each interface of its set (for a pod-node: of its closure) that
    has a MAC and lies on that network.  The entry of a VM lists its own
    interfaces followed by those of its closure, and the entry of a launch
    server does so for each of its VMs: an interface that is both a VM's
    own and in its closure is listed twice.  A VM without interfaces of its
    own in the snapshot has no entry. *)
Theorem index_entries_multiplicity rawData s (k : Z) :
  let built := generateBaseSegments deref rawData s in
  (∀ h, NetworkMacs_get (default ∅ (hostIDToSegments built !! h)) k
        ≡ₚ macIDsOn deref k (elements (vifsAt (hostIDToVifs rawData) h)))
  ∧ (∀ h, NetworkMacs_get (default ∅ (gatewayHostIDToSegments built !! h)) k
          ≡ₚ macIDsOn deref k (elements (vifsAt (gatewayHostIDToVifs rawData) h)))
  ∧ (∀ pn, NetworkMacs_get (default ∅ (podNodeIDToSegments built !! pn)) k
           ≡ₚ macIDsOn deref k (elements (vifsAt (podNodeIDToAllVifs built) pn)))
  ∧ (∀ vm, is_Some (vmIDToVifs rawData !! vm) →
           NetworkMacs_get (default ∅ (vmIDToSegments built !! vm)) k
           ≡ₚ macIDsOn deref k
                (elements (vifsAt (vmIDToVifs rawData) vm)
                 ++ elements (vifsAt (vmIDToPodNodeAllVifs built) vm)))
  ∧ (∀ vm, vmIDToVifs rawData !! vm = None → vmIDToSegments built !! vm = None)
  ∧ (∀ server,
       NetworkMacs_get (default ∅ (launchServerToSegments built !! server)) k
       ≡ₚ macIDsOn deref k
            (elements (default ∅ (serverToVmIDs rawData !! server))
             ≫= λ vm, elements (vifsAt (vmIDToVifs rawData) vm)
                      ++ elements (vifsAt (vmIDToPodNodeAllVifs built) vm))).
Proof.
  intros built. subst built.
  change (podNodeIDToAllVifs (generateBaseSegments deref rawData s))
    with (podNodeIDToAllVifs (convertDBInfo rawData s)).
  change (vmIDToPodNodeAllVifs (generateBaseSegments deref rawData s))
    with (vmIDToPodNodeAllVifs (convertDBInfo rawData s)).
  assert (∀ o : option (gset vifptr),
            NetworkMacs_get
              (default ∅ ((λ vifs, addVifs deref vifs newNetworkMacs) <$> o)) k
            ≡ₚ macIDsOn deref k (elements (default ∅ o))) as Hset.
  { intros [vifs|]; simpl.
    - by rewrite addVifs_get, NetworkMacs_get_empty.
    - by rewrite NetworkMacs_get_empty, elements_empty. }
  split; [|split; [|split; [|split; [|split]]]].
  - intros h. rewrite hostIDToSegments_build. apply Hset.
  - intros h. rewrite gatewayHostIDToSegments_build. apply Hset.
  - intros pn. rewrite podNodeIDToSegments_build. apply Hset.
  - intros vm [vifs Hvifs]. rewrite vmIDToSegments_build. unfold vifsAt at 1.
    rewrite Hvifs. simpl. rewrite addVifsOf_vifsAt, !addVifs_get, NetworkMacs_get_empty.
    simpl. unfold macIDsOn. by rewrite filter_app, fmap_app.
  - intros vm Hvm. by rewrite vmIDToSegments_build, Hvm.
  - intros server. rewrite launchServerToSegments_build.
    destruct (serverToVmIDs rawData !! server) as [vmids|]; simpl.
    + apply launch_get.
    + by rewrite NetworkMacs_get_empty, elements_empty.
Qed.

(** X6. What a build leaves in the indices, the closures and the gateway
    cache is a function of the snapshot, up to the order in which the build
    happens to iterate: two builds from one snapshot on any two engines
    agree exactly on the closures and, up to the order of the entries, on
    every index and on the gateway list; they answer every index query
    alike up to order and claim the same ids for it; and a build after a
    build from another snapshot agrees up to order with the build alone.
    Each build and each query ranges in an order of its own. *)
Theorem build_depends_on_snapshot_only (RO1 RO2 RO3 RO4 RO5 : RangeOrder)
    rawData rawData0 s s' c :
  isIndexQuery c = true →
  let built := generateBaseSegments (RO:=RO1) deref rawData s in
  let built' := generateBaseSegments (RO:=RO2) deref rawData s' in
  indicesUpToOrder built built'
  ∧ podNodeIDToAllVifs built = podNodeIDToAllVifs built'
  ∧ vmIDToPodNodeAllVifs built = vmIDToPodNodeAllVifs built'
  ∧ answerUpToOrder (call (RO:=RO4) deref c built).1 (call (RO:=RO5) deref c built').1
  ∧ claimedBy c built = claimedBy c built'
  ∧ engineUpToOrder
      (generateBaseSegments (RO:=RO2) deref rawData
         (generateBaseSegments (RO:=RO3) deref rawData0 s))
      built.
Proof.
  intros Hc built built'.
  pose proof (build_indices_order deref RO1 RO2 rawData s s') as Hsame.
  destruct (convertDBInfo_order RO1 RO2 rawData s s') as [Hpn Hvm].
  split; [done|]. split; [exact Hpn|]. split; [exact Hvm|].
  split; [by apply index_answer_order|]. split; [by apply claimedBy_order|].
  by apply (build_order deref RO2 RO1 rawData
              (generateBaseSegments (RO:=RO3) deref rawData0 s) s).
Qed.

(** X7. On a built engine the answer of an entity query, and the gateway
    list, include exactly the interfaces with a MAC that the query reaches
    in the snapshot: for a host its interfaces, for a pod-node those of its
    closure, for a VM with interfaces of its own those and its closure, for
    a launch server those of all its VMs, for the combined query those of
    the launch server and of the host, for the gateway list those of every
    gateway host. *)
Theorem answer_meaning rawData s0 c vif :
  isIndexQuery c = true →
  includes (call deref c (generateBaseSegments deref rawData s0)).1 vif
  ↔ ∃ p, reaches rawData c p ∧ vif_Mac (deref p) ≠ ""
         ∧ shown (deref p) = shown vif.
Proof. apply includes_reaches. Qed.

(** X8. On an engine built from the snapshot and with the used set
    cleared, after any pass of entity queries an id is in the used set
    exactly when it is the id of an interface with a MAC that one of the
    queries reaches; so the catch-all pass that follows keeps an interface
    of the device list exactly when no such interface has its id. *)
Theorem claims_meaning rawData s0 (qs : list Call) :
  Forall (λ c, isEntityQuery c = true) qs →
  let built := ClearVTapUsedVInterfaceIDs (generateBaseSegments deref rawData s0) in
  (∀ x, x ∈ vtapUsedVInterfaceIDs (run deref qs built)
        ↔ ∃ c p, c ∈ qs ∧ reaches rawData c p ∧ vif_Mac (deref p) ≠ ""
                 ∧ vif_ID (deref p) = x)
  ∧ (∀ q, q ∈ unclaimed deref rawData (vtapUsedVInterfaceIDs (run deref qs built))
          ↔ q ∈ deviceVifs rawData
            ∧ ¬ ∃ c p, c ∈ qs ∧ reaches rawData c p ∧ vif_Mac (deref p) ≠ ""
                       ∧ vif_ID (deref p) = vif_ID (deref q)).
Proof.
  intros Hqs built.
  assert (∀ x, x ∈ vtapUsedVInterfaceIDs (run deref qs built)
               ↔ ∃ c p, c ∈ qs ∧ reaches rawData c p ∧ vif_Mac (deref p) ≠ ""
                        ∧ vif_ID (deref p) = x) as Hused.
  { intros x. destruct (run_entity_queries deref qs built Hqs) as [_ ->].
    subst built. cbn [vtapUsedVInterfaceIDs ClearVTapUsedVInterfaceIDs
                      set_vtapUsedVInterfaceIDs].
    rewrite (right_id_L ∅ (∪)), elem_of_union_list. split.
    - intros (X & HX & Hx). apply list_elem_of_fmap in HX as (c & -> & Hc).
      rewrite Forall_forall in Hqs.
      apply (claimedBy_reaches deref rawData s0 c x (Hqs c Hc)) in Hx as (p & ?).
      exists c, p. naive_solver.
    - intros (c & p & Hc & Hp). eexists. split.
      + apply list_elem_of_fmap. by exists c.
      + rewrite Forall_forall in Hqs.
        apply (claimedBy_reaches deref rawData s0 c x (Hqs c Hc)). eauto. }
  split; [done|]. intros q. unfold unclaimed.
  rewrite list_elem_of_filter, Hused. naive_solver.
Qed.

(** X9. Pod-node N is owned by VM V, which runs on a launch server: on a
    built engine whatever the lookup of N claims or includes, the lookup of
    the launch server claims or includes, and so does the lookup of V when
    V has interfaces of its own in the snapshot; whatever the lookup of V
    claims or includes, the lookup of the launch server does.  So after the
    lookup of the launch server the lookups of V and of N add nothing to
    the used set. *)
Theorem lookup_hierarchy rawData s0 (N V : Z) (launchServer : string) (vmids : gset Z) :
  podNodeIDToVmID rawData !! N = Some V →
  serverToVmIDs rawData !! launchServer = Some vmids → V ∈ vmids →
  let built := generateBaseSegments deref rawData s0 in
  let after := (GetLaunchServerSegments launchServer built).2 in
  claimedBy (CallGetPodNodeSegments N) built
    ⊆ claimedBy (CallGetLaunchServerSegments launchServer) built
  ∧ claimedBy (CallGetVMIDSegments V) built
    ⊆ claimedBy (CallGetLaunchServerSegments launchServer) built
  ∧ (is_Some (vmIDToVifs rawData !! V) →
     claimedBy (CallGetPodNodeSegments N) built
       ⊆ claimedBy (CallGetVMIDSegments V) built)
  ∧ (∀ vif, includes (GetPodNodeSegments N built).1 vif →
            includes (GetLaunchServerSegments launchServer built).1 vif)
  ∧ (∀ vif, includes (GetVMIDSegments V built).1 vif →
            includes (GetLaunchServerSegments launchServer built).1 vif)
  ∧ (is_Some (vmIDToVifs rawData !! V) →
     ∀ vif, includes (GetPodNodeSegments N built).1 vif →
            includes (GetVMIDSegments V built).1 vif)
  ∧ vtapUsedVInterfaceIDs (GetVMIDSegments V after).2 = vtapUsedVInterfaceIDs after
  ∧ vtapUsedVInterfaceIDs (GetPodNodeSegments N after).2 = vtapUsedVInterfaceIDs after.
Proof.
  intros HN Hsrv HV built after.
  assert (∀ p, reaches rawData (CallGetPodNodeSegments N) p →
               reaches rawData (CallGetLaunchServerSegments launchServer) p) as Hpl.
  { intros p [Hpn Hp]. exists vmids, V. split; [done|]. split; [done|].
    right. eauto. }
  assert (∀ p, reaches rawData (CallGetVMIDSegments V) p →
               reaches rawData (CallGetLaunchServerSegments launchServer) p) as Hvl.
  { intros p [_ Hp]. exists vmids, V. eauto. }
  assert (is_Some (vmIDToVifs rawData !! V) →
          ∀ p, reaches rawData (CallGetPodNodeSegments N) p →
               reaches rawData (CallGetVMIDSegments V) p) as Hpv.
  { intros HVs p [Hpn Hp]. split; [done|]. right. eauto. }
  assert (∀ c c', isEntityQuery c = true → isEntityQuery c' = true →
            (∀ p, reaches rawData c p → reaches rawData c' p) →
            claimedBy c built ⊆ claimedBy c' built) as Hclaim.
  { intros c c' Hc Hc' Hsub x. subst built.
    rewrite !(claimedBy_reaches deref) by done.
    intros (p & Hp & Hmac & Hid). exists p. split; [by apply Hsub|done]. }
  assert (∀ c c', isIndexQuery c = true → isIndexQuery c' = true →
            (∀ p, reaches rawData c p → reaches rawData c' p) →
            ∀ vif, includes (call deref c built).1 vif →
                   includes (call deref c' built).1 vif) as Hinc.
  { intros c c' Hc Hc' Hsub vif. subst built.
    rewrite !(includes_reaches deref) by done.
    intros (p & Hp & Hmac & Hshown). exists p. split; [by apply Hsub|done]. }
  assert (∀ c, isEntityQuery c = true →
            claimedBy c built ⊆ claimedBy (CallGetLaunchServerSegments launchServer) built →
            vtapUsedVInterfaceIDs (call deref c after).2 = vtapUsedVInterfaceIDs after)
    as Hafter.
  { intros c Hc Hsub. rewrite call_entity_state by done.
    assert (sameIndices built after) as Hsame.
    { subst after. apply (call_sameIndices deref (CallGetLaunchServerSegments launchServer)).
      by intros. }
    rewrite <-(claimedBy_sameIndices c _ _ Hsame).
    cbn [vtapUsedVInterfaceIDs set_vtapUsedVInterfaceIDs].
    assert (claimedBy (CallGetLaunchServerSegments launchServer) built
              ⊆ vtapUsedVInterfaceIDs after) as Hin.
    { subst after.
      change (GetLaunchServerSegments launchServer built)
        with (call deref (CallGetLaunchServerSegments launchServer) built).
      rewrite call_entity_state by done. simpl. set_solver. }
    set_solver. }
  split; [by apply Hclaim|]. split; [by apply Hclaim|].
  split; [intros HVs; apply Hclaim; [done..|by apply Hpv]|].
  split; [by apply (Hinc (CallGetPodNodeSegments N)
                         (CallGetLaunchServerSegments launchServer))|].
  split; [by apply (Hinc (CallGetVMIDSegments V)
                         (CallGetLaunchServerSegments launchServer))|].
  split; [intros HVs; apply (Hinc (CallGetPodNodeSegments N) (CallGetVMIDSegments V));
          [done..|by apply Hpv]|].
  split.
  - apply (Hafter (CallGetVMIDSegments V)); [done|by apply Hclaim].
  - apply (Hafter (CallGetPodNodeSegments N)); [done|by apply Hclaim].
Qed.

(** X10. On a built engine a per-entity lookup returns the empty list
    exactly when no interface the query reaches has a MAC: an entity the
    snapshot does not know and an entity whose interfaces all lack a MAC
    are answered alike. *)
Theorem empty_answer_iff rawData s0 c :
  isPerEntityQuery c = true →
  (call deref c (generateBaseSegments deref rawData s0)).1 = []
  ↔ ∀ p, reaches rawData c p → vif_Mac (deref p) = "".
Proof.
  intros Hc. rewrite call_perEntity_answer by done.
  pose proof (entry_holds deref rawData s0 c Hc) as Hholds.
  assert (nonEmptyGroups (default ∅ (entryOf c (generateBaseSegments deref rawData s0))))
    as Hne.
  { destruct (entryOf c _) as [n|] eqn:Hn; simpl.
    - by eapply build_entry_nonEmpty.
    - apply nonEmptyGroups_empty. }
  revert Hholds Hne.
  generalize (default ∅ (entryOf c (generateBaseSegments deref rawData s0))).
  intros n Hholds Hne. split.
  - intros Hnil%fmap_nil_inv p Hp.
    destruct (decide (vif_Mac (deref p) = "")) as [|Hmac]; [done|].
    assert (newMacID (deref p) ∈ NetworkMacs_get n (vif_NetworkID (deref p))) as Hin.
    { apply Hholds. eauto. }
    apply elem_of_NetworkMacs_get in Hin as (l & Hl & _).
    apply elem_of_range_order_map in Hl. rewrite Hnil in Hl.
    by apply elem_of_nil in Hl.
  - intros Hnone. assert (n = ∅) as ->.
    { apply map_empty. intros k. destruct (n !! k) as [l|] eqn:Hk; [|done].
      destruct l as [|m l]; [by destruct (Hne k [] Hk)|].
      assert (m ∈ NetworkMacs_get n k) as Hin.
      { apply elem_of_NetworkMacs_get. exists (m :: l). split; [done|]. by left. }
      apply Hholds in Hin as (p & Hp & Hmac & _). by destruct (Hmac (Hnone p Hp)). }
    by rewrite map_to_list_empty, range_order_nil.
Qed.

(** X11. The combined VM-type query is the lookup of the launch server
    followed by the lookup of the host, folded into one segment with id 1:
    the segment lists first the entries that the segments of the first
    lookup list, then those of the second; each of the two parts has, up to
    order, the same MACs, the same interface ids and the same (MAC, id)
    pairs as the lookup it stands for, whatever the order in which the
    three calls range over the entries; and the engine it leaves is the
    engine the two lookups leave. *)
Theorem typeVM_is_both_lookups (RO1 RO2 RO3 : RangeOrder)
    (launchServer : string) (hostID : Z) s :
  let a := GetLaunchServerSegments (RO:=RO1) launchServer s in
  let b := GetHostIDSegments (RO:=RO2) hostID a.2 in
  ∃ l1 l2 : list MacID,
    (GetTypeVMSegments (RO:=RO3) launchServer hostID s).1 = [fixedSegment (l1 ++ l2)]
    ∧ (pairsOf (fixedSegment l1) ≡ₚ mjoin (pairsOf <$> a.1)
       ∧ seg_Mac (fixedSegment l1) ≡ₚ mjoin (seg_Mac <$> a.1)
       ∧ seg_InterfaceId (fixedSegment l1) ≡ₚ mjoin (seg_InterfaceId <$> a.1))
    ∧ (pairsOf (fixedSegment l2) ≡ₚ mjoin (pairsOf <$> b.1)
       ∧ seg_Mac (fixedSegment l2) ≡ₚ mjoin (seg_Mac <$> b.1)
       ∧ seg_InterfaceId (fixedSegment l2) ≡ₚ mjoin (seg_InterfaceId <$> b.1))
    ∧ (GetTypeVMSegments (RO:=RO3) launchServer hostID s).2 = b.2.
Proof.
  intros a b. subst a b. unfold GetLaunchServerSegments, GetHostIDSegments.
  rewrite GetTypeVMSegments_spec, getSegmentsByServer_spec. cbn [fst snd].
  rewrite getSegmentsByID_spec.
  cbn [fst snd hostIDToSegments vtapUsedVInterfaceIDs set_vtapUsedVInterfaceIDs
       claimedBy].
  assert (∀ (RO' : RangeOrder) (o : option NetworkMacs),
            let w := walk (RO:=RO3) (default ∅ o) in
            let es := range_order (RangeOrder:=RO') (map_to_list (default ∅ o)) in
            pairsOf (fixedSegment w) ≡ₚ mjoin (pairsOf <$> (segmentOfEntry <$> es))
            ∧ seg_Mac (fixedSegment w) ≡ₚ mjoin (seg_Mac <$> (segmentOfEntry <$> es))
            ∧ seg_InterfaceId (fixedSegment w)
              ≡ₚ mjoin (seg_InterfaceId <$> (segmentOfEntry <$> es))) as Hpart.
  { intros RO' o w es. subst w es.
    rewrite join_pairsOf, join_seg_Mac, join_seg_InterfaceId, pairsOf_fixedSegment.
    cbn [seg_Mac seg_InterfaceId fixedSegment].
    assert (walk (RO:=RO3) (default ∅ o)
            ≡ₚ mjoin (range_order (RangeOrder:=RO') (map_to_list (default ∅ o))).*2)
      as ->; [|done].
    apply (walk_order RO3 RO'), groupingUpToOrder_refl. }
  exists (walk (RO:=RO3) (default ∅ (launchServerToSegments s !! launchServer))),
         (walk (RO:=RO3) (default ∅ (hostIDToSegments s !! hostID))).
  split; [done|]. split; [apply Hpart|]. split; [apply Hpart|].
  rewrite set_vtapUsed_twice. f_equal. set_solver.
Qed.

(** X12. The lookups never consult the used set: whatever calls other
    than a build came in between, an index query gets the answer it would
    have got before, up to the order of the segments and the order within
    each segment; asking again gives the same answer up to order and
    leaves the engine as the first query left it.  Each call ranges in an
    order of its own. *)
Theorem index_answers_ignore_claims (RO1 RO2 RO3 : RangeOrder) (cs : list Call) c s :
  (∀ rawData, CallGenerateBaseSegments rawData ∉ cs) →
  isIndexQuery c = true →
  answerUpToOrder (call (RO:=RO2) deref c (run (RO:=RO1) deref cs s)).1
                  (call (RO:=RO3) deref c s).1
  ∧ answerUpToOrder (call (RO:=RO2) deref c (call (RO:=RO3) deref c s).2).1
                    (call (RO:=RO3) deref c s).1
  ∧ (call (RO:=RO2) deref c (call (RO:=RO3) deref c s).2).2
    = (call (RO:=RO3) deref c s).2.
Proof.
  intros Hcs Hc.
  assert (∀ s', sameIndices s s' →
            answerUpToOrder (call (RO:=RO2) deref c s').1 (call (RO:=RO3) deref c s).1)
    as Hanswer.
  { intros s' Hsame.
    rewrite <-(call_answer_sameIndices (RO:=RO2) deref c s s' Hsame Hc).
    apply index_answer_order; [|done].
    destruct (engineUpToOrder_refl s) as (?&?&?&?&?&?&_). by repeat split. }
  assert (sameIndices s (call (RO:=RO3) deref c s).2) as Hsame.
  { apply call_sameIndices. intros rawData ->. done. }
  split; [by apply Hanswer, sameIndices_run|]. split; [by apply Hanswer|].
  destruct (isEntityQuery c) eqn:Hq; [|by destruct c].
  rewrite (call_entity_state (RO:=RO2) deref c (call (RO:=RO3) deref c s).2) by done.
  rewrite <-(claimedBy_sameIndices c _ _ Hsame).
  rewrite !call_entity_state by done.
  cbn [vtapUsedVInterfaceIDs set_vtapUsedVInterfaceIDs].
  rewrite set_vtapUsed_twice. f_equal. set_solver.
Qed.

(** X13. Whatever calls came before, every segment any call returns has as
    many MACs as interface ids, and its id and its interface ids lie within
    32 bits. *)
Theorem answers_well_formed (cs : list Call) c :
  Forall wellFormed (call deref c (run deref cs newSegment)).1.
Proof.
  apply call_wellFormed, run_invariant;
    [apply cachesWellFormed_new|apply cachesWellFormed_call].
Qed.

(** X14. Whatever calls came before, every segment returned by a call
    other than the combined VM-type query holds at least one MAC and one
    interface id: a network with no MAC-bearing interface gets no
    segment. *)
Theorem only_combined_query_returns_empty_segment (cs : list Call) c :
  isCombinedQuery c = false →
  Forall (λ seg, seg_Mac seg ≠ [] ∧ seg_InterfaceId seg ≠ [])
         (call deref c (run deref cs newSegment)).1.
Proof.
  intros Hc. apply Forall_forall. intros seg Hseg.
  assert (seg_Mac seg ≠ []) as Hmac.
  { eapply call_nonEmpty; [|done..].
    apply run_invariant; [apply storesNoEmptyGroup_new|apply storesNoEmptyGroup_call]. }
  split; [done|].
  assert (wellFormed seg) as [Hlen _].
  { eapply Forall_forall; [|done].
    apply call_wellFormed, run_invariant;
      [apply cachesWellFormed_new|apply cachesWellFormed_call]. }
  intros Hids. rewrite Hids in Hlen. by destruct (seg_Mac seg).
Qed.

(** X15. The catch-all list is a cache: it is what the last catch-all
    pass computed, whatever lookups, builds or clearings came since; and a
    pass replaces what an earlier pass left. *)
Theorem catch_all_cache_is_a_snapshot (cs : list Call) rawData rawData' s :
  (∀ rawData, CallGenerateNoVTapUsedSegments rawData ∉ cs) →
  GetNotVtapUsedSegments (run deref cs s) = GetNotVtapUsedSegments s
  ∧ GetNotVtapUsedSegments
      (run deref cs (GenerateNoVTapUsedSegments deref rawData s))
    = catchAll deref (unclaimed deref rawData (vtapUsedVInterfaceIDs s))
  ∧ GenerateNoVTapUsedSegments deref rawData
      (GenerateNoVTapUsedSegments deref rawData' s)
    = GenerateNoVTapUsedSegments deref rawData s.
Proof.
  intros Hcs.
  assert (∀ s, notVtapUsedSegments (run deref cs s) = notVtapUsedSegments s) as Hrun.
  { induction cs as [|c cs IH] using rev_ind; intros s1; [done|].
    rewrite run_snoc, call_notVtap.
    - apply IH. intros raw Hin. apply (Hcs raw). set_solver.
    - intros raw ->. apply (Hcs raw). set_solver. }
  unfold GetNotVtapUsedSegments. split; [apply Hrun|]. split.
  - by rewrite Hrun, GenerateNoVTapUsedSegments_spec.
  - by rewrite !GenerateNoVTapUsedSegments_spec.
Qed.

(** X16. The more is claimed, the less the catch-all pass returns: over
    one device list, the MACs and ids it returns under a larger used set
    are a sub-list of those under a smaller one; under the empty used set
    it returns the whole device list, in order. *)
Theorem catch_all_shrinks rawData s s' :
  vtapUsedVInterfaceIDs s ⊆ vtapUsedVInterfaceIDs s' →
  mjoin (seg_Mac <$> GetNotVtapUsedSegments (GenerateNoVTapUsedSegments deref rawData s'))
    `sublist_of`
    mjoin (seg_Mac <$> GetNotVtapUsedSegments (GenerateNoVTapUsedSegments deref rawData s))
  ∧ mjoin (seg_InterfaceId
             <$> GetNotVtapUsedSegments (GenerateNoVTapUsedSegments deref rawData s'))
      `sublist_of`
      mjoin (seg_InterfaceId
               <$> GetNotVtapUsedSegments (GenerateNoVTapUsedSegments deref rawData s))
  ∧ GetNotVtapUsedSegments
      (GenerateNoVTapUsedSegments deref rawData (ClearVTapUsedVInterfaceIDs s))
    = catchAll deref (deviceVifs rawData).
Proof.
  intros Hsub. rewrite !GenerateNoVTapUsedSegments_spec.
  cbn [GetNotVtapUsedSegments notVtapUsedSegments set_notVtapUsedSegments
       vtapUsedVInterfaceIDs ClearVTapUsedVInterfaceIDs set_vtapUsedVInterfaceIDs].
  rewrite !catchAll_macs, !catchAll_ids, unclaimed_empty.
  assert (unclaimed deref rawData (vtapUsedVInterfaceIDs s')
            `sublist_of` unclaimed deref rawData (vtapUsedVInterfaceIDs s)) as Hrest.
  { apply filter_sublist_impl. set_solver. }
  split; [by apply fmap_sublist|]. split; [by apply fmap_sublist|done].
Qed.

End Properties.

(** X17. Claim accounting does not depend on the order in which maps and
    sets are iterated: along any sequence of calls, under any two iteration
    orders, the used set and the catch-all list are the same, and the
    answers are the same up to the order of the segments and the order
    within each segment. *)
Theorem claim_accounting_order_independent {vifptr : Type} `{Countable vifptr}
    (deref : vifptr → VInterface) (RO RO' : RangeOrder) (cs : list Call)
    (s : Segment (vifptr:=vifptr)) :
  vtapUsedVInterfaceIDs (run (RO:=RO) deref cs s)
  = vtapUsedVInterfaceIDs (run (RO:=RO') deref cs s)
  ∧ GetNotVtapUsedSegments (run (RO:=RO) deref cs s)
    = GetNotVtapUsedSegments (run (RO:=RO') deref cs s)
  ∧ Forall2 answerUpToOrder (answers (RO:=RO) deref cs s)
                            (answers (RO:=RO') deref cs s).
Proof.
  destruct (run_order deref RO RO' cs s s (engineUpToOrder_refl s))
    as (_&_&_&_&_&_&Hused&Hnot).
  split; [done|]. split; [done|]. apply answers_order, engineUpToOrder_refl.
Qed.

(** ** The properties on the sample snapshots *)

(** X6 on [topoRaw]: a build on a new engine in one order, and on an
    engine built from [hostRaw] in the other; the lookup of VM 100. *)
Lemma build_depends_on_snapshot_only_witness :
  indicesUpToOrder
    (generateBaseSegments (RO:=listed_order) sampleVif topoRaw newSegment)
    (generateBaseSegments (RO:=reversed_order) sampleVif topoRaw (freshEngine hostRaw))
  ∧ podNodeIDToAllVifs
      (generateBaseSegments (RO:=listed_order) sampleVif topoRaw newSegment)
    = podNodeIDToAllVifs
        (generateBaseSegments (RO:=reversed_order) sampleVif topoRaw
           (freshEngine hostRaw))
  ∧ vmIDToPodNodeAllVifs
      (generateBaseSegments (RO:=listed_order) sampleVif topoRaw newSegment)
    = vmIDToPodNodeAllVifs
        (generateBaseSegments (RO:=reversed_order) sampleVif topoRaw
           (freshEngine hostRaw))
  ∧ answerUpToOrder
      (call (RO:=listed_order) sampleVif (CallGetVMIDSegments 100)
         (generateBaseSegments (RO:=listed_order) sampleVif topoRaw newSegment)).1
      (call (RO:=reversed_order) sampleVif (CallGetVMIDSegments 100)
         (generateBaseSegments (RO:=reversed_order) sampleVif topoRaw
            (freshEngine hostRaw))).1
  ∧ claimedBy (CallGetVMIDSegments 100)
      (generateBaseSegments (RO:=listed_order) sampleVif topoRaw newSegment)
    = claimedBy (CallGetVMIDSegments 100)
        (generateBaseSegments (RO:=reversed_order) sampleVif topoRaw
           (freshEngine hostRaw))
  ∧ engineUpToOrder
      (generateBaseSegments (RO:=reversed_order) sampleVif topoRaw
         (generateBaseSegments (RO:=listed_order) sampleVif hostRaw newSegment))
      (generateBaseSegments (RO:=listed_order) sampleVif topoRaw newSegment).
Proof.
  apply (build_depends_on_snapshot_only sampleVif listed_order reversed_order
           listed_order listed_order reversed_order topoRaw hostRaw
           newSegment (freshEngine hostRaw) (CallGetVMIDSegments 100)).
  reflexivity.
Defined.

(** X7 on [topoRaw]: the lookup of launch server "srv" includes interface 4
    of pod 8, on pod-node 7, owned by VM 100. *)
Lemma answer_meaning_witness :
  includes
    (call (RO:=listed_order) sampleVif (CallGetLaunchServerSegments "srv")
       (generateBaseSegments (RO:=listed_order) sampleVif topoRaw newSegment)).1
    (sampleVif 4).
Proof.
  apply (answer_meaning (RO:=listed_order) sampleVif topoRaw newSegment
           (CallGetLaunchServerSegments "srv") (sampleVif 4)); [reflexivity|].
  exists 4%nat. split; [|split; [discriminate|reflexivity]].
  exists {[100]}, 100. split; [reflexivity|]. split; [by apply elem_of_singleton|].
  right. exists 7. split; [reflexivity|]. split.
  - exists 7, {| pn_ID := 7 |}. split; reflexivity.
  - right. exists {[8]}, 8. split; [reflexivity|]. split; [by apply elem_of_singleton|].
    change (4%nat ∈ ({[4%nat]} : gset nat)). by apply elem_of_singleton.
Defined.

(** X8 on [topoRaw]: the lookup of host 1 claims interface 1. *)
Lemma claims_meaning_witness :
  1 ∈ vtapUsedVInterfaceIDs
        (run (RO:=listed_order) sampleVif [CallGetHostIDSegments 1]
           (ClearVTapUsedVInterfaceIDs
              (generateBaseSegments (RO:=listed_order) sampleVif topoRaw newSegment))).
Proof.
  destruct (claims_meaning (RO:=listed_order) sampleVif topoRaw newSegment
              [CallGetHostIDSegments 1]) as [Hused _].
  - repeat constructor.
  - apply Hused. exists (CallGetHostIDSegments 1), 1%nat.
    split; [by apply list_elem_of_singleton|].
    split; [|split; [discriminate|reflexivity]].
    change (1%nat ∈ ({[1%nat; 5%nat]} : gset nat)).
    apply elem_of_union. left. by apply elem_of_singleton.
Defined.

(** X9 on [topoRaw]: pod-node 7, VM 100, launch server "srv". *)
Lemma lookup_hierarchy_witness :
  claimedBy (CallGetPodNodeSegments 7)
    (generateBaseSegments (RO:=listed_order) sampleVif topoRaw newSegment)
    ⊆ claimedBy (CallGetLaunchServerSegments "srv")
        (generateBaseSegments (RO:=listed_order) sampleVif topoRaw newSegment)
  ∧ vtapUsedVInterfaceIDs
      (GetVMIDSegments (RO:=listed_order) 100
         (GetLaunchServerSegments (RO:=listed_order) "srv"
            (generateBaseSegments (RO:=listed_order) sampleVif topoRaw newSegment)).2).2
    = vtapUsedVInterfaceIDs
        (GetLaunchServerSegments (RO:=listed_order) "srv"
           (generateBaseSegments (RO:=listed_order) sampleVif topoRaw newSegment)).2
  ∧ vtapUsedVInterfaceIDs
      (GetPodNodeSegments (RO:=listed_order) 7
         (GetLaunchServerSegments (RO:=listed_order) "srv"
            (generateBaseSegments (RO:=listed_order) sampleVif topoRaw newSegment)).2).2
    = vtapUsedVInterfaceIDs
        (GetLaunchServerSegments (RO:=listed_order) "srv"
           (generateBaseSegments (RO:=listed_order) sampleVif topoRaw newSegment)).2.
Proof.
  destruct (lookup_hierarchy (RO:=listed_order) sampleVif topoRaw newSegment
              7 100 "srv" {[100]}) as (Hpl & _ & _ & _ & _ & _ & Hvm & Hpn).
  - reflexivity.
  - reflexivity.
  - by apply elem_of_singleton.
  - split; [exact Hpl|]. split; [exact Hvm|exact Hpn].
Defined.

(** X10 on [macLessRaw]: host 1 is known, its one interface has no MAC. *)
Lemma empty_answer_iff_witness :
  (call (RO:=listed_order) sampleVif (CallGetHostIDSegments 1)
     (generateBaseSegments (RO:=listed_order) sampleVif macLessRaw newSegment)).1 = [].
Proof.
  apply (empty_answer_iff (RO:=listed_order) sampleVif macLessRaw newSegment
           (CallGetHostIDSegments 1)); [reflexivity|].
  intros p Hp. change (p ∈ ({[5%nat]} : gset nat)) in Hp.
  apply elem_of_singleton in Hp. by subst p.
Defined.

(** X12 on [topoRaw]: the lookup of VM 100, whose entry has two networks
    and two interfaces on one of them, after a lookup, a clearing and a
    catch-all pass; the calls range in opposite orders. *)
Lemma index_answers_ignore_claims_witness :
  answerUpToOrder
    (call (RO:=reversed_order) sampleVif (CallGetVMIDSegments 100)
       (run (RO:=listed_order) sampleVif
          [CallGetVMIDSegments 100; CallClearVTapUsedVInterfaceIDs;
           CallGenerateNoVTapUsedSegments topoRaw]
          (freshEngine topoRaw))).1
    (call (RO:=listed_order) sampleVif (CallGetVMIDSegments 100) (freshEngine topoRaw)).1
  ∧ answerUpToOrder
      (call (RO:=reversed_order) sampleVif (CallGetVMIDSegments 100)
         (call (RO:=listed_order) sampleVif (CallGetVMIDSegments 100)
            (freshEngine topoRaw)).2).1
      (call (RO:=listed_order) sampleVif (CallGetVMIDSegments 100)
         (freshEngine topoRaw)).1
  ∧ (call (RO:=reversed_order) sampleVif (CallGetVMIDSegments 100)
       (call (RO:=listed_order) sampleVif (CallGetVMIDSegments 100)
          (freshEngine topoRaw)).2).2
    = (call (RO:=listed_order) sampleVif (CallGetVMIDSegments 100)
         (freshEngine topoRaw)).2.
Proof.
  apply (index_answers_ignore_claims sampleVif listed_order reversed_order listed_order
           [CallGetVMIDSegments 100; CallClearVTapUsedVInterfaceIDs;
            CallGenerateNoVTapUsedSegments topoRaw]
           (CallGetVMIDSegments 100) (freshEngine topoRaw)); [|reflexivity].
  intros rawData Hin.
  repeat (apply elem_of_cons in Hin as [Hin|Hin]; [discriminate Hin|]).
  by apply elem_of_nil in Hin.
Defined.

(** X14 on [topoRaw]: the lookup of host 1, whose interface 5 has no MAC. *)
Lemma only_combined_query_returns_empty_segment_witness :
  Forall (λ seg, seg_Mac seg ≠ [] ∧ seg_InterfaceId seg ≠ [])
    (call (RO:=listed_order) sampleVif (CallGetHostIDSegments 1)
       (run (RO:=listed_order) sampleVif [CallGenerateBaseSegments topoRaw]
          newSegment)).1.
Proof.
  apply (only_combined_query_returns_empty_segment (RO:=listed_order) sampleVif
           [CallGenerateBaseSegments topoRaw] (CallGetHostIDSegments 1)).
  reflexivity.
Defined.

(** X15 on [topoRaw]: a lookup, a clearing and a build from another
    snapshot after the catch-all pass. *)
Lemma catch_all_cache_is_a_snapshot_witness :
  GetNotVtapUsedSegments
    (run (RO:=listed_order) sampleVif
       [CallGetHostIDSegments 1; CallClearVTapUsedVInterfaceIDs;
        CallGenerateBaseSegments hostRaw]
       (freshEngine topoRaw))
  = GetNotVtapUsedSegments (freshEngine topoRaw)
  ∧ GetNotVtapUsedSegments
      (run (RO:=listed_order) sampleVif
         [CallGetHostIDSegments 1; CallClearVTapUsedVInterfaceIDs;
          CallGenerateBaseSegments hostRaw]
         (GenerateNoVTapUsedSegments sampleVif topoRaw (freshEngine topoRaw)))
    = catchAll sampleVif
        (unclaimed sampleVif topoRaw (vtapUsedVInterfaceIDs (freshEngine topoRaw)))
  ∧ GenerateNoVTapUsedSegments sampleVif topoRaw
      (GenerateNoVTapUsedSegments sampleVif hostRaw (freshEngine topoRaw))
    = GenerateNoVTapUsedSegments sampleVif topoRaw (freshEngine topoRaw).
Proof.
  apply (catch_all_cache_is_a_snapshot (RO:=listed_order) sampleVif
           [CallGetHostIDSegments 1; CallClearVTapUsedVInterfaceIDs;
            CallGenerateBaseSegments hostRaw]
           topoRaw hostRaw (freshEngine topoRaw)).
  intros rawData Hin.
  repeat (apply elem_of_cons in Hin as [Hin|Hin]; [discriminate Hin|]).
  by apply elem_of_nil in Hin.
Defined.

(** X16 on [topoRaw]: the catch-all pass before and after the lookup of
    host 1. *)
Lemma catch_all_shrinks_witness :
  mjoin (seg_Mac
           <$> GetNotVtapUsedSegments
                 (GenerateNoVTapUsedSegments sampleVif topoRaw
                    (GetHostIDSegments (RO:=listed_order) 1 (freshEngine topoRaw)).2))
    `sublist_of`
    mjoin (seg_Mac
             <$> GetNotVtapUsedSegments
                   (GenerateNoVTapUsedSegments sampleVif topoRaw (freshEngine topoRaw)))
  ∧ mjoin (seg_InterfaceId
             <$> GetNotVtapUsedSegments
                   (GenerateNoVTapUsedSegments sampleVif topoRaw
                      (GetHostIDSegments (RO:=listed_order) 1 (freshEngine topoRaw)).2))
      `sublist_of`
      mjoin (seg_InterfaceId
               <$> GetNotVtapUsedSegments
                     (GenerateNoVTapUsedSegments sampleVif topoRaw (freshEngine topoRaw)))
  ∧ GetNotVtapUsedSegments
      (GenerateNoVTapUsedSegments sampleVif topoRaw
         (ClearVTapUsedVInterfaceIDs (freshEngine topoRaw)))
    = catchAll sampleVif (deviceVifs topoRaw).
Proof.
  apply (catch_all_shrinks sampleVif topoRaw (freshEngine topoRaw)
           (GetHostIDSegments (RO:=listed_order) 1 (freshEngine topoRaw)).2).
  intros x Hx. change (x ∈ (∅ : gset Z)) in Hx. by apply elem_of_empty in Hx.
Defined.
